(** * myskyapp: catalogue search and orientation pipeline

    A shallow embedding of the application: [StarData] (solar-system table,
    position service and search), [App_new] (heading conversion, moving
    average, hysteresis gate, sensor listeners, bearing calculator, compass,
    search modal and location request), its earlier variants [App] and
    [App_part_001], and the catalogue converter [Convert].

    JavaScript numbers are IEEE-754 binary64 values.  Every function below is
    written once, over an interface [Number] of the arithmetic the source
    uses, and the interface has two instances:
    - [binary64], primitive floats: what the engine computes;
    - [exact], rationals: the same expressions without rounding.
    Structural properties are proved for every instance, range properties in
    exact arithmetic and, through the specification of primitive floats, in
    binary64; what is evaluated on a concrete input is evaluated in both. *)

From Stdlib Require Import ZArith NArith QArith Qabs Qminmax Qround.
From Stdlib Require Import List Sorted Permutation Bool String Ascii Lia Lqa.
From Stdlib Require Import Floats SpecFloat.
Import ListNotations.

Set Implicit Arguments.

(** ** Numbers *)

Declare Scope js_scope.
Delimit Scope js_scope with js.

Class Number (num : Type) : Type := {
  (** the numeric literal [n/d], e.g. [0.3] is [lit 3 10] *)
  lit : Z -> positive -> num;
  add : num -> num -> num;
  sub : num -> num -> num;
  mul : num -> num -> num;
  div : num -> num -> num;
  (** [%]: remainder of the truncated division, sign of the dividend *)
  rem : num -> num -> num;
  (** unary minus *)
  neg : num -> num;
  (** [Math.abs] *)
  Math_abs : num -> num;
  (** [Math.min] of two arguments *)
  Math_min : num -> num -> num;
  (** [a < b] *)
  lt : num -> num -> bool;
  (** ToBoolean: false on zero (and NaN) *)
  truthy : num -> bool;
  (** [Math.PI] *)
  Math_PI : num
}.

Notation "x + y" := (add x y) : js_scope.
Notation "x - y" := (sub x y) : js_scope.
Notation "x * y" := (mul x y) : js_scope.
Notation "x / y" := (div x y) : js_scope.
Notation "x 'mod' y" := (rem x y) : js_scope.
Notation "- x" := (neg x) : js_scope.
Notation "x <? y" := (lt x y) : js_scope.
Notation "x >? y" := (lt y x) : js_scope.

(** An integer literal. *)
Definition int {num} `{Number num} (n : Z) : num := lit n 1.

(** *** Exact arithmetic *)

(** Truncated remainder on rationals: [x - y * trunc (x / y)]. *)
Definition Qtrunc (q : Q) : Z := Z.quot (Qnum q) (Zpos (Qden q)).

Definition Qrem (x y : Q) : Q := (x - y * inject_Z (Qtrunc (x / y)))%Q.

Definition Qltb (x y : Q) : bool := negb (Qle_bool y x).

#[export] Instance exact : Number Q := {|
  lit := fun n d => (n # d)%Q;
  add := Qplus;
  sub := Qminus;
  mul := Qmult;
  div := Qdiv;
  rem := Qrem;
  neg := Qopp;
  Math_abs := Qabs;
  Math_min := Qmin;
  lt := Qltb;
  truthy := fun q => negb (Qeq_bool q 0);
  (* the rational that the binary64 constant 3.141592653589793 denotes *)
  Math_PI := (884279719003555 # 281474976710656)%Q
|}.

(** *** Binary64 arithmetic *)

Definition float_of_Z (z : Z) : float :=
  match z with
  | Z0 => 0%float
  | Zpos _ => PrimFloat.of_uint63 (Uint63.of_Z z)
  | Zneg p => (- PrimFloat.of_uint63 (Uint63.of_Z (Zpos p)))%float
  end.

(** [fmod]: the remainder is computed on the integer significands, so it is
    exact, as IEEE-754 requires of it. *)
Definition float_rem (x y : float) : float :=
  match Prim2SF x, Prim2SF y with
  | S754_nan, _ | _, S754_nan => nan
  | S754_infinity _, _ => nan
  | _, S754_zero _ => nan
  | S754_zero _, _ => x
  | S754_finite _ _ _, S754_infinity _ => x
  | S754_finite sx mx ex, S754_finite _ my ey =>
      let e := Z.min ex ey in
      let X := (Zpos mx * 2 ^ (ex - e))%Z in
      let Y := (Zpos my * 2 ^ (ey - e))%Z in
      let R := Z.rem X Y in
      if (R =? 0)%Z then (if sx then (-0)%float else 0%float)
      else SF2Prim (binary_normalize prec emax (if sx then (- R)%Z else R) e false)
  end.

Definition float_min (a b : float) : float :=
  if (is_nan a || is_nan b)%bool then nan
  else if PrimFloat.ltb a b then a
  else if PrimFloat.ltb b a then b
  else match classify a with NZero => a | _ => b end.

#[export] Instance binary64 : Number float := {|
  lit := fun n d => PrimFloat.div (float_of_Z n) (float_of_Z (Zpos d));
  add := PrimFloat.add;
  sub := PrimFloat.sub;
  mul := PrimFloat.mul;
  div := PrimFloat.div;
  rem := float_rem;
  neg := PrimFloat.opp;
  Math_abs := PrimFloat.abs;
  Math_min := float_min;
  lt := PrimFloat.ltb;
  truthy := fun f => negb (is_zero f || is_nan f);
  Math_PI := 0x1.921fb54442d18p+1%float
|}.

(** ** Strings *)

(** A JavaScript string is a sequence of UTF-16 code units; [length] counts
    code units. *)
Definition jsstring : Type := list N.

(** A literal made of Basic Latin characters. *)
Definition str (s : string) : jsstring := map N_of_ascii (list_ascii_of_string s).

Fixpoint jsstring_eqb (s t : jsstring) : bool :=
  match s, t with
  | [], [] => true
  | c :: s', d :: t' => N.eqb c d && jsstring_eqb s' t'
  | _, _ => false
  end.

Fixpoint startsWith (s t : jsstring) : bool :=
  match t, s with
  | [], _ => true
  | _ :: _, [] => false
  | d :: t', c :: s' => N.eqb c d && startsWith s' t'
  end.

(** [s.includes(t)]: [t] occurs in [s] as a contiguous run. *)
Fixpoint includes (s t : jsstring) : bool :=
  startsWith s t ||
  match s with
  | [] => false
  | _ :: s' => includes s' t
  end.

(** [String.prototype.toLowerCase] on the Basic Latin block; every other code
    unit is kept.  The engine's function also maps capital letters of other
    scripts; the names the tables below contain are Basic Latin or Hangul
    (which has no case), and the functions that lower-case take the function
    as an argument. *)
Definition lowerUnit (c : N) : N :=
  if ((65 <=? c) && (c <=? 90))%N then (c + 32)%N else c.

Definition asciiLowerCase (s : jsstring) : jsstring := map lowerUnit s.

(** ** Exceptions *)

Inductive completion (A : Type) : Type :=
| Normal (a : A)
| Throw (error : jsstring).

Arguments Normal {A} a.
Arguments Throw {A} error.

(** [try { body } catch (error) { handler }] for a body without side effects. *)
Definition try_catch {A} (body : completion A) (handler : jsstring -> completion A) : completion A :=
  match body with
  | Normal a => Normal a
  | Throw e => handler e
  end.

Definition bind {A B} (c : completion A) (k : A -> completion B) : completion B :=
  match c with
  | Normal a => k a
  | Throw e => Throw e
  end.

Notation "x <- c ;; k" := (bind c (fun x => k))
  (at level 61, c at next level, right associativity).

(** [Array.prototype.sort(compareFn)].  ECMAScript leaves the algorithm to the
    engine but requires the sort to be stable and, for a consistent
    comparator, to order by it; this is the stable insertion sort: an element
    moves behind exactly the elements [y] with [compareFn x y > 0]. *)
Fixpoint Array_insert {num} `{Number num} {A} (compareFn : A -> A -> num) (x : A) (l : list A) : list A :=
  match l with
  | [] => [x]
  | y :: l' =>
      if (compareFn x y >? int 0)%js then y :: Array_insert compareFn x l'
      else x :: y :: l'
  end.

Definition Array_sort {num} `{Number num} {A} (compareFn : A -> A -> num) (l : list A) : list A :=
  fold_right (Array_insert compareFn) [] l.

(** [Array.prototype.map] with a callback that may throw. *)
Fixpoint Array_map {A B} (f : A -> completion B) (l : list A) : completion (list B) :=
  match l with
  | [] => Normal []
  | a :: l' => b <- f a ;; bs <- Array_map f l' ;; Normal (b :: bs)
  end.

(** [.filter((x) => x !== null)] *)
Fixpoint dropNull {A} (l : list (option A)) : list A :=
  match l with
  | [] => []
  | Some a :: l' => a :: dropNull l'
  | None :: l' => dropNull l'
  end.

(** ** StarData.js *)

Module StarData.

(** [Astronomy.Body], as far as [getBodyForName] uses it. *)
Inductive Body : Type :=
| Sun | Moon | Mercury | Venus | Mars | Jupiter | Saturn | Uranus | Neptune | Pluto.

(** A [Date] is its time value: milliseconds since the epoch, or NaN for an
    invalid date. *)
Definition Date : Type := option Z.

Inductive Id : Type :=
| IdString (s : jsstring)
| IdNumber (n : Z)
| IdNull.

Section Data.
Context {num : Type}.

Record Observer : Type := {
  latitude : num;
  longitude : num;
  height : num
}.

(** What [Astronomy.Equator] returns, as far as it is read. *)
Record EquatorialCoordinates : Type := {
  equ_ra : num;
  equ_dec : num
}.

Record Position : Type := {
  pos_ra : num;
  pos_dec : num
}.

(** An entry of [solarSystemBodies]. *)
Record SolarSystemBody : Type := {
  body_id : jsstring;
  body_proper : jsstring;
  body_name : jsstring;
  body_mag : num
}.

(** A record of the catalogue asset [hygdata_v3.json].  A field the
    converter could not fill is [null]: [None]. *)
Record Star : Type := {
  star_id : option Z;
  star_proper : option jsstring;
  star_name : option jsstring;
  star_ra : option num;
  star_dec : option num;
  star_mag : option num
}.

(** An element of the array [searchCelestial] returns. *)
Record CelestialObject : Type := {
  id : Id;
  proper : option jsstring;
  name : option jsstring;
  mag : option num;
  ra : option num;
  dec : option num;
  isSolarSystemBody : bool
}.

End Data.

Arguments Observer : clear implicits.
Arguments EquatorialCoordinates : clear implicits.
Arguments Position : clear implicits.
Arguments SolarSystemBody : clear implicits.
Arguments Star : clear implicits.
Arguments CelestialObject : clear implicits.

Section Definitions.
Context {num : Type} `{Number num}.

(** [String.prototype.toLowerCase] *)
Variable toLowerCase : jsstring -> jsstring.

(** [Astronomy.Equator(body, date, observer, ofdate, aberration)] of
    astronomy-engine; it throws on arguments it rejects. *)
Variable Equator :
  Body -> Date -> Observer num -> bool -> bool -> completion (EquatorialCoordinates num).

(** The catalogue, [import starData from "./assets/hygdata_v3.json"]. *)
Variable starData : list (Star num).

(** [new Date()], the default of the [date] parameter. *)
Variable now : Date.

Definition solarSystemBodies : list (SolarSystemBody num) := [
  {| body_id := str "sun"; body_proper := [0xD0DC; 0xC591]%N; body_name := str "Sun"; body_mag := lit (-267) 10 |};
  {| body_id := str "moon"; body_proper := [0xB2EC]%N; body_name := str "Moon"; body_mag := lit (-126) 10 |};
  {| body_id := str "mercury"; body_proper := [0xC218; 0xC131]%N; body_name := str "Mercury"; body_mag := lit (-5) 10 |};
  {| body_id := str "venus"; body_proper := [0xAE08; 0xC131]%N; body_name := str "Venus"; body_mag := lit (-44) 10 |};
  {| body_id := str "mars"; body_proper := [0xD654; 0xC131]%N; body_name := str "Mars"; body_mag := lit 7 10 |};
  {| body_id := str "jupiter"; body_proper := [0xBAA9; 0xC131]%N; body_name := str "Jupiter"; body_mag := lit (-22) 10 |};
  {| body_id := str "saturn"; body_proper := [0xD1A0; 0xC131]%N; body_name := str "Saturn"; body_mag := lit 5 10 |};
  {| body_id := str "uranus"; body_proper := [0xCC9C; 0xC655; 0xC131]%N; body_name := str "Uranus"; body_mag := lit 56 10 |};
  {| body_id := str "neptune"; body_proper := [0xD574; 0xC655; 0xC131]%N; body_name := str "Neptune"; body_mag := lit 78 10 |};
  {| body_id := str "pluto"; body_proper := [0xBA85; 0xC655; 0xC131]%N; body_name := str "Pluto"; body_mag := lit 143 10 |}
].

Definition getBodyForName (name : jsstring) : option Body :=
  let bodyName := toLowerCase name in
  if jsstring_eqb bodyName (str "sun") then Some Sun
  else if jsstring_eqb bodyName (str "moon") then Some Moon
  else if jsstring_eqb bodyName (str "mercury") then Some Mercury
  else if jsstring_eqb bodyName (str "venus") then Some Venus
  else if jsstring_eqb bodyName (str "mars") then Some Mars
  else if jsstring_eqb bodyName (str "jupiter") then Some Jupiter
  else if jsstring_eqb bodyName (str "saturn") then Some Saturn
  else if jsstring_eqb bodyName (str "uranus") then Some Uranus
  else if jsstring_eqb bodyName (str "neptune") then Some Neptune
  else if jsstring_eqb bodyName (str "pluto") then Some Pluto
  else None.

(** [bodyName] and [observer] are [None] when the argument is [null] or
    [undefined]; the empty string is falsy as well.  The result is the
    completion of the call: [Normal None] is [return null].  The
    [console.warn] and [console.error] lines have no effect on the result. *)
Definition calculateSolarSystemBodyPosition
  (bodyName : option jsstring) (observer : option (Observer num)) (date : Date)
  : completion (option (Position num)) :=
  match observer with
  | None => Normal None
  | Some obs =>
      match bodyName with
      | None | Some [] => Normal None
      | Some bodyName =>
          try_catch
            (match getBodyForName bodyName with
             | None => Normal None
             | Some body =>
                 equ <- Equator body date obs true true ;;
                 Normal (Some {| pos_ra := equ_ra equ; pos_dec := equ_dec equ |})
             end)
            (fun _ => Normal None)
      end
  end.

(** The callback of [.map] in [getAllSolarSystemBodiesPositions]:
    [{...body, ra: position.ra, dec: position.dec, isSolarSystemBody: true}],
    or [null]. *)
Definition bodyWithPosition (observer : option (Observer num)) (body : SolarSystemBody num)
  : completion (option (CelestialObject num)) :=
  try_catch
    (position <- calculateSolarSystemBodyPosition (Some (body_name body)) observer now ;;
     match position with
     | None => Normal None
     | Some p =>
         Normal (Some {| id := IdString (body_id body);
                         proper := Some (body_proper body);
                         name := Some (body_name body);
                         mag := Some (body_mag body);
                         ra := Some (pos_ra p);
                         dec := Some (pos_dec p);
                         isSolarSystemBody := true |})
     end)
    (fun _ => Normal None).

Definition getAllSolarSystemBodiesPositions (observer : option (Observer num))
  : completion (list (CelestialObject num)) :=
  match observer with
  | None => Normal []
  | Some _ =>
      l <- Array_map (bodyWithPosition observer) solarSystemBodies ;;
      Normal (dropNull l)
  end.

(** The callback of [.map] in the solar-system pass of [searchCelestial]. *)
Definition solarSystemResult (observer : option (Observer num)) (body : SolarSystemBody num)
  : completion (option (CelestialObject num)) :=
  try_catch
    (realTimePosition <- calculateSolarSystemBodyPosition (Some (body_name body)) observer now ;;
     match realTimePosition with
     | None => Normal None
     | Some p =>
         Normal (Some {| id := IdString (body_id body);
                         proper := Some (body_proper body);
                         name := Some (body_name body);
                         mag := Some (body_mag body);
                         ra := Some (pos_ra p);
                         dec := Some (pos_dec p);
                         isSolarSystemBody := true |})
     end)
    (fun _ => Normal None).

(** First [try] block: what it pushes on [results]; nothing when it throws. *)
Definition solarSystemResults (lowerText : jsstring) (observer : option (Observer num))
  : list (CelestialObject num) :=
  match
    Array_map (solarSystemResult observer)
      (filter (fun body =>
                 includes (toLowerCase (body_proper body)) lowerText
                 || includes (toLowerCase (body_name body)) lowerText)
              solarSystemBodies)
  with
  | Normal l => dropNull l
  | Throw _ => []
  end.

(** [a === b] where either side may be [undefined]. *)
Definition strictEq (a b : option jsstring) : bool :=
  match a, b with
  | Some s, Some t => jsstring_eqb s t
  | None, None => true
  | _, _ => false
  end.

(** The local [isSolarSystemBody] of the star filter. *)
Definition isSolarSystemBodyItem (item : Star num) : bool :=
  existsb (fun body =>
             strictEq (Some (toLowerCase (body_name body))) (option_map toLowerCase (star_name item))
             || strictEq (Some (toLowerCase (body_proper body))) (option_map toLowerCase (star_proper item)))
          solarSystemBodies.

(** [x?.toLowerCase() || ""] *)
Definition lowerOrEmpty (x : option jsstring) : jsstring :=
  match option_map toLowerCase x with
  | Some s => s
  | None => []
  end.

Definition starFilter (lowerText : jsstring) (item : Star num) : bool :=
  if isSolarSystemBodyItem item then false
  else
    let proper := lowerOrEmpty (star_proper item) in
    let name := lowerOrEmpty (star_name item) in
    includes proper lowerText || includes name lowerText.

(** [star.id || star.proper || star.name] *)
Definition starResultId (star : Star num) : Id :=
  match star_id star with
  | Some (Zpos _ as n) | Some (Zneg _ as n) => IdNumber n
  | _ =>
      match star_proper star with
      | Some ((_ :: _) as s) => IdString s
      | _ =>
          match star_name star with
          | Some s => IdString s
          | None => IdNull
          end
      end
  end.

(** Second [try] block: the star pass.  On records of type [Star] none of
    its operations throws. *)
Definition starResults (lowerText : jsstring) : list (CelestialObject num) :=
  map (fun star =>
         {| id := starResultId star;
            proper := star_proper star;
            name := star_name star;
            mag := star_mag star;
            ra := star_ra star;
            dec := star_dec star;
            isSolarSystemBody := false |})
      (firstn 20 (filter (starFilter lowerText) starData)).

(** [x.mag || 100] *)
Definition magOr100 (x : CelestialObject num) : num :=
  match mag x with
  | Some m => if truthy m then m else int 100
  | None => int 100
  end.

(** The comparator of the final sort. *)
Definition compareMag (a b : CelestialObject num) : num :=
  (magOr100 a - magOr100 b)%js.

Definition searchCelestial (query : jsstring) (observer : option (Observer num))
  : list (CelestialObject num) :=
  if (List.length query <? 2)%nat then []
  else
    match observer with
    | None => []
    | Some _ =>
        let lowerText := toLowerCase query in
        let results := solarSystemResults lowerText observer ++ starResults lowerText in
        firstn 15 (Array_sort compareMag results)
    end.

End Definitions.

End StarData.

(** ** App_new.js *)

(** [a <= b]; on NaN it is not the negation of [b < a]. *)
Class LessEq (num : Type) : Type := leq : num -> num -> bool.

#[export] Instance exact_leq : LessEq Q := Qle_bool.

#[export] Instance binary64_leq : LessEq float := PrimFloat.leb.

Notation "x <=? y" := (leq x y) : js_scope.

Module App_new.

Section Data.
Context {num : Type}.

(** A sensor reading. *)
Record Vec3 : Type := { x : num; y : num; z : num }.

(** [last.current] *)
Record Last : Type := {
  accel : option Vec3;
  gyro : option Vec3;
  mag : option Vec3
}.

(** [sensorHistory.current] *)
Record SensorHistory : Type := {
  azimuth : list num;
  altitude : list num;
  windowSize : nat
}.

(** [azAlt], [previousAzAlt.current] *)
Record AzAlt : Type := { az : num; alt : num }.

(** What [getEulerAngles] returns. *)
Record EulerAngles : Type := { heading : num; pitch : num; roll : num }.

(** [eq], and the two fields of [selectedCelestial] that are read. *)
Record Equatorial : Type := { ra : num; dec : num }.

Record DirectionInfo : Type := {
  raDiff : num;
  decDiff : num;
  distance : num;
  angle : num;
  angleDeg : num
}.

End Data.

Arguments Vec3 : clear implicits.
Arguments Last : clear implicits.
Arguments SensorHistory : clear implicits.
Arguments AzAlt : clear implicits.
Arguments EulerAngles : clear implicits.
Arguments Equatorial : clear implicits.
Arguments DirectionInfo : clear implicits.

Section Definitions.
Context {num : Type} `{Number num}.
Local Open Scope js_scope.

(** The filter object of the [ahrs] package: its state, [update] and
    [getEulerAngles]. *)
Variable AHRS : Type.
Variable update : AHRS -> num -> num -> num -> num -> num -> num -> num -> num -> num -> AHRS.
Variable getEulerAngles : AHRS -> EulerAngles num.

Variable Math_sqrt : num -> num.
Variable Math_atan2 : num -> num -> num.

(** The mutable references of the component, and the [azAlt] state. *)
Record Refs : Type := {
  sensorHistory : SensorHistory num;
  previousAzAlt : AzAlt num;
  madgwick : AHRS;
  last : Last num
}.

Definition changeThreshold : num := lit 3 10.

(** The array [history] is changed in place: the first component is its
    content after the call, the second the value returned. *)
Definition applyMovingAverage (newValue : num) (history : list num) (windowSize : nat)
  : list num * num :=
  let history := history ++ [newValue] in
  let history := if (windowSize <? List.length history)%nat then tl history else history in
  let sum := fold_left (fun acc val => acc + val) history (int 0) in
  (history, sum / int (Z.of_nat (List.length history))).

(** The local [normalizedAzDiff] of [shouldUpdateOrientation]. *)
Definition normalizedAzDiff (newAz previousAz : num) : num :=
  let azDiff := Math_abs (newAz - previousAz) in
  Math_min azDiff (int 360 - azDiff).

Definition shouldUpdateOrientation (previousAzAlt : AzAlt num) (newAz newAlt : num) : bool :=
  let altDiff := Math_abs (newAlt - alt previousAzAlt) in
  (normalizedAzDiff newAz (az previousAzAlt) >? changeThreshold)
  || (altDiff >? changeThreshold).

(** The two assignments to [azDeg] in [tryFuse]. *)
Definition azDeg (heading declination : num) : num :=
  let azDeg := ((heading * int 180) / Math_PI) mod int 360 in
  (azDeg + declination + int 360) mod int 360.

Definition altDeg (pitch : num) : num := (pitch * int 180) / Math_PI.

(** One call of [tryFuse]: the references after it, and the argument of
    [setAzAlt] when it is called. *)
Definition tryFuse (declination : num) (r : Refs) : Refs * option (AzAlt num) :=
  match accel (last r), gyro (last r), mag (last r) with
  | Some accel, Some gyro, Some mag =>
      let aX := - z accel in let aY := x accel in let aZ := - y accel in
      let gX := - z gyro in let gY := x gyro in let gZ := - y gyro in
      let mX := - z mag in let mY := x mag in let mZ := - y mag in
      let madgwick := update (madgwick r) gX gY gZ aX aY aZ mX mY mZ in
      let e := getEulerAngles madgwick in
      let azDeg := azDeg (heading e) declination in
      let altDeg := altDeg (pitch e) in
      let h := sensorHistory r in
      let '(azimuth, filteredAz) := applyMovingAverage azDeg (azimuth h) (windowSize h) in
      let '(altitude, filteredAlt) := applyMovingAverage altDeg (altitude h) (windowSize h) in
      let h := {| azimuth := azimuth; altitude := altitude; windowSize := windowSize h |} in
      if shouldUpdateOrientation (previousAzAlt r) filteredAz filteredAlt then
        ({| sensorHistory := h;
            previousAzAlt := {| az := filteredAz; alt := filteredAlt |};
            madgwick := madgwick;
            last := last r |},
         Some {| az := filteredAz; alt := filteredAlt |})
      else
        ({| sensorHistory := h;
            previousAzAlt := previousAzAlt r;
            madgwick := madgwick;
            last := last r |},
         None)
  | _, _, _ => (r, None)
  end.

(** The local [raDiff] of [calculateDirection], from the two right
    ascensions in hours. *)
Definition calculateDirection_raDiff (targetRa currentRa : num) : num :=
  let targetRaDeg := targetRa * int 15 in
  let currentRaDeg := currentRa * int 15 in
  let raDiff := targetRaDeg - currentRaDeg in
  let raDiff := if raDiff >? int 180 then raDiff - int 360 else raDiff in
  let raDiff := if raDiff <? - int 180 then raDiff + int 360 else raDiff in
  raDiff.

(** [calculateDirection], with the two state variables it reads as
    arguments; [None] is [null]. *)
Definition calculateDirection (selectedCelestial eq : option (Equatorial num))
  : option (DirectionInfo num) :=
  match selectedCelestial, eq with
  | Some selectedCelestial, Some eq =>
      let raDiff := calculateDirection_raDiff (ra selectedCelestial) (ra eq) in
      let decDiff := dec selectedCelestial - dec eq in
      let distance := Math_sqrt (raDiff * raDiff + decDiff * decDiff) in
      let angle := Math_atan2 decDiff raDiff in
      Some {| raDiff := raDiff;
              decDiff := decDiff;
              distance := distance;
              angle := angle;
              angleDeg := ((angle * int 180) / Math_PI + int 360) mod int 360 |}
  | _, _ => None
  end.

(** [last.current] with one property assigned. *)
Definition setLast (r : Refs) (l : Last num) : Refs :=
  {| sensorHistory := sensorHistory r;
     previousAzAlt := previousAzAlt r;
     madgwick := madgwick r;
     last := l |}.

(** The listeners of the three sensors: each stores the reading [d] in
    [last.current] and calls [tryFuse]. *)
Definition accelListener (declination : num) (d : Vec3 num) (r : Refs) : Refs * option (AzAlt num) :=
  tryFuse declination
    (setLast r {| accel := Some d; gyro := gyro (last r); mag := mag (last r) |}).

Definition gyroListener (declination : num) (d : Vec3 num) (r : Refs) : Refs * option (AzAlt num) :=
  tryFuse declination
    (setLast r {| accel := accel (last r); gyro := Some d; mag := mag (last r) |}).

Definition magListener (declination : num) (d : Vec3 num) (r : Refs) : Refs * option (AzAlt num) :=
  tryFuse declination
    (setLast r {| accel := accel (last r); gyro := gyro (last r); mag := Some d |}).

(** [const directionInfo = selectedCelestial ? calculateDirection() : null] *)
Definition directionInfo (selectedCelestial eq : option (Equatorial num))
  : option (DirectionInfo num) :=
  match selectedCelestial with
  | Some _ => calculateDirection selectedCelestial eq
  | None => None
  end.

Context `{LessEq num}.

(** [selectedCelestial && directionInfo && directionInfo.distance > 0.5], as
    the condition the rendering tests. *)
Definition showCompass (selectedCelestial : option (Equatorial num))
  (directionInfo : option (DirectionInfo num)) : bool :=
  match selectedCelestial, directionInfo with
  | Some _, Some info => distance info >? lit 5 10
  | _, _ => false
  end.

(** [selectedCelestial && directionInfo && directionInfo.distance <= 3] *)
Definition targetInCircle (selectedCelestial : option (Equatorial num))
  (directionInfo : option (DirectionInfo num)) : bool :=
  match selectedCelestial, directionInfo with
  | Some _, Some info => distance info <=? int 3
  | _, _ => false
  end.

(** What the compass block of the view renders: the circle, its red border,
    the arrow and the label of the target. *)
Record Compass : Type := {
  compassCircle : bool;
  redBorder : bool;
  directionArrow : bool;
  celestialLabel : bool
}.

Definition renderCompass (selectedCelestial eq : option (Equatorial num)) : Compass :=
  let directionInfo := directionInfo selectedCelestial eq in
  let showCompass := showCompass selectedCelestial directionInfo in
  let targetInCircle := targetInCircle selectedCelestial directionInfo in
  if showCompass then
    {| compassCircle := true;
       redBorder := targetInCircle;
       directionArrow := negb targetInCircle;
       celestialLabel := if targetInCircle then false else true |}
  else
    {| compassCircle := false; redBorder := false;
       directionArrow := false; celestialLabel := false |}.

(** The search modal: the state variables [toggleSearch], [selectCelestial]
    and the search effect write.  [searchModalOpacity] and [searchModalScale]
    hold the [toValue] of the animation started last. *)
Record SearchState : Type := {
  showSearch : bool;
  searchQuery : jsstring;
  searchResults : list (StarData.CelestialObject num);
  selectedCelestial : option (StarData.CelestialObject num);
  searchModalOpacity : num;
  searchModalScale : num
}.

Definition toggleSearch (s : SearchState) : SearchState :=
  {| showSearch := negb (showSearch s);
     searchQuery := if showSearch s then [] else searchQuery s;
     searchResults := if showSearch s then [] else searchResults s;
     selectedCelestial := selectedCelestial s;
     searchModalOpacity := if showSearch s then int 0 else int 1;
     searchModalScale := if showSearch s then lit 8 10 else int 1 |}.

Definition selectCelestial (celestial : StarData.CelestialObject num) (s : SearchState)
  : SearchState :=
  toggleSearch
    {| showSearch := showSearch s;
       searchQuery := searchQuery s;
       searchResults := searchResults s;
       selectedCelestial := Some celestial;
       searchModalOpacity := searchModalOpacity s;
       searchModalScale := searchModalScale s |}.

(** [String.prototype.toLowerCase], [Astronomy.Equator] and the catalogue, as
    [StarData] uses them. *)
Variable toLowerCase : jsstring -> jsstring.
Variable Equator :
  StarData.Body -> StarData.Date -> StarData.Observer num -> bool -> bool ->
  completion (StarData.EquatorialCoordinates num).
Variable starData : list (StarData.Star num).

(** The effect on [searchQuery] and [observer]: the value it passes to
    [setSearchResults], when it runs at the instant [now]. *)
Definition searchEffect (now : StarData.Date) (searchQuery : jsstring)
  (observer : option (StarData.Observer num)) : list (StarData.CelestialObject num) :=
  if match searchQuery with [] => true | _ :: _ => false end
     || (List.length searchQuery <? 2)%nat
     || match observer with None => true | Some _ => false end
  then []
  else StarData.searchCelestial toLowerCase Equator starData now searchQuery observer.

(** [new Astro.Observer(latitude, longitude, height)]; the constructor
    throws on a value that is not a finite number. *)
Variable Astro_Observer : num -> num -> num -> completion (StarData.Observer num).

(** [pos.coords] *)
Record Coords : Type := {
  coords_latitude : num;
  coords_longitude : num;
  (** [null] when the device reports no altitude *)
  coords_altitude : option num
}.

(** What [getHeadingAsync] resolves with; a property is [None] when it is
    missing or not of type number. *)
Record HeadingData : Type := {
  trueHeading : option num;
  magHeading : option num
}.

(** The state [requestLocationPermission] writes. *)
Record LocationState : Type := {
  locPermStatus : option jsstring;
  locPerm : bool;
  observer : option (StarData.Observer num);
  declination : num
}.

(** [requestLocationPermission], given the outcome of its three requests
    ([requestForegroundPermissionsAsync], as the [status] it resolves with,
    [getCurrentPositionAsync] and [getHeadingAsync]): the state after the
    call and the completion of the promise. *)
Definition requestLocationPermission
  (permission : completion jsstring) (position : completion Coords)
  (heading : completion (option HeadingData)) (s : LocationState)
  : LocationState * completion unit :=
  match permission with
  | Throw e => (s, Throw e)
  | Normal status =>
      let s := {| locPermStatus := Some status; locPerm := locPerm s;
                  observer := observer s; declination := declination s |} in
      if jsstring_eqb status (str "granted") then
        let s := {| locPermStatus := locPermStatus s; locPerm := true;
                    observer := observer s; declination := declination s |} in
        match position with
        | Throw _ => (s, Normal tt)
        | Normal coords =>
            let altitude :=
              match coords_altitude coords with
              | Some a => if truthy a then a else int 0
              | None => int 0
              end in
            match Astro_Observer (coords_latitude coords) (coords_longitude coords) altitude with
            | Throw _ => (s, Normal tt)
            | Normal o =>
                let s := {| locPermStatus := locPermStatus s; locPerm := locPerm s;
                            observer := Some o; declination := declination s |} in
                match heading with
                | Throw _ => (s, Normal tt)
                | Normal (Some {| trueHeading := Some t; magHeading := Some m |}) =>
                    ({| locPermStatus := locPermStatus s; locPerm := locPerm s;
                        observer := observer s; declination := t - m |},
                     Normal tt)
                | Normal _ => (s, Normal tt)
                end
            end
        end
      else (s, Normal tt)
  end.

(** The four views the component returns. *)
Inductive Screen : Type :=
| CameraPermissionScreen
| LocationPermissionScreen
| LoadingScreen
| MainScreen.

(** Which of them: [camPerm] is [null] until the permission hook has
    answered, and then holds [granted]. *)
Definition render (camPerm : option bool) (s : LocationState) : Screen :=
  if negb match camPerm with Some granted => granted | None => false end
  then CameraPermissionScreen
  else if match locPermStatus s with
          | Some status => jsstring_eqb status (str "denied")
          | None => false
          end
  then LocationPermissionScreen
  else if negb (locPerm s) || match observer s with None => true | Some _ => false end
  then LoadingScreen
  else MainScreen.

End Definitions.

Arguments SearchState : clear implicits.
Arguments Coords : clear implicits.
Arguments HeadingData : clear implicits.
Arguments LocationState : clear implicits.

(** The state of the references when the component is mounted. *)
Definition initialRefs {num} `{Number num} {AHRS : Type} (filter : AHRS) : Refs AHRS := {|
  sensorHistory := {| azimuth := []; altitude := []; windowSize := 5 |};
  previousAzAlt := {| az := int 0; alt := int 0 |};
  madgwick := filter;
  last := {| accel := None; gyro := None; mag := None |}
|}.

(** The initial values of the state variables. *)
Definition initialSearchState {num} `{Number num} : SearchState num := {|
  showSearch := false;
  searchQuery := [];
  searchResults := [];
  selectedCelestial := None;
  searchModalOpacity := int 0;
  searchModalScale := lit 8 10
|}.

Definition initialLocationState {num} `{Number num} : LocationState num := {|
  locPermStatus := None;
  locPerm := false;
  observer := None;
  declination := int 0
|}.

End App_new.

(** ** App.js *)

Module App.

Section Definitions.
Context {num : Type} `{Number num}.
Local Open Scope js_scope.

Variable AHRS : Type.
Variable update : AHRS -> num -> num -> num -> num -> num -> num -> num -> num -> num -> AHRS.
Variable getEulerAngles : AHRS -> App_new.EulerAngles num.

(** [tryFuse] of this variant publishes every fused pair. *)
Definition tryFuse (declination : num) (madgwick : AHRS) (last : App_new.Last num)
  : AHRS * option (App_new.AzAlt num) :=
  match App_new.accel last, App_new.gyro last, App_new.mag last with
  | Some accel, Some gyro, Some mag =>
      let aX := - App_new.z accel in let aY := App_new.x accel in let aZ := - App_new.y accel in
      let gX := - App_new.z gyro in let gY := App_new.x gyro in let gZ := - App_new.y gyro in
      let mX := - App_new.z mag in let mY := App_new.x mag in let mZ := - App_new.y mag in
      let madgwick := update madgwick gX gY gZ aX aY aZ mX mY mZ in
      let e := getEulerAngles madgwick in
      let azDeg := ((App_new.heading e * int 180) / Math_PI) mod int 360 in
      let azDeg := (azDeg + declination + int 360) mod int 360 in
      let altDeg := (App_new.pitch e * int 180) / Math_PI in
      (madgwick, Some {| App_new.az := azDeg; App_new.alt := altDeg |})
  | _, _, _ => (madgwick, None)
  end.

End Definitions.

End App.

(** ** The variant of App.js with the catalogue search built in
    (src/unnamed/part_001) *)

Module App_part_001.

Section Definitions.
Context {num : Type} `{Number num}.
Local Open Scope js_scope.

Variable toLowerCase : jsstring -> jsstring.

(** The catalogue, [import starData from "./assets/hygdata_v3.json"]. *)
Variable starData : list (StarData.Star num).

(** [s && s.toLowerCase().includes(searchQuery.toLowerCase())]: [null] and
    the empty string are falsy. *)
Definition nameIncludes (s : option jsstring) (searchQuery : jsstring) : bool :=
  match s with
  | Some ((_ :: _) as s) => includes (toLowerCase s) (toLowerCase searchQuery)
  | _ => false
  end.

(** The effect on [searchQuery]: the value it passes to [setSearchResults]. *)
Definition searchEffect (searchQuery : jsstring) : list (StarData.Star num) :=
  if match searchQuery with [] => true | _ :: _ => false end
     || (List.length searchQuery <? 2)%nat
  then []
  else
    firstn 20
      (filter (fun star =>
                 nameIncludes (StarData.star_proper star) searchQuery
                 || nameIncludes (StarData.star_name star) searchQuery)
              starData).

(** The arrows of [calculateDirection]. *)
Record Direction : Type := {
  vertical : jsstring;
  horizontal : jsstring
}.

Definition upwards_arrow : jsstring := [0x2191]%N.
Definition downwards_arrow : jsstring := [0x2193]%N.
Definition rightwards_arrow : jsstring := [0x2192]%N.
Definition leftwards_arrow : jsstring := [0x2190]%N.
Definition bullet : jsstring := [0x2022]%N.

(** The local [direction] of [calculateDirection], from its [raDiff] and
    [decDiff]. *)
Definition direction (raDiff decDiff : num) : Direction :=
  {| vertical :=
       if decDiff >? int 1 then upwards_arrow
       else if decDiff <? - int 1 then downwards_arrow
       else bullet;
     horizontal :=
       if raDiff >? int 1 then rightwards_arrow
       else if raDiff <? - int 1 then leftwards_arrow
       else bullet |}.

(** [calculateDirection().direction], from the right ascensions in hours and
    the declinations in degrees of the selection and of the pointing. *)
Definition calculateDirection_direction (selectedCelestial eq : App_new.Equatorial num)
  : Direction :=
  direction
    (App_new.calculateDirection_raDiff (App_new.ra selectedCelestial) (App_new.ra eq))
    (App_new.dec selectedCelestial - App_new.dec eq).

End Definitions.

End App_part_001.

(** ** Convert.js *)

Module Convert.

Section Definitions.
Context {num : Type}.

(** [parseInt] and [parseFloat] of a cell; the argument is [None] when the
    row has no such column ([undefined]). *)
Variable parseInt : option jsstring -> num.
Variable parseFloat : option jsstring -> num.

(** A row as [csv-parser] delivers it: the cells are strings. *)
Record Row : Type := {
  data_id : option jsstring;
  data_proper : option jsstring;
  data_name : option jsstring;
  data_bayer : option jsstring;
  data_ra : option jsstring;
  data_dec : option jsstring;
  data_mag : option jsstring;
  data_ci : option jsstring;
  data_spect : option jsstring
}.

(** The object pushed on [results]; [None] is [null]. *)
Record Star : Type := {
  id : num;
  proper : option jsstring;
  name : option jsstring;
  ra : num;
  dec : num;
  mag : num;
  ci : option num;
  spect : option jsstring
}.

(** [a || b] on cells: the first that is neither missing nor empty. *)
Definition orElse (a b : option jsstring) : option jsstring :=
  match a with
  | Some (_ :: _) => a
  | _ => b
  end.

(** The [data] handler: what it pushes. *)
Definition star (data : Row) : Star :=
  {| id := parseInt (data_id data);
     proper := orElse (data_proper data) None;
     name := orElse (orElse (data_name data) (data_bayer data)) None;
     ra := parseFloat (data_ra data);
     dec := parseFloat (data_dec data);
     mag := parseFloat (data_mag data);
     ci := match data_ci data with
           | Some (_ :: _) => Some (parseFloat (data_ci data))
           | _ => None
           end;
     spect := orElse (data_spect data) None |}.

(** [results] when the stream ends, for the rows in the order read. *)
Definition results (rows : list Row) : list Star :=
  fold_left (fun results data => results ++ [star data]) rows [].

End Definitions.

End Convert.

(** * Vocabulary and sample inputs of the properties *)

Module StarData_vocabulary.
Import StarData.

(** The exclusion of the star pass in the words of the specification: a name
    of the entry, proper or canonical, equals a name of some body, canonical
    or proper, up to case. *)
Definition isNameOfBody {num} `{Number num} (toLowerCase : jsstring -> jsstring)
  (s : option jsstring) : bool :=
  existsb (fun body : SolarSystemBody num =>
             strictEq (option_map toLowerCase s) (Some (toLowerCase (body_name body)))
             || strictEq (option_map toLowerCase s) (Some (toLowerCase (body_proper body))))
          solarSystemBodies.

Definition matchesBodyName {num} `{Number num} (toLowerCase : jsstring -> jsstring)
  (r : CelestialObject num) : bool :=
  isNameOfBody toLowerCase (proper r) || isNameOfBody toLowerCase (name r).

(** The last line of [searchCelestial]: sort by brightness, keep fifteen. *)
Definition ranked {num} `{Number num} (results : list (CelestialObject num)) : list (CelestialObject num) :=
  firstn 15 (Array_sort compareMag results).




(** An ephemeris for the examples: it rejects an invalid date, as
    astronomy-engine does, and places every body at the same point. *)
Definition sampleEquator {num} `{Number num} (body : Body) (date : Date) (observer : Observer num)
  (ofdate aberration : bool) : completion (EquatorialCoordinates num) :=
  match date with
  | None => Throw (str "Argument must be a Date object, an AstroTime object, or a numeric UTC Julian date.")
  | Some _ => Normal {| equ_ra := int 5; equ_dec := int 20 |}
  end.

Definition seoul {num} `{Number num} : Observer num :=
  {| latitude := lit 375 10; longitude := int 127; height := int 0 |}.

Definition noon : Date := Some 1700000000000%Z.

Definition sirius : Star Q := {|
  star_id := Some 32263%Z;
  star_proper := Some (str "Sirius");
  star_name := Some (str "9Alp CMa");
  star_ra := Some 6.752481;
  star_dec := Some (-16.716116);
  star_mag := Some (-1.44)
|}.

(** A catalogue record whose proper name is the canonical name of a body. *)
Definition marsStar : Star Q := {|
  star_id := Some 7%Z;
  star_proper := Some (str "Mars");
  star_name := None;
  star_ra := Some 1;
  star_dec := Some 2;
  star_mag := Some 3
|}.

(** A catalogue that lists Vega with magnitude 0. *)
Definition vega0 {num} `{Number num} : Star num := {|
  star_id := Some 91262%Z;
  star_proper := Some (str "Vega");
  star_name := Some (str "3Alp Lyr");
  star_ra := Some (lit 1861564 100000);
  star_dec := Some (lit 38783692 1000000);
  star_mag := Some (int 0)
|}.

Definition altair {num} `{Number num} : Star num := {|
  star_id := Some 97649%Z;
  star_proper := Some (str "Altair");
  star_name := Some (str "53Alp Aql");
  star_ra := Some (lit 19846388 1000000);
  star_dec := Some (lit 8868322 1000000);
  star_mag := Some (lit 76 100)
|}.


Definition siriusResult : CelestialObject Q := {|
  id := IdNumber 32263;
  proper := Some (str "Sirius");
  name := Some (str "9Alp CMa");
  mag := Some (-1.44);
  ra := Some 6.752481;
  dec := Some (-16.716116);
  isSolarSystemBody := false
|}.

Definition sunBody : SolarSystemBody Q := {|
  body_id := str "sun";
  body_proper := [0xD0DC; 0xC591]%N;
  body_name := str "Sun";
  body_mag := lit (-267) 10
|}.

(** [Astronomy.Body] constants, in the order of [solarSystemBodies]. *)
Definition tableBodies : list Body :=
  [Sun; Moon; Mercury; Venus; Mars; Jupiter; Saturn; Uranus; Neptune; Pluto].

(** The entry of a body at the coordinates the ephemeris returned. *)
Definition positioned {num} (body : SolarSystemBody num) (equ : EquatorialCoordinates num)
  : CelestialObject num :=
  {| id := IdString (body_id body);
     proper := Some (body_proper body);
     name := Some (body_name body);
     mag := Some (body_mag body);
     ra := Some (equ_ra equ);
     dec := Some (equ_dec equ);
     isSolarSystemBody := true |}.

(** The entry of a catalogue record. *)
Definition starResult {num} (star : Star num) : CelestialObject num :=
  {| id := starResultId star;
     proper := star_proper star;
     name := star_name star;
     mag := star_mag star;
     ra := star_ra star;
     dec := star_dec star;
     isSolarSystemBody := false |}.

(** A catalogue of two stars of the Bayer letter alpha. *)
Definition alpCatalogue : list (Star Q) := [vega0; altair].

End StarData_vocabulary.

Module App_new_vocabulary.
Import App_new.
Local Open Scope js_scope.

(** Successive calls of [applyMovingAverage] on one array: its final content
    and the values returned, in order. *)
Fixpoint movingAverages {num} `{Number num} (inputs history : list num) (windowSize : nat) : list num * list num :=
  match inputs with
  | [] => (history, [])
  | v :: inputs' =>
      let '(history, out) := applyMovingAverage v history windowSize in
      let '(history, outs) := movingAverages inputs' history windowSize in
      (history, out :: outs)
  end.

(** What the filter returns once the window holds five copies of [V]. *)
Definition averageOfFive {num} `{Number num} (V : num) : num :=
  (((((int 0 + V) + V) + V) + V) + V) / int 5.

(** A filter for the examples: its state is the angles it reports. *)
Definition keepAngles (f : EulerAngles Q) (gX gY gZ aX aY aZ mX mY mZ : Q) : EulerAngles Q := f.

Definition facingEast : EulerAngles Q := {| heading := Math_PI / 2; pitch := 0; roll := 0 |}%Q.

Definition reading : Vec3 Q := {| x := 0; y := 0; z := 1 |}.

(** The three channels have delivered a reading. *)
Definition readings : Last Q :=
  {| accel := Some reading; gyro := Some reading; mag := Some reading |}.

Definition mountedRefs : Refs (EulerAngles Q) := {|
  sensorHistory := sensorHistory (initialRefs facingEast);
  previousAzAlt := previousAzAlt (initialRefs facingEast);
  madgwick := facingEast;
  last := readings
|}.

Definition facingWest : EulerAngles Q := {| heading := - (Math_PI / 2); pitch := 0; roll := 0 |}%Q.

Definition westRefs : Refs (EulerAngles Q) := {|
  sensorHistory := sensorHistory (initialRefs facingWest);
  previousAzAlt := previousAzAlt (initialRefs facingWest);
  madgwick := facingWest;
  last := readings
|}.

(** [pos.coords.altitude || 0], the height of the observer. *)
Definition altitudeOr0 {num} `{Number num} (coords : Coords num) : num :=
  match coords_altitude coords with
  | Some a => if truthy a then a else int 0
  | None => int 0
  end.

(** A reading delivered by one of the three sensors. *)
Inductive SensorEvent (num : Type) : Type :=
| AccelerometerReading (d : Vec3 num)
| GyroscopeReading (d : Vec3 num)
| MagnetometerReading (d : Vec3 num).

Arguments AccelerometerReading {num} d.
Arguments GyroscopeReading {num} d.
Arguments MagnetometerReading {num} d.

Section Listeners.
Context {num : Type} `{Number num}.
Variable AHRS : Type.
Variable update : AHRS -> num -> num -> num -> num -> num -> num -> num -> num -> num -> AHRS.
Variable getEulerAngles : AHRS -> EulerAngles num.

(** The listener the event reaches. *)
Definition listener (declination : num) (event : SensorEvent num) (r : Refs AHRS)
  : Refs AHRS * option (AzAlt num) :=
  match event with
  | AccelerometerReading d => accelListener update getEulerAngles declination d r
  | GyroscopeReading d => gyroListener update getEulerAngles declination d r
  | MagnetometerReading d => magListener update getEulerAngles declination d r
  end.

(** A sequence of readings: the references after it, and the arguments of
    the calls of [setAzAlt], in order. *)
Fixpoint listeners (declination : num) (events : list (SensorEvent num)) (r : Refs AHRS)
  : Refs AHRS * list (AzAlt num) :=
  match events with
  | [] => (r, [])
  | event :: events' =>
      let '(r, published) := listener declination event r in
      let '(r, rest) := listeners declination events' r in
      (r, match published with Some p => p :: rest | None => rest end)
  end.

End Listeners.

(** [last.current] after the readings. *)
Definition deliver {num} (event : SensorEvent num) (l : Last num) : Last num :=
  match event with
  | AccelerometerReading d => {| accel := Some d; gyro := gyro l; mag := mag l |}
  | GyroscopeReading d => {| accel := accel l; gyro := Some d; mag := mag l |}
  | MagnetometerReading d => {| accel := accel l; gyro := gyro l; mag := Some d |}
  end.

(** All three sensors have delivered a reading. *)
Definition complete {num} (l : Last num) : bool :=
  match accel l, gyro l, mag l with
  | Some _, Some _, Some _ => true
  | _, _, _ => false
  end.

(** Each element passes the hysteresis gate against the one before it. *)
Fixpoint gated {num} `{Number num} (previous : AzAlt num) (published : list (AzAlt num)) : Prop :=
  match published with
  | [] => True
  | p :: rest => shouldUpdateOrientation previous (az p) (alt p) = true /\ gated p rest
  end.

(** What the user does with the search modal, at an instant: presses a
    control that calls [toggleSearch] (the search button, the backdrop, the
    close icon), edits the text input, or presses a row of the result list. *)
Inductive SearchEvent : Type :=
| PressToggle
| ChangeText (text : jsstring)
| PressResult (index : nat).

Section SearchModal.
Context {num : Type} `{Number num}.
Variable toLowerCase : jsstring -> jsstring.
Variable Equator :
  StarData.Body -> StarData.Date -> StarData.Observer num -> bool -> bool ->
  completion (StarData.EquatorialCoordinates num).
Variable starData : list (StarData.Star num).
Variable observer : option (StarData.Observer num).

(** The handler of the event.  The text input and the result list are
    rendered only while [showSearch] holds. *)
Definition handler (event : SearchEvent) (s : SearchState num) : SearchState num :=
  match event with
  | PressToggle => toggleSearch s
  | ChangeText text =>
      if showSearch s then
        {| showSearch := showSearch s;
           searchQuery := text;
           searchResults := searchResults s;
           selectedCelestial := selectedCelestial s;
           searchModalOpacity := searchModalOpacity s;
           searchModalScale := searchModalScale s |}
      else s
  | PressResult index =>
      if showSearch s then
        match nth_error (searchResults s) index with
        | Some item => selectCelestial item s
        | None => s
        end
      else s
  end.

(** The handler, then the search effect when [searchQuery] has changed. *)
Definition handle (event : SearchEvent) (now : StarData.Date) (s : SearchState num)
  : SearchState num :=
  let s' := handler event s in
  if jsstring_eqb (searchQuery s') (searchQuery s) then s'
  else
    {| showSearch := showSearch s';
       searchQuery := searchQuery s';
       searchResults := searchEffect toLowerCase Equator starData now (searchQuery s') observer;
       selectedCelestial := selectedCelestial s';
       searchModalOpacity := searchModalOpacity s';
       searchModalScale := searchModalScale s' |}.

Definition handleAll (events : list (SearchEvent * StarData.Date)) (s : SearchState num)
  : SearchState num :=
  fold_left (fun s e => handle (fst e) (snd e) s) events s.

End SearchModal.

End App_new_vocabulary.

Module Convert_vocabulary.


End Convert_vocabulary.

Module Binary64.
Local Open Scope Z_scope.

(** The record after shifting [m0] right by [k] bits. *)
Definition shifted (m0 k : Z) (mrs : shr_record) : Prop :=
  0 <= shr_m mrs
  /\ shr_m mrs * 2 ^ k <= m0 < (shr_m mrs + 1) * 2 ^ k
  /\ (shr_r mrs = false /\ shr_s mrs = false <-> m0 = shr_m mrs * 2 ^ k).

(** The scale of the integer values below: every exponent that occurs, also
    the sum of two, is above [-B]. *)
Definition B : Z := 2200.

(** The magnitude [m * 2^e], scaled by [2^B]. *)
Definition scaled (m : positive) (e : Z) : Z := Zpos m * 2 ^ (e + B).

Arguments scaled : simpl never.

(** The value of a finite float, scaled by [2^B]. *)
Definition sval (x : spec_float) : option Z :=
  match x with
  | S754_zero _ => Some 0
  | S754_finite s m e => Some (cond_Zopp s (scaled m e))
  | _ => None
  end.

Definition wf (x : spec_float) : Prop :=
  match x with
  | S754_finite _ _ e => -1074 <= e
  | _ => True
  end.

Definition fval (a : float) : option Z := sval (Prim2SF a).

End Binary64.

(** * Properties *)

(** ** Numbers, strings and arrays *)

Lemma Qltb_lt (x y : Q) : Qltb x y = true <-> (x < y)%Q.
Proof.
  unfold Qltb. rewrite negb_true_iff.
  destruct (Qle_bool y x) eqn:E.
  - apply Qle_bool_iff in E. split; [discriminate | intros L; exfalso; lra].
  - split; [intros _ | reflexivity].
    apply Qnot_le_lt. intros L. apply Qle_bool_iff in L. congruence.
Qed.

Lemma Qltb_ge (x y : Q) : Qltb x y = false <-> (y <= x)%Q.
Proof.
  split; intros Hf.
  - apply Qnot_lt_le. intros L. apply Qltb_lt in L. congruence.
  - destruct (Qltb x y) eqn:E; [|reflexivity]. apply Qltb_lt in E. lra.
Qed.

(** The truncated remainder keeps the sign of the dividend and is smaller in
    magnitude than the divisor. *)
Lemma Qtrunc_nonneg (q : Q) : (0 <= q)%Q -> Qtrunc q = Qfloor q.
Proof.
  destruct q as [n d]. unfold Qle, Qtrunc, Qfloor. simpl. intros Hn.
  apply Z.quot_div_nonneg; lia.
Qed.

Lemma Qtrunc_opp (q : Q) : Qtrunc (- q) = (- Qtrunc q)%Z.
Proof.
  destruct q as [n d]. unfold Qtrunc. simpl. apply Z.quot_opp_l. discriminate.
Qed.

Lemma Qrem_nonneg (x y : Q) : (0 <= x)%Q -> (0 < y)%Q -> (0 <= Qrem x y < y)%Q.
Proof.
  intros Hx Hy. unfold Qrem.
  assert (Hq : (0 <= x / y)%Q).
  { apply Qle_shift_div_l; [exact Hy | lra]. }
  rewrite (@Qtrunc_nonneg _ Hq).
  assert (H1 := Qfloor_le (x / y)).
  assert (H2 := Qlt_floor (x / y)).
  rewrite inject_Z_plus in H2. change (inject_Z 1) with 1%Q in H2.
  assert (H3 : (y * (x / y) == x)%Q) by (apply Qmult_div_r; lra).
  set (F := inject_Z (Qfloor (x / y))) in *.
  set (q := (x / y)%Q) in *.
  assert (P1 : (0 <= y * (q - F))%Q) by (apply Qmult_le_0_compat; lra).
  assert (P2 : (0 < y * (F + 1 - q))%Q) by (apply Qmult_lt_0_compat; lra).
  assert (E1 : (y * (q - F) == x - y * F)%Q) by (rewrite <- H3; ring).
  assert (E2 : (y * (F + 1 - q) == y - (x - y * F))%Q) by (rewrite <- H3; ring).
  rewrite E1 in P1. rewrite E2 in P2.
  split; lra.
Qed.

Lemma Qrem_opp (x y : Q) : (Qrem (- x) y == - Qrem x y)%Q.
Proof.
  unfold Qrem.
  assert (E : Qtrunc (- x / y) = (- Qtrunc (x / y))%Z).
  { rewrite <- Qtrunc_opp. unfold Qtrunc, Qdiv, Qmult, Qopp. simpl.
    now rewrite Z.mul_opp_l. }
  rewrite E, inject_Z_opp. ring.
Qed.

Lemma Qopp_opp_eq (x : Q) : (- - x)%Q = x.
Proof. destruct x as [n d]. unfold Qopp. simpl. now rewrite Z.opp_involutive. Qed.

Lemma Qrem_nonpos (x y : Q) : (x <= 0)%Q -> (0 < y)%Q -> (- y < Qrem x y <= 0)%Q.
Proof.
  intros Hx Hy.
  assert (H := @Qrem_nonneg (- x) y ltac:(lra) Hy).
  assert (E := Qrem_opp (- x) y). rewrite Qopp_opp_eq in E.
  lra.
Qed.

Lemma Qrem_small (x y : Q) : (0 <= x < y)%Q -> (Qrem x y == x)%Q.
Proof.
  intros [Hx Hy]. unfold Qrem.
  assert (Hq : (0 <= x / y)%Q) by (apply Qle_shift_div_l; lra).
  assert (Hq1 : (x / y < 1)%Q) by (apply Qlt_shift_div_r; lra).
  rewrite (@Qtrunc_nonneg _ Hq).
  assert (H1 := Qfloor_le (x / y)).
  assert (H2 := Qlt_floor (x / y)).
  assert (F0 : Qfloor (x / y) = 0%Z).
  { assert (A : (inject_Z (Qfloor (x / y)) < inject_Z 1)%Q) by (change (inject_Z 1) with 1%Q; lra).
    assert (B : (inject_Z (-1) < inject_Z (Qfloor (x / y)))%Q).
    { rewrite inject_Z_plus in H2. change (inject_Z 1) with 1%Q in H2.
      change (inject_Z (-1)) with (-1)%Q. lra. }
    rewrite <- Zlt_Qlt in A, B. lia. }
  rewrite F0. simpl. ring.
Qed.

Lemma jsstring_eqb_eq (s t : jsstring) : jsstring_eqb s t = true <-> s = t.
Proof.
  revert t; induction s as [|c s IH]; intros [|d t]; simpl; split; try congruence.
  - intros E. apply andb_true_iff in E as [Ec Es].
    apply N.eqb_eq in Ec. apply IH in Es. congruence.
  - intros E. injection E as -> ->. apply andb_true_iff. split.
    + apply N.eqb_refl.
    + now apply IH.
Qed.

Lemma jsstring_eqb_refl (s : jsstring) : jsstring_eqb s s = true.
Proof. now apply jsstring_eqb_eq. Qed.

Section ArrayFacts.
Context {num : Type} `{Number num} {A : Type}.
Variable compareFn : A -> A -> num.

Lemma In_Array_insert (x a : A) (l : list A) :
  In a (Array_insert compareFn x l) <-> a = x \/ In a l.
Proof.
  induction l as [|y l IH]; simpl.
  - intuition congruence.
  - destruct (lt _ _); simpl; rewrite ?IH; intuition congruence.
Qed.

Lemma In_Array_sort (a : A) (l : list A) : In a (Array_sort compareFn l) <-> In a l.
Proof.
  induction l as [|x l IH]; simpl.
  - reflexivity.
  - rewrite In_Array_insert, IH. intuition congruence.
Qed.

Lemma length_Array_insert (x : A) (l : list A) :
  List.length (Array_insert compareFn x l) = S (List.length l).
Proof.
  induction l as [|y l IH]; simpl; [reflexivity|].
  destruct (lt _ _); simpl; congruence.
Qed.

Lemma length_Array_sort (l : list A) : List.length (Array_sort compareFn l) = List.length l.
Proof.
  induction l as [|x l IH]; simpl; [reflexivity|].
  now rewrite length_Array_insert, IH.
Qed.

End ArrayFacts.

Lemma In_firstn {A} (n : nat) (l : list A) (a : A) : In a (firstn n l) -> In a l.
Proof.
  revert l; induction n as [|n IH]; intros [|x l]; simpl; try tauto.
  intros [E|I]; [now left | right; now apply IH].
Qed.

Lemma In_dropNull {A} (l : list (option A)) (a : A) : In a (dropNull l) <-> In (Some a) l.
Proof.
  induction l as [|[b|] l IH]; simpl; rewrite ?IH; intuition congruence.
Qed.

Lemma Array_map_In {A B} (f : A -> completion B) (l : list A) (bs : list B) (b : B) :
  Array_map f l = Normal bs -> In b bs -> exists a, In a l /\ f a = Normal b.
Proof.
  revert bs; induction l as [|a l IH]; simpl; intros bs E I.
  - injection E as <-. destruct I.
  - destruct (f a) as [b0|] eqn:Ea; simpl in E; [|discriminate].
    destruct (Array_map f l) as [bs0|]; simpl in E; [|discriminate].
    injection E as <-. destruct I as [<-|I].
    + exists a. auto.
    + destruct (IH bs0 eq_refl I) as (a' & Ia & Ea'). exists a'. auto.
Qed.

(** ** Binary64 arithmetic

    The operations of primitive floats are specified by [SpecFloat] through
    the lemmas of [FloatAxioms].  A finite float [x] has the integer value
    [fval x], its value times [2^B].  Rounding keeps the sign of the exact
    result and never lifts a magnitude above an integer bound below [2^53]. *)

Module Binary64_properties.
Import Binary64.
Local Open Scope Z_scope.
Unset Implicit Arguments.

Lemma SFabs_binary_round_aux (s1 s2 : bool) (m e : Z) (l : location) :
  SFabs (binary_round_aux prec emax s1 m e l) = SFabs (binary_round_aux prec emax s2 m e l).
Proof.
  unfold binary_round_aux.
  destruct (shr_fexp prec emax m e l) as [mrs' e'].
  destruct (shr_fexp prec emax _ e' loc_Exact) as [mrs'' e''].
  destruct (shr_m mrs''); try reflexivity.
  now destruct (Z.leb e'' (emax - prec)).
Qed.

Lemma SFabs_binary_normalize_opp (m e : Z) :
  SFabs (binary_normalize prec emax (- m) e false) = SFabs (binary_normalize prec emax m e false).
Proof.
  destruct m as [|p|p]; simpl; try reflexivity; unfold binary_round;
    destruct (shl_align _ _ _) as [mz ez]; apply SFabs_binary_round_aux.
Qed.

Lemma SFabs_SFsub_sym (x y : spec_float) :
  SFabs (SFsub prec emax x y) = SFabs (SFsub prec emax y x).
Proof.
  destruct x as [sx|sx| |sx mx ex], y as [sy|sy| |sy my ey];
    try reflexivity; try (destruct sx, sy; reflexivity).
  unfold SFsub. rewrite (Z.min_comm ey ex).
  rewrite <- SFabs_binary_normalize_opp. f_equal. f_equal. lia.
Qed.

Lemma float_abs_sub_sym (a b : float) : abs (a - b) = abs (b - a).
Proof.
  apply Prim2SF_inj. rewrite !abs_spec, !sub_spec. apply SFabs_SFsub_sym.
Qed.

Lemma digits2_pos_bounds (m : positive) :
  2 ^ (Zpos (digits2_pos m) - 1) <= Zpos m < 2 ^ Zpos (digits2_pos m).
Proof.
  induction m as [p IH|p IH|]; simpl digits2_pos.
  - rewrite Pos2Z.inj_succ.
    replace (Z.succ (Zpos (digits2_pos p)) - 1) with (Z.succ (Zpos (digits2_pos p) - 1)) by lia.
    rewrite !Z.pow_succ_r by lia. lia.
  - rewrite Pos2Z.inj_succ.
    replace (Z.succ (Zpos (digits2_pos p)) - 1) with (Z.succ (Zpos (digits2_pos p) - 1)) by lia.
    rewrite !Z.pow_succ_r by lia. lia.
  - simpl. lia.
Qed.

Lemma iter_pos_swap {A} (f : A -> A) (p : positive) (x : A) :
  iter_pos f p (f x) = f (iter_pos f p x).
Proof.
  revert x; induction p as [p IH|p IH|]; intros x; simpl; [|now rewrite !IH | reflexivity].
  now rewrite !IH.
Qed.

Lemma iter_pos_succ {A} (f : A -> A) (p : positive) (x : A) :
  iter_pos f (Pos.succ p) x = f (iter_pos f p x).
Proof.
  revert x; induction p as [p IH|p IH|]; intros x; simpl.
  - now rewrite !IH, !iter_pos_swap.
  - now rewrite !iter_pos_swap.
  - reflexivity.
Qed.

Lemma shifted_shr_1 (m0 k : Z) (mrs : shr_record) :
  0 <= k -> shifted m0 k mrs -> shifted m0 (k + 1) (shr_1 mrs).
Proof.
  intros Hk (Hm & Hb & He). destruct mrs as [m r s]. cbn [shr_m shr_r shr_s] in *.
  assert (P : 0 < 2 ^ k) by (apply Z.pow_pos_nonneg; lia).
  unfold shifted. rewrite Z.pow_add_r, Z.pow_1_r by lia.
  set (Q := 2 ^ k) in *.
  destruct m as [|[p|p|]|p]; cbn [shr_1 shr_m shr_r shr_s]; try lia;
    (split; [lia|]); (split; [nia|]);
    (split;
     [ intros [Hr Hs]; try discriminate Hr;
       apply orb_false_iff in Hs as [-> ->];
       assert (Hx := proj1 He (conj eq_refl eq_refl)); nia
     | intros Hx;
       first [ assert (Hrs : r = false /\ s = false) by (apply He; nia);
               destruct Hrs as [-> ->]; auto
             | exfalso; nia ] ]).
Qed.

Lemma shifted_iter (m0 : Z) (p : positive) :
  0 <= m0 ->
  shifted m0 (Zpos p) (iter_pos shr_1 p {| shr_m := m0; shr_r := false; shr_s := false |}).
Proof.
  intros H0. induction p as [|p IH] using Pos.peano_ind.
  - change (Zpos 1) with (0 + 1). apply shifted_shr_1; [lia|].
    unfold shifted. simpl. lia.
  - rewrite iter_pos_succ, Pos2Z.inj_succ. apply shifted_shr_1; [lia | exact IH].
Qed.

Lemma shr_fexp_exact (m e : Z) :
  0 <= m ->
  exists mrs n,
    shr_fexp prec emax m e loc_Exact = (mrs, e + n)
    /\ 0 <= n /\ shifted m n mrs
    /\ (n = 0 \/ e + n = fexp prec emax (Zdigits2 m + e)).
Proof.
  intros Hm. unfold shr_fexp, shr. cbn [shr_record_of_loc].
  destruct (fexp prec emax (Zdigits2 m + e) - e) as [|p|p] eqn:En.
  - exists {| shr_m := m; shr_r := false; shr_s := false |}, 0.
    rewrite Z.add_0_r. unfold shifted. cbn [shr_m shr_r shr_s]. rewrite Z.pow_0_r.
    intuition lia.
  - exists (iter_pos shr_1 p {| shr_m := m; shr_r := false; shr_s := false |}), (Zpos p).
    split; [reflexivity|]. split; [lia|]. split; [now apply shifted_iter | right; lia].
  - exists {| shr_m := m; shr_r := false; shr_s := false |}, 0.
    rewrite Z.add_0_r. unfold shifted. cbn [shr_m shr_r shr_s]. rewrite Z.pow_0_r.
    intuition lia.
Qed.

Lemma round_nearest_even_cases (m n : Z) (mrs : shr_record) :
  shifted m n mrs ->
  let m1 := round_nearest_even (shr_m mrs) (loc_of_shr_record mrs) in
  m1 = shr_m mrs \/ (m1 = shr_m mrs + 1 /\ shr_m mrs * 2 ^ n < m).
Proof.
  intros (Hq & Hb & He). destruct mrs as [q r s]. cbn [shr_m shr_r shr_s] in *.
  destruct r, s; simpl; auto.
  - right. split; [reflexivity|].
    assert (q * 2 ^ n <> m) by (intros E; symmetry in E; apply He in E; destruct E; discriminate).
    lia.
  - destruct (Z.even q); auto. right. split; [reflexivity|].
    assert (q * 2 ^ n <> m) by (intros E; symmetry in E; apply He in E; destruct E; discriminate).
    lia.
Qed.

Lemma pow2_pos (k : Z) : 0 <= k -> 0 < 2 ^ k.
Proof. intros. apply Z.pow_pos_nonneg; lia. Qed.

Lemma pow2_split (a b : Z) : 0 <= a -> 0 <= b -> 2 ^ (a + b) = 2 ^ a * 2 ^ b.
Proof. intros. apply Z.pow_add_r; lia. Qed.

(** A positive value below [2^53] has canonical exponent at most 0. *)
Lemma small_exponent (m e N : Z) :
  0 < m -> - B <= e -> 0 < N < 2 ^ 53 ->
  m * 2 ^ (e + B) <= N * 2 ^ B ->
  forall d, 2 ^ (d - 1) <= m -> 0 < d -> d + e <= 53.
Proof.
  intros Hm He HN Hv d Hd Hd0.
  assert (P1 : 0 < 2 ^ (e + B)) by (apply pow2_pos; lia).
  assert (P2 : 0 < 2 ^ B) by (apply pow2_pos; unfold B; lia).
  assert (L : 2 ^ (d - 1 + (e + B)) < 2 ^ (53 + B)).
  { rewrite (pow2_split (d - 1) (e + B)), (pow2_split 53 B) by (unfold B in *; lia).
    assert (2 ^ (d - 1) * 2 ^ (e + B) <= m * 2 ^ (e + B))
      by (apply Z.mul_le_mono_nonneg_r; lia).
    assert (N * 2 ^ B < 2 ^ 53 * 2 ^ B) by (apply Z.mul_lt_mono_pos_r; lia).
    lia. }
  apply Z.pow_lt_mono_r_iff in L; unfold B in *; lia.
Qed.

Lemma shift_value_le (q m n e : Z) :
  0 <= n -> - B <= e -> q * 2 ^ n <= m ->
  q * 2 ^ (e + n + B) <= m * 2 ^ (e + B).
Proof.
  intros Hn He Hq.
  replace (e + n + B) with (n + (e + B)) by lia.
  rewrite pow2_split by lia.
  assert (P : 0 < 2 ^ (e + B)) by (apply pow2_pos; lia).
  rewrite Z.mul_assoc. apply Z.mul_le_mono_nonneg_r; lia.
Qed.

Lemma round_up_bound (q m N n e : Z) :
  0 <= n -> - B <= e -> e + n <= 0 ->
  q * 2 ^ n < m -> m * 2 ^ (e + B) <= N * 2 ^ B ->
  (q + 1) * 2 ^ (e + n + B) <= N * 2 ^ B.
Proof.
  intros Hn He He1 Hq Hv.
  assert (E1 : 2 ^ (e + n + B) = 2 ^ n * 2 ^ (e + B)).
  { replace (e + n + B) with (n + (e + B)) by lia. apply pow2_split; lia. }
  assert (E2 : 2 ^ B = 2 ^ (- (e + n)) * 2 ^ (e + n + B)).
  { rewrite <- pow2_split by lia. f_equal. lia. }
  assert (P : 0 < 2 ^ (e + B)) by (apply pow2_pos; lia).
  assert (Q : 0 < 2 ^ n) by (apply pow2_pos; lia).
  assert (R : 0 < 2 ^ (- (e + n))) by (apply pow2_pos; lia).
  set (T := 2 ^ (e + n + B)) in *.
  assert (HT : 0 < T) by (rewrite E1; apply Z.mul_pos_pos; lia).
  assert (L1 : q * T < m * 2 ^ (e + B)).
  { rewrite E1, Z.mul_assoc. apply Z.mul_lt_mono_pos_r; lia. }
  rewrite E2 in Hv |- *. rewrite Z.mul_assoc in Hv |- *.
  assert (L2 : q * T < N * 2 ^ (- (e + n)) * T) by lia.
  apply Z.mul_lt_mono_pos_r in L2; [|exact HT].
  apply Z.mul_le_mono_nonneg_r; lia.
Qed.

Lemma binary_round_aux_bound (s : bool) (p : positive) (e N : Z) :
  - B <= e -> 0 < N < 2 ^ 53 ->
  Zpos p * 2 ^ (e + B) <= N * 2 ^ B ->
  binary_round_aux prec emax s (Zpos p) e loc_Exact = S754_zero s
  \/ exists m' e',
       binary_round_aux prec emax s (Zpos p) e loc_Exact = S754_finite s m' e'
       /\ - B <= e' /\ Zpos m' * 2 ^ (e' + B) <= N * 2 ^ B.
Proof.
  intros He HN Hv.
  assert (Hd := digits2_pos_bounds p).
  assert (Hde : Zpos (digits2_pos p) + e <= 53).
  { apply (@small_exponent (Zpos p) e N); try lia. }
  unfold binary_round_aux.
  destruct (@shr_fexp_exact (Zpos p) e ltac:(lia)) as (mrs & n & E1 & Hn & Hsh & Hcase).
  rewrite E1.
  assert (Hm1 : let m1 := round_nearest_even (shr_m mrs) (loc_of_shr_record mrs) in
                0 <= m1 /\ m1 * 2 ^ (e + n + B) <= N * 2 ^ B).
  { destruct (@round_nearest_even_cases _ _ _ Hsh) as [-> | [-> Hlt]];
      destruct Hsh as (Hq & Hb & _); cbv zeta.
    - split; [lia|].
      apply Z.le_trans with (Zpos p * 2 ^ (e + B)); [apply shift_value_le; lia | exact Hv].
    - split; [lia|].
      assert (He1 : e + n <= 0).
      { destruct Hcase as [-> | ->].
        - rewrite Z.pow_0_r in *. lia.
        - unfold fexp, emin, prec, emax. cbn [Zdigits2]. lia. }
      now apply (@round_up_bound (shr_m mrs) (Zpos p) N n e). }
  cbv zeta in Hm1. destruct Hm1 as [Hm1 Hv1].
  set (m1 := round_nearest_even (shr_m mrs) (loc_of_shr_record mrs)) in *.
  destruct (@shr_fexp_exact m1 (e + n) Hm1) as (mrs2 & n2 & E2 & Hn2 & Hsh2 & _).
  rewrite E2.
  destruct Hsh2 as (Hq2 & Hb2 & _).
  assert (Hv2 : shr_m mrs2 * 2 ^ (e + n + n2 + B) <= N * 2 ^ B).
  { apply Z.le_trans with (m1 * 2 ^ (e + n + B)); [|exact Hv1].
    replace (e + n + n2 + B) with ((e + n) + n2 + B) by lia.
    apply shift_value_le; lia. }
  destruct (shr_m mrs2) as [|m'|m'] eqn:Em; [now left | | lia].
  right. exists m', (e + n + n2).
  assert (He2 : e + n + n2 < 53).
  { assert (L : 2 ^ (e + n + n2 + B) < 2 ^ (53 + B)).
    { rewrite (pow2_split 53 B) by (unfold B; lia).
      assert (P1 : 0 < 2 ^ (e + n + n2 + B)) by (apply pow2_pos; lia).
      assert (1 * 2 ^ (e + n + n2 + B) <= Zpos m' * 2 ^ (e + n + n2 + B))
        by (apply Z.mul_le_mono_nonneg_r; lia).
      assert (N * 2 ^ B < 2 ^ 53 * 2 ^ B)
        by (apply Z.mul_lt_mono_pos_r; [apply pow2_pos; unfold B|]; lia).
      lia. }
    apply Z.pow_lt_mono_r_iff in L; unfold B in *; lia. }
  assert (Hle : Z.leb (e + n + n2) (emax - prec) = true)
    by (apply Z.leb_le; unfold emax, prec; lia).
  rewrite Hle. repeat split; try lia.
Qed.

Lemma Pos_iter_xO (m d : positive) : Zpos (Pos.iter xO m d) = Zpos m * 2 ^ Zpos d.
Proof.
  induction d as [|d IH] using Pos.peano_ind.
  - simpl. lia.
  - rewrite Pos.iter_succ, Pos2Z.inj_succ, Z.pow_succ_r by lia.
    rewrite Pos2Z.inj_xO, IH. lia.
Qed.

(** Aligning a significand to a smaller exponent keeps the value. *)
Lemma shl_align_value (mx : positive) (ex ex' : Z) :
  - B <= ex -> - B <= ex' ->
  - B <= snd (shl_align mx ex ex') <= ex
  /\ Zpos (fst (shl_align mx ex ex')) * 2 ^ (snd (shl_align mx ex ex') + B)
     = Zpos mx * 2 ^ (ex + B).
Proof.
  intros He He'. unfold shl_align.
  destruct (ex' - ex) as [|d|d] eqn:Ed; cbn [fst snd]; try (split; [lia | reflexivity]).
  split; [lia|].
  rewrite Pos_iter_xO.
  replace (ex + B) with (Zpos d + (ex' + B)) by lia.
  rewrite (pow2_split (Zpos d) (ex' + B)) by lia. lia.
Qed.

Lemma shl_align_min (mx : positive) (ex ez : Z) :
  ez <= ex -> snd (shl_align mx ex ez) = ez.
Proof.
  intros H. unfold shl_align.
  destruct (ez - ex) as [|d|d] eqn:Ed; cbn [snd]; lia.
Qed.

Lemma binary_round_bound (s : bool) (mx : positive) (ex N : Z) :
  - B <= ex -> 0 < N < 2 ^ 53 ->
  Zpos mx * 2 ^ (ex + B) <= N * 2 ^ B ->
  binary_round prec emax s mx ex = S754_zero s
  \/ exists m' e',
       binary_round prec emax s mx ex = S754_finite s m' e'
       /\ - B <= e' /\ Zpos m' * 2 ^ (e' + B) <= N * 2 ^ B.
Proof.
  intros He HN Hv. unfold binary_round.
  assert (Hf : - B <= fexp prec emax (Zpos (digits2_pos mx) + ex))
    by (unfold fexp, emin, emax, prec, B; lia).
  destruct (@shl_align_value mx ex _ He Hf) as [Hs Hval].
  destruct (shl_align mx ex _) as [mz ez]. cbn [fst snd] in *.
  apply binary_round_aux_bound; [lia | exact HN | now rewrite Hval].
Qed.

(** The result of [binary_normalize] has the sign of the exact value and a
    magnitude within the bound. *)
Lemma binary_normalize_bound (m e N : Z) :
  - B <= e -> 0 < N < 2 ^ 53 ->
  Z.abs m * 2 ^ (e + B) <= N * 2 ^ B ->
  (exists s, binary_normalize prec emax m e false = S754_zero s)
  \/ exists m' e',
       binary_normalize prec emax m e false = S754_finite (m <? 0) m' e'
       /\ m <> 0 /\ - B <= e' /\ Zpos m' * 2 ^ (e' + B) <= N * 2 ^ B.
Proof.
  intros He HN Hv. destruct m as [|p|p]; cbn [binary_normalize].
  - left. now exists false.
  - destruct (@binary_round_bound false p e N He HN Hv) as [E | (m' & e' & E & H)].
    + left. now exists false.
    + right. exists m', e'. rewrite E. repeat split; try tauto; lia.
  - destruct (@binary_round_bound true p e N He HN Hv) as [E | (m' & e' & E & H)].
    + left. now exists true.
    + right. exists m', e'. rewrite E. repeat split; try tauto; lia.
Qed.

Lemma scaled_pos (m : positive) (e : Z) : - B <= e -> 0 < scaled m e.
Proof. intros. unfold scaled. apply Z.mul_pos_pos; [lia | apply pow2_pos; lia]. Qed.

Lemma normalize_sval (M e N v : Z) :
  - B <= e -> 0 < N < 2 ^ 53 ->
  v = M * 2 ^ (e + B) -> Z.abs v <= N * 2 ^ B ->
  exists vr, sval (binary_normalize prec emax M e false) = Some vr
             /\ Z.abs vr <= N * 2 ^ B /\ (0 <= v -> 0 <= vr) /\ (v <= 0 -> vr <= 0).
Proof.
  intros He HN Ev Hv.
  assert (P : 0 < 2 ^ (e + B)) by (apply pow2_pos; lia).
  assert (HM : Z.abs M * 2 ^ (e + B) <= N * 2 ^ B).
  { subst v. rewrite Z.abs_mul in Hv. rewrite (Z.abs_eq (2 ^ _)) in Hv; lia. }
  destruct (@binary_normalize_bound M e N He HN HM)
    as [[s E] | (m' & e' & E & HM0 & He' & Hb)]; rewrite E; cbn [sval].
  - assert (0 < N * 2 ^ B)
      by (apply Z.mul_pos_pos; [lia | apply pow2_pos; unfold B; lia]).
    exists 0. repeat split; lia.
  - assert (P' := @scaled_pos m' e' He'). unfold scaled in P'.
    change (scaled m' e') with (Zpos m' * 2 ^ (e' + B)).
    eexists. split; [reflexivity|].
    destruct (M <? 0) eqn:EM; cbn [cond_Zopp].
    + apply Z.ltb_lt in EM. repeat split; try lia; intros Hv0; subst v; nia.
    + apply Z.ltb_ge in EM. repeat split; try lia; intros Hv0; subst v; nia.
Qed.

Lemma SFsub_bound (x y : spec_float) (vx vy N : Z) :
  wf x -> wf y -> sval x = Some vx -> sval y = Some vy ->
  0 < N < 2 ^ 53 -> Z.abs (vx - vy) <= N * 2 ^ B ->
  exists vr, sval (SFsub prec emax x y) = Some vr
             /\ Z.abs vr <= N * 2 ^ B
             /\ (0 <= vx - vy -> 0 <= vr) /\ (vx - vy <= 0 -> vr <= 0).
Proof.
  intros Wx Wy Ex Ey HN Hv.
  destruct x as [sx|sx| |sx mx ex], y as [sy|sy| |sy my ey]; try discriminate;
    cbn [sval wf] in *; injection Ex as <-; injection Ey as <-.
  - exists 0. split; [now destruct sx, sy|]. lia.
  - cbn [SFsub sval]. eexists. split; [reflexivity|].
    destruct sy; cbn [cond_Zopp negb] in *; lia.
  - cbn [SFsub sval]. eexists. split; [reflexivity|]. rewrite Z.sub_0_r in *. lia.
  - cbn [SFsub].
    assert (Hx := @shl_align_value mx ex (Z.min ex ey) ltac:(unfold B; lia) ltac:(unfold B; lia)).
    assert (Hy := @shl_align_value my ey (Z.min ex ey) ltac:(unfold B; lia) ltac:(unfold B; lia)).
    rewrite shl_align_min in Hx, Hy by lia.
    destruct Hx as [_ Hx], Hy as [_ Hy].
    apply normalize_sval; [unfold B; lia | exact HN | | exact Hv].
    rewrite Z.mul_sub_distr_r. unfold scaled.
    destruct sx, sy; cbn [cond_Zopp]; lia.
Qed.

Lemma SFadd_bound (x y : spec_float) (vx vy N : Z) :
  wf x -> wf y -> sval x = Some vx -> sval y = Some vy ->
  0 < N < 2 ^ 53 -> Z.abs (vx + vy) <= N * 2 ^ B ->
  exists vr, sval (SFadd prec emax x y) = Some vr
             /\ Z.abs vr <= N * 2 ^ B
             /\ (0 <= vx + vy -> 0 <= vr) /\ (vx + vy <= 0 -> vr <= 0).
Proof.
  intros Wx Wy Ex Ey HN Hv.
  destruct x as [sx|sx| |sx mx ex], y as [sy|sy| |sy my ey]; try discriminate;
    cbn [sval wf] in *; injection Ex as <-; injection Ey as <-.
  - exists 0. split; [now destruct sx, sy|]. lia.
  - cbn [SFadd sval]. eexists. split; [reflexivity|]. lia.
  - cbn [SFadd sval]. eexists. split; [reflexivity|]. rewrite Z.add_0_r in *. lia.
  - cbn [SFadd].
    assert (Hx := @shl_align_value mx ex (Z.min ex ey) ltac:(unfold B; lia) ltac:(unfold B; lia)).
    assert (Hy := @shl_align_value my ey (Z.min ex ey) ltac:(unfold B; lia) ltac:(unfold B; lia)).
    rewrite shl_align_min in Hx, Hy by lia.
    destruct Hx as [_ Hx], Hy as [_ Hy].
    apply normalize_sval; [unfold B; lia | exact HN | | exact Hv].
    rewrite Z.mul_add_distr_r. unfold scaled.
    destruct sx, sy; cbn [cond_Zopp]; lia.
Qed.

Lemma SFmul_bound (x y : spec_float) (vx vy N : Z) :
  wf x -> wf y -> sval x = Some vx -> sval y = Some vy ->
  0 < N < 2 ^ 53 -> Z.abs (vx * vy) <= N * 2 ^ B * 2 ^ B ->
  exists vr, sval (SFmul prec emax x y) = Some vr
             /\ Z.abs vr <= N * 2 ^ B
             /\ (0 <= vx * vy -> 0 <= vr) /\ (vx * vy <= 0 -> vr <= 0).
Proof.
  intros Wx Wy Ex Ey HN Hv.
  assert (PB : 0 < 2 ^ B) by (apply pow2_pos; unfold B; lia).
  assert (PN : 0 < N * 2 ^ B) by (apply Z.mul_pos_pos; lia).
  destruct x as [sx|sx| |sx mx ex], y as [sy|sy| |sy my ey]; try discriminate;
    cbn [sval wf] in *; injection Ex as <-; injection Ey as <-;
    try (cbn [SFmul sval]; exists 0; repeat split; lia).
  cbn [SFmul].
  assert (Px := @scaled_pos mx ex ltac:(unfold B; lia)).
  assert (Py := @scaled_pos my ey ltac:(unfold B; lia)).
  assert (Hprod : scaled mx ex * scaled my ey = scaled (mx * my) (ex + ey) * 2 ^ B).
  { unfold scaled. rewrite Pos2Z.inj_mul.
    replace (ex + ey + B) with ((ex + B) + ey) by lia.
    assert (E : 2 ^ (ex + B + ey) * 2 ^ B = 2 ^ (ex + B) * 2 ^ (ey + B)).
    { rewrite <- !pow2_split by (unfold B in *; lia). f_equal. lia. }
    rewrite <- !Z.mul_assoc, E. lia. }
  assert (Habs : Z.abs (cond_Zopp sx (scaled mx ex) * cond_Zopp sy (scaled my ey))
                 = scaled mx ex * scaled my ey).
  { destruct sx, sy; cbn [cond_Zopp]; nia. }
  rewrite Habs, Hprod in Hv.
  assert (Hs : scaled (mx * my) (ex + ey) <= N * 2 ^ B).
  { apply Z.mul_le_mono_pos_r with (p := 2 ^ B); lia. }
  destruct (@binary_round_aux_bound (xorb sx sy) (mx * my) (ex + ey) N
              ltac:(unfold B; lia) HN Hs) as [E | (m' & e' & E & He' & Hb)];
    rewrite E; cbn [sval].
  - exists 0. repeat split; lia.
  - assert (P' := @scaled_pos m' e' He').
    eexists. split; [reflexivity|].
    change (Zpos m' * 2 ^ (e' + B)) with (scaled m' e') in Hb.
    destruct sx, sy; cbn [cond_Zopp xorb] in *; repeat split; try lia; intros; nia.
Qed.

(** *** Order *)

Lemma valid_canonical (s : bool) (m : positive) (e : Z) :
  valid_binary prec emax (S754_finite s m e) = true ->
  -1074 <= e <= 971
  /\ Zpos (digits2_pos m) <= 53
  /\ (Zpos (digits2_pos m) = 53 \/ e = -1074).
Proof.
  cbn [valid_binary]. unfold bounded, canonical_mantissa, fexp, emin, emax, prec.
  intros H. apply andb_true_iff in H as [H1 H2].
  apply Z.eqb_eq in H1. apply Z.leb_le in H2. lia.
Qed.

Lemma valid_wf (x : spec_float) : valid_binary prec emax x = true -> wf x.
Proof.
  destruct x as [s|s| |s m e]; cbn [wf]; auto.
  intros H. apply valid_canonical in H. lia.
Qed.

Lemma scaled_compare (m1 m2 : positive) (e1 e2 : Z) :
  valid_binary prec emax (S754_finite false m1 e1) = true ->
  valid_binary prec emax (S754_finite false m2 e2) = true ->
  match e1 ?= e2 with
  | Lt => Lt
  | Gt => Gt
  | Eq => Pos.compare_cont Eq m1 m2
  end = (scaled m1 e1 ?= scaled m2 e2).
Proof.
  intros V1 V2.
  apply valid_canonical in V1 as (He1 & Hd1 & Hc1), V2 as (He2 & Hd2 & Hc2).
  assert (B1 := digits2_pos_bounds m1). assert (B2 := digits2_pos_bounds m2).
  assert (Hlt : forall ma mb ea eb,
             -1074 <= ea -> ea < eb ->
             Zpos ma < 2 ^ 53 -> 2 ^ 52 <= Zpos mb ->
             scaled ma ea < scaled mb eb).
  { intros ma mb ea eb Ha Hab Hma Hmb. unfold scaled.
    assert (Pa : 0 < 2 ^ (ea + B)) by (apply pow2_pos; unfold B; lia).
    replace (eb + B) with ((eb - ea - 1) + (1 + (ea + B))) by lia.
    rewrite (pow2_split (eb - ea - 1) (1 + (ea + B))) by (unfold B; lia).
    rewrite (pow2_split 1 (ea + B)) by (unfold B; lia).
    assert (Pk : 1 <= 2 ^ (eb - ea - 1)) by (assert (0 < 2 ^ (eb - ea - 1)) by (apply pow2_pos; lia); lia).
    change (2 ^ 1) with 2.
    assert (S1 : Zpos ma * 2 ^ (ea + B) < 2 ^ 53 * 2 ^ (ea + B))
      by (apply Z.mul_lt_mono_pos_r; lia).
    assert (S2 : 2 ^ 52 * (2 * 2 ^ (ea + B)) <= Zpos mb * (2 * 2 ^ (ea + B)))
      by (apply Z.mul_le_mono_nonneg_r; lia).
    assert (S3 : Zpos mb * (2 * 2 ^ (ea + B))
                 <= Zpos mb * (2 ^ (eb - ea - 1) * (2 * 2 ^ (ea + B)))).
    { apply Z.mul_le_mono_nonneg_l; [lia|].
      rewrite <- (Z.mul_1_l (2 * 2 ^ (ea + B))) at 1.
      apply Z.mul_le_mono_nonneg_r; lia. }
    change (2 ^ 53) with (2 ^ 52 * 2) in S1. lia. }
  assert (U : forall m, Zpos (digits2_pos m) <= 53 ->
                        2 ^ (Zpos (digits2_pos m) - 1) <= Zpos m < 2 ^ Zpos (digits2_pos m) ->
                        Zpos m < 2 ^ 53).
  { intros m Hd Hb. apply Z.lt_le_trans with (2 ^ Zpos (digits2_pos m)); [lia|].
    apply Z.pow_le_mono_r; lia. }
  destruct (Z.compare_spec e1 e2) as [Ec|Ec|Ec].
  - subst e2. unfold scaled.
    rewrite <- Zmult_compare_compat_r
      by (apply Z.lt_gt, pow2_pos; unfold B; lia).
    reflexivity.
  - symmetry. apply Z.compare_lt_iff.
    apply Hlt; try lia; [now apply U|].
    destruct Hc2 as [Hc2|Hc2]; [|lia]. rewrite Hc2 in B2. simpl (53 - 1) in B2. lia.
  - symmetry. apply Z.compare_gt_iff.
    apply Hlt; try lia; [now apply U|].
    destruct Hc1 as [Hc1|Hc1]; [|lia]. rewrite Hc1 in B1. simpl (53 - 1) in B1. lia.
Qed.

Lemma SFcompare_sval (x y : spec_float) (vx vy : Z) :
  valid_binary prec emax x = true -> valid_binary prec emax y = true ->
  sval x = Some vx -> sval y = Some vy ->
  SFcompare x y = Some (vx ?= vy).
Proof.
  intros Vx Vy Ex Ey.
  assert (Wx := valid_wf _ Vx). assert (Wy := valid_wf _ Vy).
  destruct x as [sx|sx| |sx mx ex], y as [sy|sy| |sy my ey]; try discriminate;
    cbn [sval wf] in *; injection Ex as <-; injection Ey as <-; cbn [SFcompare].
  - reflexivity.
  - assert (P := @scaled_pos my ey ltac:(unfold B; lia)).
    f_equal. symmetry. destruct sy; cbn [cond_Zopp];
      [apply Z.compare_gt_iff | apply Z.compare_lt_iff]; lia.
  - assert (P := @scaled_pos mx ex ltac:(unfold B; lia)).
    f_equal. symmetry. destruct sx; cbn [cond_Zopp];
      [apply Z.compare_lt_iff | apply Z.compare_gt_iff]; lia.
  - assert (Px := @scaled_pos mx ex ltac:(unfold B; lia)).
    assert (Py := @scaled_pos my ey ltac:(unfold B; lia)).
    assert (Hc := @scaled_compare mx my ex ey Vx Vy).
    f_equal. destruct sx, sy; cbn [cond_Zopp].
    + rewrite Z.compare_opp, (Z.compare_antisym (scaled mx ex) (scaled my ey)), <- Hc.
      now destruct (ex ?= ey).
    + symmetry. apply Z.compare_lt_iff. lia.
    + symmetry. apply Z.compare_gt_iff. lia.
    + exact Hc.
Qed.

(** *** Primitive floats *)

Lemma ltb_fval (a b : float) (va vb : Z) :
  fval a = Some va -> fval b = Some vb -> PrimFloat.ltb a b = (va <? vb).
Proof.
  intros Ea Eb. rewrite ltb_spec. unfold SFltb.
  rewrite (@SFcompare_sval _ _ va vb (Prim2SF_valid a) (Prim2SF_valid b) Ea Eb).
  unfold Z.ltb. now destruct (va ?= vb).
Qed.

Lemma leb_fval (a b : float) (va vb : Z) :
  fval a = Some va -> fval b = Some vb -> PrimFloat.leb a b = (va <=? vb).
Proof.
  intros Ea Eb. rewrite leb_spec. unfold SFleb.
  rewrite (@SFcompare_sval _ _ va vb (Prim2SF_valid a) (Prim2SF_valid b) Ea Eb).
  unfold Z.leb. now destruct (va ?= vb).
Qed.

(** A float between zero and a finite float is finite. *)
Lemma fval_between (a c : float) (vc : Z) :
  fval c = Some vc ->
  PrimFloat.leb 0 a = true -> PrimFloat.ltb a c = true ->
  exists va, fval a = Some va /\ 0 <= va < vc.
Proof.
  intros Ec H0 Hc.
  assert (E0 : fval 0 = Some 0) by reflexivity.
  destruct (fval a) as [va|] eqn:Ea.
  - exists va. split; [reflexivity|].
    rewrite (@leb_fval 0 a 0 va E0 Ea) in H0. rewrite (@ltb_fval a c va vc Ea Ec) in Hc.
    apply Z.leb_le in H0. apply Z.ltb_lt in Hc. lia.
  - exfalso. unfold fval in *. rewrite leb_spec in H0. rewrite ltb_spec in Hc.
    change (Prim2SF 0) with (S754_zero false) in H0.
    destruct (Prim2SF a) as [s|s| |s m e]; try discriminate.
    destruct s; [discriminate H0|].
    destruct (Prim2SF c) as [s'|s'| |s' m' e']; discriminate.
Qed.

Lemma sub_fval (a b : float) (va vb N : Z) :
  fval a = Some va -> fval b = Some vb ->
  0 < N < 2 ^ 53 -> Z.abs (va - vb) <= N * 2 ^ B ->
  exists vr, fval (a - b) = Some vr
             /\ Z.abs vr <= N * 2 ^ B
             /\ (0 <= va - vb -> 0 <= vr) /\ (va - vb <= 0 -> vr <= 0).
Proof.
  intros Ea Eb HN Hv. unfold fval. rewrite sub_spec.
  apply SFsub_bound; auto using valid_wf, Prim2SF_valid.
Qed.

Lemma add_fval (a b : float) (va vb N : Z) :
  fval a = Some va -> fval b = Some vb ->
  0 < N < 2 ^ 53 -> Z.abs (va + vb) <= N * 2 ^ B ->
  exists vr, fval (a + b) = Some vr
             /\ Z.abs vr <= N * 2 ^ B
             /\ (0 <= va + vb -> 0 <= vr) /\ (va + vb <= 0 -> vr <= 0).
Proof.
  intros Ea Eb HN Hv. unfold fval. rewrite add_spec.
  apply SFadd_bound; auto using valid_wf, Prim2SF_valid.
Qed.

Lemma mul_fval (a b : float) (va vb N : Z) :
  fval a = Some va -> fval b = Some vb ->
  0 < N < 2 ^ 53 -> Z.abs (va * vb) <= N * 2 ^ B * 2 ^ B ->
  exists vr, fval (a * b) = Some vr
             /\ Z.abs vr <= N * 2 ^ B
             /\ (0 <= va * vb -> 0 <= vr) /\ (va * vb <= 0 -> vr <= 0).
Proof.
  intros Ea Eb HN Hv. unfold fval. rewrite mul_spec.
  apply SFmul_bound; auto using valid_wf, Prim2SF_valid.
Qed.

Lemma abs_fval (a : float) (va : Z) :
  fval a = Some va -> fval (abs a) = Some (Z.abs va).
Proof.
  unfold fval. rewrite abs_spec. assert (W := valid_wf _ (Prim2SF_valid a)).
  destruct (Prim2SF a) as [s|s| |s m e]; try discriminate; cbn [sval SFabs wf] in *.
  - now intros [= <-].
  - intros [= <-]. assert (P := @scaled_pos m e ltac:(unfold B; lia)).
    f_equal. destruct s; cbn [cond_Zopp]; lia.
Qed.

Set Implicit Arguments.

End Binary64_properties.

(** ** StarData.js *)

Module StarData_properties.
Import StarData StarData_vocabulary.

Section Search.
Context {num : Type} `{Number num}.
Variable toLowerCase : jsstring -> jsstring.
Variable Equator :
  Body -> Date -> Observer num -> bool -> bool -> completion (EquatorialCoordinates num).
Variable starData : list (Star num).
Variable now : Date.

(** C2: a query of fewer than two code units, the empty one included, or an
    absent observer makes [searchCelestial] return the empty array. *)
Theorem searchCelestial_guard (query : jsstring) (observer : option (Observer num)) :
  (List.length query < 2)%nat \/ observer = None ->
  searchCelestial toLowerCase Equator starData now query observer = [].
Proof.
  intros [Hlen | ->]; unfold searchCelestial.
  - apply Nat.ltb_lt in Hlen. now rewrite Hlen.
  - now destruct (_ <? _)%nat.
Qed.

Lemma calculateSolarSystemBodyPosition_normal bodyName observer date :
  exists r, calculateSolarSystemBodyPosition toLowerCase Equator bodyName observer date = Normal r.
Proof.
  unfold calculateSolarSystemBodyPosition.
  destruct observer as [obs|]; [|eauto].
  destruct bodyName as [[|c s]|]; eauto.
  destruct (getBodyForName toLowerCase (c :: s)) as [body|]; simpl; eauto.
  destruct (Equator body date obs true true); simpl; eauto.
Qed.

Lemma solarSystemResults_flag lowerText observer r :
  In r (solarSystemResults toLowerCase Equator now lowerText observer) ->
  isSolarSystemBody r = true.
Proof.
  unfold solarSystemResults.
  destruct (Array_map _ _) as [l|] eqn:E; [|intros []].
  intros I. apply In_dropNull in I.
  eapply Array_map_In in I; [|exact E]. destruct I as (body & _ & Eb).
  unfold solarSystemResult in Eb.
  destruct (calculateSolarSystemBodyPosition_normal (Some (body_name body)) observer now)
    as ([p|] & Ep); rewrite Ep in Eb; simpl in Eb; [|discriminate].
  injection Eb as <-. reflexivity.
Qed.

Lemma isSolarSystemBodyItem_false (item : Star num) (body : SolarSystemBody num) :
  isSolarSystemBodyItem toLowerCase item = false ->
  In body solarSystemBodies ->
  option_map toLowerCase (star_name item) <> Some (toLowerCase (body_name body))
  /\ option_map toLowerCase (star_proper item) <> Some (toLowerCase (body_proper body)).
Proof.
  unfold isSolarSystemBodyItem. intros E I.
  destruct (strictEq (Some (toLowerCase (body_name body))) (option_map toLowerCase (star_name item))
            || strictEq (Some (toLowerCase (body_proper body))) (option_map toLowerCase (star_proper item)))
    eqn:Eb.
  - assert (Hex : existsb
      (fun body : SolarSystemBody num =>
         strictEq (Some (toLowerCase (body_name body))) (option_map toLowerCase (star_name item))
         || strictEq (Some (toLowerCase (body_proper body))) (option_map toLowerCase (star_proper item)))
      solarSystemBodies = true).
    { apply existsb_exists. exists body. auto. }
    congruence.
  - apply orb_false_iff in Eb as [En Ep]. split; intros Heq.
    + rewrite Heq in En. simpl in En. now rewrite jsstring_eqb_refl in En.
    + rewrite Heq in Ep. simpl in Ep. now rewrite jsstring_eqb_refl in Ep.
Qed.

Lemma starResults_inv lowerText r :
  In r (starResults toLowerCase starData lowerText) ->
  exists star, In star starData /\ starFilter toLowerCase lowerText star = true
               /\ proper r = star_proper star /\ name r = star_name star
               /\ mag r = star_mag star /\ isSolarSystemBody r = false.
Proof.
  unfold starResults. intros I. apply in_map_iff in I as (star & <- & I).
  apply In_firstn in I. apply filter_In in I as [I F].
  exists star. simpl. auto 6.
Qed.

(** C3, as amended: an entry of the star pass never has the canonical name
    of a solar-system body as its canonical name, nor the proper name of one
    as its proper name, up to case; this holds of the star pass and of every
    entry of the final result that is not flagged as a solar-system body. *)
Theorem starResults_exclude_bodies (query : jsstring) (observer : option (Observer num))
  (r : CelestialObject num) (body : SolarSystemBody num) :
  In r (starResults toLowerCase starData (toLowerCase query))
  \/ (In r (searchCelestial toLowerCase Equator starData now query observer)
      /\ isSolarSystemBody r = false) ->
  In body solarSystemBodies ->
  option_map toLowerCase (name r) <> Some (toLowerCase (body_name body))
  /\ option_map toLowerCase (proper r) <> Some (toLowerCase (body_proper body)).
Proof.
  intros Hr Hbody.
  assert (Hstar : In r (starResults toLowerCase starData (toLowerCase query))).
  { destruct Hr as [Hr | [Hr Hflag]]; [exact Hr|].
    unfold searchCelestial in Hr.
    destruct (_ <? _)%nat; [destruct Hr|].
    destruct observer as [obs|]; [|destruct Hr].
    apply In_firstn, In_Array_sort, in_app_or in Hr as [Hr | Hr]; [|exact Hr].
    apply solarSystemResults_flag in Hr. congruence. }
  apply starResults_inv in Hstar as (star & _ & F & -> & -> & _).
  unfold starFilter in F.
  destruct (isSolarSystemBodyItem toLowerCase star) eqn:E; [discriminate|].
  now apply isSolarSystemBodyItem_false.
Qed.

(** C4, as amended: [calculateSolarSystemBodyPosition] never throws; it
    returns [null] when the observer or the name is missing and when the name
    is not, up to case, one of the ten bodies; for a known body it returns the
    [ra] and [dec] the ephemeris computes, and [null] when the ephemeris throws. *)
Theorem calculateSolarSystemBodyPosition_total
  (bodyName : option jsstring) (observer : option (Observer num)) (date : Date) :
  (exists r, calculateSolarSystemBodyPosition toLowerCase Equator bodyName observer date = Normal r)
  /\ (observer = None \/ bodyName = None \/ bodyName = Some []
      \/ (exists s, bodyName = Some s /\ ~ In (toLowerCase s) (map (@body_id num) solarSystemBodies)) ->
      calculateSolarSystemBodyPosition toLowerCase Equator bodyName observer date = Normal None)
  /\ (forall obs s, observer = Some obs -> bodyName = Some s -> s <> [] ->
      In (toLowerCase s) (map (@body_id num) solarSystemBodies) ->
      exists body, getBodyForName toLowerCase s = Some body
        /\ calculateSolarSystemBodyPosition toLowerCase Equator bodyName observer date =
           match Equator body date obs true true with
           | Normal equ => Normal (Some {| pos_ra := equ_ra equ; pos_dec := equ_dec equ |})
           | Throw _ => Normal None
           end).
Proof.
  assert (Hknown : forall s, getBodyForName toLowerCase s <> None
                             <-> In (toLowerCase s) (map (@body_id num) solarSystemBodies)).
  { intros s. unfold getBodyForName. simpl.
    repeat match goal with
    | |- context [jsstring_eqb ?a ?b] =>
        let E := fresh "E" in
        destruct (jsstring_eqb a b) eqn:E;
        [apply jsstring_eqb_eq in E; split; [intros _; rewrite E; simpl; tauto | discriminate] |]
    end.
    split; [congruence|].
    intros I.
    repeat match goal with
    | I : _ \/ _ |- _ => destruct I as [I|I]
    | I : _ = toLowerCase s |- _ => rewrite <- I in *; clear I
    | E : jsstring_eqb ?a ?a = false |- _ => rewrite jsstring_eqb_refl in E; discriminate
    | I : False |- _ => destruct I
    end. }
  split; [apply calculateSolarSystemBodyPosition_normal|]. split.
  - intros [-> | [-> | [-> | (s & -> & Hs)]]]; unfold calculateSolarSystemBodyPosition.
    + reflexivity.
    + now destruct observer.
    + now destruct observer.
    + destruct observer as [obs|]; [|reflexivity].
      destruct s as [|c s]; [reflexivity|].
      destruct (getBodyForName toLowerCase (c :: s)) eqn:E; [|reflexivity].
      exfalso. apply Hs, Hknown. congruence.
  - intros obs s -> -> Hs Hin. apply Hknown in Hin.
    destruct (getBodyForName toLowerCase s) as [body|] eqn:E; [|congruence].
    exists body. split; [reflexivity|].
    unfold calculateSolarSystemBodyPosition.
    destruct s as [|c s]; [congruence|]. rewrite E.
    now destruct (Equator body date obs true true).
Qed.

Lemma searchCelestial_ranked (query : jsstring) (obs : Observer num) :
  (2 <= List.length query)%nat ->
  searchCelestial toLowerCase Equator starData now query (Some obs) =
  ranked (solarSystemResults toLowerCase Equator now (toLowerCase query) (Some obs)
          ++ starResults toLowerCase starData (toLowerCase query)).
Proof.
  intros Hlen. unfold searchCelestial.
  destruct (_ <? _)%nat eqn:E; [apply Nat.ltb_lt in E; lia | reflexivity].
Qed.

Lemma searchCelestial_length (query : jsstring) (observer : option (Observer num)) :
  (List.length (searchCelestial toLowerCase Equator starData now query observer) <= 15)%nat.
Proof.
  unfold searchCelestial.
  destruct (_ <? _)%nat; [simpl; lia|].
  destruct observer; [|simpl; lia].
  rewrite length_firstn. lia.
Qed.










End Search.

(** *** The final order, in exact arithmetic *)

Section SortedByKey.
Variable A : Type.
Variable key : A -> Q.

Let compareFn (a b : A) : Q := (key a - key b)%Q.
Let le (a b : A) : Prop := (key a <= key b)%Q.

Lemma Array_insert_sorted (x : A) (l : list A) :
  StronglySorted le l -> StronglySorted le (Array_insert compareFn x l).
Proof.
  induction 1 as [|y l Hs IH Hall]; simpl.
  - constructor; constructor.
  - match goal with |- context [if ?c then _ else _] => destruct c eqn:E end.
    + constructor; [exact IH|].
      apply Forall_forall. intros a Ia. apply In_Array_insert in Ia as [-> | Ia].
      * apply Qltb_lt in E. unfold le, compareFn in *. lra.
      * rewrite Forall_forall in Hall. now apply Hall.
    + assert (Hxy : le x y).
      { unfold le. apply Qnot_lt_le. intros L.
        assert (Et : Qltb 0 (compareFn x y) = true)
          by (apply Qltb_lt; unfold compareFn; lra).
        congruence. }
      constructor; [now constructor|].
      constructor; [exact Hxy|].
      rewrite Forall_forall in *. intros a Ia. specialize (Hall a Ia).
      unfold le in *. lra.
Qed.

Lemma Array_sort_sorted (l : list A) : StronglySorted le (Array_sort compareFn l).
Proof.
  induction l as [|x l IH]; simpl; [constructor | now apply Array_insert_sorted].
Qed.

Lemma firstn_sorted (n : nat) (l : list A) :
  StronglySorted le l -> StronglySorted le (firstn n l).
Proof.
  intros Hs; revert n; induction Hs as [|y l Hs IH Hall]; intros [|n]; simpl;
    try constructor; auto.
  rewrite Forall_forall in *. intros a Ia. apply Hall. now apply In_firstn in Ia.
Qed.

End SortedByKey.

(** X7: in exact arithmetic the result of a search is in ascending order of
    the key [mag || 100], whatever the query, the observer, the catalogue and
    the ephemeris. *)
Lemma searchCelestial_sorted toLowerCase Equator (starData : list (Star Q)) now query observer :
  StronglySorted (fun a b => (magOr100 a <= magOr100 b)%Q)
    (searchCelestial toLowerCase Equator starData now query observer).
Proof.
  unfold searchCelestial.
  destruct (_ <? _)%nat; [constructor|].
  destruct observer; [|constructor].
  apply firstn_sorted.
  exact (Array_sort_sorted (@magOr100 Q _) _).
Qed.

(** *** Where the final order puts a magnitude of 0 *)

Section RankOfKey.
Variable A : Type.
Variable key : A -> Q.
Variable bound : Q.

Let compareFn (a b : A) : Q := (key a - key b)%Q.
Let le (a b : A) : Prop := (key a <= key b)%Q.







End RankOfKey.




(** In binary64 as well the key of magnitude 0 is 100. *)
Example magOr100_binary64_zero :
  magOr100 {| id := IdNull; proper := None; name := None; mag := Some (int 0 : float);
              ra := None; dec := None; isSolarSystemBody := false |} = int 100.
Proof. vm_compute. reflexivity. Qed.

(** *** Concrete searches *)

(** C1 at a catalogue with a star of magnitude 0: the search for "alp" lists
    magnitude 0.76 before magnitude 0, in exact arithmetic and in binary64;
    the result is not in ascending order of magnitude. *)
Theorem searchCelestial_zero_magnitude_last :
  map (@mag Q)
    (searchCelestial asciiLowerCase sampleEquator [vega0; altair] noon (str "alp") (Some seoul))
  = [Some (76 # 100); Some 0]%Q
  /\ map (@mag float)
       (searchCelestial asciiLowerCase sampleEquator [vega0; altair] noon (str "alp") (Some seoul))
     = [Some (lit 76 100); Some (int 0)]
  /\ ~ StronglySorted
        (fun a b : CelestialObject Q =>
           match mag a, mag b with Some ma, Some mb => (ma <= mb)%Q | _, _ => True end)
        (searchCelestial asciiLowerCase sampleEquator [vega0; altair] noon (str "alp") (Some seoul)).
Proof.
  split; [vm_compute; reflexivity|]. split; [vm_compute; reflexivity|].
  intros Hs. vm_compute in Hs.
  inversion Hs as [|a l _ Hall]; subst.
  inversion Hall as [|b l' Hle _]; subst.
  apply Hle. reflexivity.
Qed.


Lemma searchCelestial_guard_witness :
  ((List.length (str "a") < 2)%nat \/ Some seoul = None)
  /\ searchCelestial asciiLowerCase sampleEquator [sirius] noon (str "a") (Some seoul) = [].
Proof.
  assert (Hlen : (List.length (str "a") < 2)%nat) by (simpl; lia).
  split; [now left|].
  apply searchCelestial_guard. now left.
Defined.

(** C3 as stated fails: a record whose proper name is "Mars" and whose
    canonical name is missing passes the star filter; the search for "mars"
    returns it next to the planet. *)
Lemma starResults_cross_field_match :
  exists r,
    In r (starResults asciiLowerCase [marsStar] (asciiLowerCase (str "mars")))
    /\ In r (searchCelestial asciiLowerCase sampleEquator [marsStar] noon (str "mars") (Some seoul))
    /\ isSolarSystemBody r = false
    /\ matchesBodyName asciiLowerCase r = true.
Proof.
  eexists. split; [left; reflexivity|]. split; [|split; reflexivity].
  vm_compute. right. left. reflexivity.
Qed.

Lemma starResults_exclude_bodies_witness :
  (In siriusResult (starResults asciiLowerCase [sirius; marsStar] (asciiLowerCase (str "si")))
   \/ (In siriusResult
         (searchCelestial asciiLowerCase sampleEquator [sirius; marsStar] noon (str "si") (Some seoul))
       /\ isSolarSystemBody siriusResult = false))
  /\ In sunBody solarSystemBodies
  /\ option_map asciiLowerCase (name siriusResult) <> Some (asciiLowerCase (body_name sunBody))
  /\ option_map asciiLowerCase (proper siriusResult) <> Some (asciiLowerCase (body_proper sunBody)).
Proof.
  assert (H1 : In siriusResult
                 (starResults asciiLowerCase [sirius; marsStar] (asciiLowerCase (str "si"))))
    by (left; reflexivity).
  assert (H2 : In sunBody solarSystemBodies) by (left; reflexivity).
  split; [now left|]. split; [exact H2|].
  exact (@starResults_exclude_bodies Q _ asciiLowerCase sampleEquator [sirius; marsStar] noon
           (str "si") (Some seoul) siriusResult sunBody (or_introl H1) H2).
Defined.

(** C4 as stated fails: "Mars" is a known body, the observer is present, and
    the result is [null], because the ephemeris throws on an invalid date. *)
Lemma known_body_without_position :
  getBodyForName asciiLowerCase (str "Mars") = Some Mars
  /\ calculateSolarSystemBodyPosition asciiLowerCase sampleEquator
       (Some (str "Mars")) (Some (seoul : Observer Q)) None = Normal None.
Proof. split; reflexivity. Qed.

Lemma calculateSolarSystemBodyPosition_total_witness :
  calculateSolarSystemBodyPosition asciiLowerCase sampleEquator
    (Some (str "Vulcan")) (Some (seoul : Observer Q)) noon = Normal None
  /\ exists body,
       getBodyForName asciiLowerCase (str "MARS") = Some body
       /\ calculateSolarSystemBodyPosition asciiLowerCase sampleEquator
            (Some (str "MARS")) (Some (seoul : Observer Q)) noon
          = match sampleEquator body noon (seoul : Observer Q) true true with
            | Normal equ => Normal (Some {| pos_ra := equ_ra equ; pos_dec := equ_dec equ |})
            | Throw _ => Normal None
            end.
Proof.
  split.
  - apply (proj1 (proj2 (@calculateSolarSystemBodyPosition_total Q _ asciiLowerCase sampleEquator
             (Some (str "Vulcan")) (Some seoul) noon))).
    right. right. right. exists (str "Vulcan"). split; [reflexivity|].
    vm_compute. intuition discriminate.
  - apply (proj2 (proj2 (@calculateSolarSystemBodyPosition_total Q _ asciiLowerCase sampleEquator
             (Some (str "MARS")) (Some seoul) noon)) seoul (str "MARS") eq_refl eq_refl).
    + discriminate.
    + vm_compute. tauto.
Defined.

End StarData_properties.

(** ** App_new.js *)

Module App_new_properties.
Import App_new App_new_vocabulary.

Lemma Qabs_minus_sym (a b : Q) : (Qabs (a - b) == Qabs (b - a))%Q.
Proof.
  rewrite <- (Qabs_opp (b - a)). apply Qabs_wd. ring.
Qed.

(** In exact arithmetic the circular difference is symmetric, and at most
    180 on [0,360). *)
Lemma normalizedAzDiff_exact_bounded (a b : Q) :
  (0 <= a < 360)%Q -> (0 <= b < 360)%Q ->
  normalizedAzDiff a b = Qmin (Qabs (a - b)) (360 - Qabs (a - b))
  /\ (normalizedAzDiff a b == normalizedAzDiff b a)%Q
  /\ (normalizedAzDiff a b <= 180)%Q.
Proof.
  intros Ha Hb. split; [reflexivity|].
  unfold normalizedAzDiff. cbn.
  assert (Hs := Qabs_minus_sym a b).
  assert (Hd : (0 <= Qabs (a - b))%Q) by apply Qabs_nonneg.
  destruct (Q.min_spec (Qabs (a - b)) (360 - Qabs (a - b))) as [[L1 E1] | [L1 E1]];
    destruct (Q.min_spec (Qabs (b - a)) (360 - Qabs (b - a))) as [[L2 E2] | [L2 E2]];
    rewrite E1, E2; split; lra.
Qed.

(** C7 as stated fails: with the target at 0 h and the pointing at 12 h the
    difference is -180, which no correction changes, in exact arithmetic and
    in binary64. *)
Lemma raDiff_minus_180 :
  (calculateDirection_raDiff (0 : Q) 12 == -180)%Q
  /\ ~ (-180 < calculateDirection_raDiff (0 : Q) 12)%Q
  /\ calculateDirection_raDiff (int 0 : float) (int 12) = (- int 180)%js
  /\ PrimFloat.ltb (- int 180)%js (calculateDirection_raDiff (int 0 : float) (int 12)) = false.
Proof.
  split; [reflexivity|]. split; [intros L; discriminate L|].
  split; vm_compute; reflexivity.
Qed.

(** In exact arithmetic the RA difference of two right ascensions in [0,24)
    lies in [-180,180], and it is -180 exactly when the pointing is 12 h ahead
    of the target (in binary64 the rounding of the products moves this
    boundary, see [raDiff_binary64_boundary]). *)
Lemma calculateDirection_raDiff_exact_range (t c : Q) :
  (0 <= t < 24)%Q -> (0 <= c < 24)%Q ->
  (-180 <= calculateDirection_raDiff t c <= 180)%Q
  /\ ((calculateDirection_raDiff t c == -180)%Q <-> (c == t + 12)%Q).
Proof.
  intros Ht Hc. unfold calculateDirection_raDiff. cbn.
  destruct (Qltb 180 (t * 15 - c * 15)) eqn:E1.
  - apply Qltb_lt in E1.
    destruct (Qltb (t * 15 - c * 15 - 360) (- (180))) eqn:E2.
    + apply Qltb_lt in E2. lra.
    + split; [|split]; lra.
  - assert (N1 : ~ (180 < t * 15 - c * 15)%Q)
      by (intros L; apply Qltb_lt in L; congruence).
    destruct (Qltb (t * 15 - c * 15) (- (180))) eqn:E2.
    + apply Qltb_lt in E2. split; [|split]; lra.
    + assert (N2 : ~ (t * 15 - c * 15 < - (180))%Q)
        by (intros L; apply Qltb_lt in L; congruence).
      split; [|split]; lra.
Qed.

(** The [raDiff] that [calculateDirection] returns is this difference,
    whatever [Math.sqrt] and [Math.atan2] compute. *)
Lemma calculateDirection_raDiff_field {num} `{Number num}
  (Math_sqrt : num -> num) (Math_atan2 : num -> num -> num)
  (target current : Equatorial num) :
  option_map (@raDiff num) (calculateDirection Math_sqrt Math_atan2 (Some target) (Some current))
  = Some (calculateDirection_raDiff (ra target) (ra current)).
Proof. reflexivity. Qed.

(** *** Moving average *)

Section MovingAverage.
Context {num : Type} `{Number num}.
Local Open Scope js_scope.

Lemma applyMovingAverage_length (v : num) (history : list num) (w : nat) :
  (List.length history <= w)%nat ->
  (List.length (fst (applyMovingAverage v history w)) <= w)%nat.
Proof.
  intros L. unfold applyMovingAverage. cbn [fst].
  destruct (w <? _)%nat eqn:E.
  - destruct history as [|a history]; simpl in *.
    + apply Nat.ltb_lt in E. lia.
    + rewrite length_app. simpl. lia.
  - apply Nat.ltb_ge in E. exact E.
Qed.

Lemma movingAverages_length (inputs history : list num) (w : nat) :
  (List.length history <= w)%nat ->
  (List.length (fst (movingAverages inputs history w)) <= w)%nat.
Proof.
  revert history; induction inputs as [|v inputs IH]; intros history L;
    cbn [movingAverages]; [exact L|].
  assert (L1 := applyMovingAverage_length v history L).
  destruct (applyMovingAverage v history w) as [h1 out] eqn:E1. simpl in L1.
  specialize (IH h1 L1).
  destruct (movingAverages inputs h1 w) as [h2 outs]. exact IH.
Qed.

(** A call of [tryFuse] keeps both windows within [windowSize]. *)
Lemma tryFuse_window (AHRS : Type)
  (update : AHRS -> num -> num -> num -> num -> num -> num -> num -> num -> num -> AHRS)
  (getEulerAngles : AHRS -> EulerAngles num) (declination : num) (r : Refs AHRS) :
  let h := sensorHistory r in
  let h' := sensorHistory (fst (tryFuse update getEulerAngles declination r)) in
  (List.length (azimuth h) <= windowSize h)%nat ->
  (List.length (altitude h) <= windowSize h)%nat ->
  windowSize h' = windowSize h
  /\ (List.length (azimuth h') <= windowSize h')%nat
  /\ (List.length (altitude h') <= windowSize h')%nat.
Proof.
  intros h h' Laz Lalt. subst h h'. unfold tryFuse.
  destruct (accel (last r)), (gyro (last r)), (mag (last r)); auto.
  match goal with
  | |- context [applyMovingAverage ?v (azimuth _) _] =>
      assert (L1 := applyMovingAverage_length v (azimuth (sensorHistory r)) Laz);
      destruct (applyMovingAverage v (azimuth (sensorHistory r)) (windowSize (sensorHistory r)))
        as [h1 fAz]
  end.
  match goal with
  | |- context [applyMovingAverage ?v (altitude _) _] =>
      assert (L2 := applyMovingAverage_length v (altitude (sensorHistory r)) Lalt);
      destruct (applyMovingAverage v (altitude (sensorHistory r)) (windowSize (sensorHistory r)))
        as [h2 fAlt]
  end.
  now destruct (shouldUpdateOrientation _ fAz fAlt).
Qed.

Lemma movingAverages_app (xs ys history : list num) (w : nat) :
  movingAverages (xs ++ ys) history w =
  (fst (movingAverages ys (fst (movingAverages xs history w)) w),
   snd (movingAverages xs history w) ++ snd (movingAverages ys (fst (movingAverages xs history w)) w)).
Proof.
  revert history; induction xs as [|x xs IH]; intros history;
    cbn [movingAverages app fst snd].
  - now destruct (movingAverages ys history w).
  - destruct (applyMovingAverage x history w) as [h1 out].
    rewrite IH.
    destruct (movingAverages xs h1 w) as [h2 outs]. reflexivity.
Qed.

Lemma movingAverages_steady (V : num) (j : nat) :
  movingAverages (repeat V j) (repeat V 5) 5 = (repeat V 5, repeat (averageOfFive V) j).
Proof.
  induction j as [|j IH]; [reflexivity|].
  change (repeat V (S j)) with (V :: repeat V j) at 1.
  change (repeat (averageOfFive V) (S j)) with (averageOfFive V :: repeat (averageOfFive V) j).
  cbn [movingAverages].
  change (applyMovingAverage V (repeat V 5) 5) with (repeat V 5, averageOfFive V).
  cbv iota beta. now rewrite IH.
Qed.

Lemma movingAverages_warmup (V : num) (history : list num) :
  (List.length history <= 5)%nat ->
  fst (movingAverages (repeat V 5) history 5) = repeat V 5
  /\ nth_error (snd (movingAverages (repeat V 5) history 5)) 4 = Some (averageOfFive V)
  /\ List.length (snd (movingAverages (repeat V 5) history 5)) = 5%nat.
Proof.
  intros L.
  destruct history as [|a [|b [|c [|d [|e [|f history]]]]]];
    [repeat split .. | simpl in L; lia].
Qed.

(** For a constant input the window is full of it from the fifth call on. *)
Lemma movingAverages_constant (V : num) (history : list num) (k n : nat) :
  (List.length history <= 5)%nat -> (5 <= k)%nat -> (4 <= n < k)%nat ->
  fst (movingAverages (repeat V k) history 5) = repeat V 5
  /\ nth_error (snd (movingAverages (repeat V k) history 5)) n = Some (averageOfFive V).
Proof.
  intros L Hk Hn.
  replace k with (5 + (k - 5))%nat by lia.
  rewrite repeat_app, movingAverages_app.
  destruct (movingAverages_warmup V history L) as (Eh & E4 & El).
  cbn [fst snd]. rewrite Eh, movingAverages_steady. cbn [fst snd].
  split; [reflexivity|].
  destruct (Nat.eq_dec n 4) as [-> | Hne].
  - rewrite nth_error_app1 by lia. exact E4.
  - rewrite nth_error_app2 by lia. rewrite El.
    apply nth_error_repeat. lia.
Qed.

End MovingAverage.

Lemma averageOfFive_exact (V : Q) : (averageOfFive V == V)%Q.
Proof. unfold averageOfFive, int. cbn. field. Qed.

(** C6, as amended: once a constant [V] has been fed at least five times
    the window holds five copies of [V] and every further output is the sum
    [0+V+V+V+V+V], taken from the left, divided by 5.  In exact arithmetic that
    is [V]; in binary64 it is [V] up to the rounding of the additions.  The
    window never grows beyond five elements. *)
Theorem movingAverage_constant_stream :
  (forall (num : Type) (N : Number num) (V : num) (history : list num) (k n : nat),
      (List.length history <= 5)%nat -> (5 <= k)%nat -> (4 <= n < k)%nat ->
      fst (movingAverages (repeat V k) history 5) = repeat V 5
      /\ nth_error (snd (movingAverages (repeat V k) history 5)) n = Some (averageOfFive V))
  /\ (forall V : Q, (averageOfFive V == V)%Q)
  /\ (forall (num : Type) (N : Number num) (inputs history : list num),
      (List.length history <= 5)%nat ->
      (List.length (fst (movingAverages inputs history 5)) <= 5)%nat).
Proof.
  split; [|split].
  - intros num N V history k n. apply movingAverages_constant.
  - exact averageOfFive_exact.
  - intros num N inputs history. apply movingAverages_length.
Qed.

Lemma movingAverage_constant_stream_witness :
  (List.length (@nil Q) <= 5)%nat /\ (5 <= 7)%nat /\ (4 <= 6 < 7)%nat
  /\ nth_error (snd (movingAverages (repeat (123.456 : Q) 7) [] 5)) 6
     = Some (averageOfFive (123.456 : Q))
  /\ (averageOfFive (123.456 : Q) == 123.456)%Q.
Proof.
  assert (L : (List.length (@nil Q) <= 5)%nat) by (simpl; lia).
  assert (Hk : (5 <= 7)%nat) by lia.
  assert (Hn : (4 <= 6 < 7)%nat) by lia.
  split; [exact L|]. split; [exact Hk|]. split; [exact Hn|]. split.
  - exact (proj2 (proj1 movingAverage_constant_stream Q _ 123.456%Q [] 7%nat 6%nat L Hk Hn)).
  - exact (proj1 (proj2 movingAverage_constant_stream) 123.456%Q).
Defined.

(** C6 as stated fails in the arithmetic of the engine: five inputs
    123.456 give 123.45599999999999, which is not the input. *)
Lemma movingAverage_binary64_rounds :
  let V : float := lit 123456 1000 in
  exists out : float,
    nth_error (snd (movingAverages (repeat V 5) [] 5)) 4 = Some out
    /\ PrimFloat.eqb out V = false
    /\ out <> V.
Proof.
  intros V. exists 0x1.edd2f1a9fbe76p+6%float.
  split; [vm_compute; reflexivity|].
  assert (E : PrimFloat.eqb 0x1.edd2f1a9fbe76p+6%float V = false) by (vm_compute; reflexivity).
  split; [exact E|].
  intros Heq. rewrite Heq in E. vm_compute in E. discriminate E.
Qed.

(** *** Hysteresis gate *)

Lemma shouldUpdateOrientation_exact (previous : AzAlt Q) (newAz newAlt : Q) :
  shouldUpdateOrientation previous newAz newAlt = true <->
  ((3 # 10) < Qmin (Qabs (newAz - az previous)) (360 - Qabs (newAz - az previous)))%Q
  \/ ((3 # 10) < Qabs (newAlt - alt previous))%Q.
Proof.
  unfold shouldUpdateOrientation, normalizedAzDiff, changeThreshold. cbn.
  rewrite orb_true_iff, !Qltb_lt. reflexivity.
Qed.

Section Published.
Context {num : Type} `{Number num}.
Variable AHRS : Type.
Variable update : AHRS -> num -> num -> num -> num -> num -> num -> num -> num -> num -> AHRS.
Variable getEulerAngles : AHRS -> EulerAngles num.
Local Open Scope js_scope.

(** In every arithmetic, [tryFuse] publishes the filtered pair, and records
    it as the pair published last, exactly when the gate is open. *)
Lemma tryFuse_published (declination : num) (r : Refs AHRS) (a g m : Vec3 num) :
  accel (last r) = Some a -> gyro (last r) = Some g -> mag (last r) = Some m ->
  let e := getEulerAngles
             (update (madgwick r) (- z g) (x g) (- y g)
                     (- z a) (x a) (- y a) (- z m) (x m) (- y m)) in
  let h := sensorHistory r in
  let filteredAz :=
    snd (applyMovingAverage (azDeg (heading e) declination) (azimuth h) (windowSize h)) in
  let filteredAlt :=
    snd (applyMovingAverage (altDeg (pitch e)) (altitude h) (windowSize h)) in
  let azDiff := Math_abs (filteredAz - az (previousAzAlt r)) in
  let altDiff := Math_abs (filteredAlt - alt (previousAzAlt r)) in
  let exceeds := (Math_min azDiff (int 360 - azDiff) >? lit 3 10) || (altDiff >? lit 3 10) in
  snd (tryFuse update getEulerAngles declination r)
  = (if exceeds then Some {| az := filteredAz; alt := filteredAlt |} else None)
  /\ previousAzAlt (fst (tryFuse update getEulerAngles declination r))
     = (if exceeds then {| az := filteredAz; alt := filteredAlt |} else previousAzAlt r).
Proof.
  intros Ha Hg Hm e h filteredAz filteredAlt azDiff altDiff exceeds.
  subst exceeds azDiff altDiff filteredAz filteredAlt e h. unfold tryFuse.
  rewrite Ha, Hg, Hm.
  destruct (applyMovingAverage (azDeg _ declination) _ _) as [h1 fAz].
  destruct (applyMovingAverage (altDeg _) _ _) as [h2 fAlt].
  cbn [snd].
  change ((Math_min (Math_abs (fAz - az (previousAzAlt r)))
             (int 360 - Math_abs (fAz - az (previousAzAlt r))) >? lit 3 10)
          || (Math_abs (fAlt - alt (previousAzAlt r)) >? lit 3 10))
    with (shouldUpdateOrientation (previousAzAlt r) fAz fAlt).
  now destruct (shouldUpdateOrientation _ fAz fAlt).
Qed.

End Published.

Section Gate.
Variable AHRS : Type.
Variable update : AHRS -> Q -> Q -> Q -> Q -> Q -> Q -> Q -> Q -> Q -> AHRS.
Variable getEulerAngles : AHRS -> EulerAngles Q.

(** In exact arithmetic the gate is the comparison of the two differences
    with 0.3. *)
Lemma tryFuse_gate_exact (declination : Q) (r : Refs AHRS) (a g m : Vec3 Q) :
  accel (last r) = Some a -> gyro (last r) = Some g -> mag (last r) = Some m ->
  let e := getEulerAngles
             (update (madgwick r) (- z g)%js (x g) (- y g)%js
                     (- z a)%js (x a) (- y a)%js (- z m)%js (x m) (- y m)%js) in
  let h := sensorHistory r in
  let filteredAz :=
    snd (applyMovingAverage (azDeg (heading e) declination) (azimuth h) (windowSize h)) in
  let filteredAlt :=
    snd (applyMovingAverage (altDeg (pitch e)) (altitude h) (windowSize h)) in
  let azDiff := Qabs (filteredAz - az (previousAzAlt r)) in
  let altDiff := Qabs (filteredAlt - alt (previousAzAlt r)) in
  let exceeds := ((3 # 10) < Qmin azDiff (360 - azDiff) \/ (3 # 10) < altDiff)%Q in
  let published := snd (tryFuse update getEulerAngles declination r) in
  let previous' := previousAzAlt (fst (tryFuse update getEulerAngles declination r)) in
  (published = Some {| az := filteredAz; alt := filteredAlt |} <-> exceeds)
  /\ (published = None <-> ~ exceeds)
  /\ (previous' = match published with Some p => p | None => previousAzAlt r end)
  /\ ((azDiff == 2 # 10)%Q -> (altDiff == 2 # 10)%Q -> published = None)
  /\ ((azDiff == 4 # 10)%Q \/ (altDiff == 4 # 10)%Q ->
      published = Some {| az := filteredAz; alt := filteredAlt |}).
Proof.
  intros Ha Hg Hm e h filteredAz filteredAlt azDiff altDiff exceeds published previous'.
  assert (Hgate := shouldUpdateOrientation_exact (previousAzAlt r) filteredAz filteredAlt).
  fold azDiff altDiff exceeds in Hgate.
  assert (Hpub : published = (if shouldUpdateOrientation (previousAzAlt r) filteredAz filteredAlt
                              then Some {| az := filteredAz; alt := filteredAlt |} else None)
                 /\ previous' = (if shouldUpdateOrientation (previousAzAlt r) filteredAz filteredAlt
                                 then {| az := filteredAz; alt := filteredAlt |}
                                 else previousAzAlt r)).
  { subst published previous' filteredAz filteredAlt e h. unfold tryFuse.
    rewrite Ha, Hg, Hm.
    destruct (applyMovingAverage (azDeg _ declination) _ _) as [h1 fAz].
    destruct (applyMovingAverage (altDeg _) _ _) as [h2 fAlt].
    cbn [snd]. now destruct (shouldUpdateOrientation _ fAz fAlt). }
  destruct Hpub as [Hpub Hprev].
  assert (Hmin := Q.min_spec azDiff (360 - azDiff)).
  assert (Hnn : (0 <= azDiff)%Q) by apply Qabs_nonneg.
  destruct (shouldUpdateOrientation (previousAzAlt r) filteredAz filteredAlt) eqn:E.
  - assert (Hex : exceeds) by now apply Hgate.
    rewrite Hpub, Hprev. repeat split; try tauto; try discriminate.
    intros Eaz Ealt. exfalso. unfold exceeds in Hex. lra.
  - assert (Hex : ~ exceeds) by (intros Hex; apply Hgate in Hex; discriminate).
    rewrite Hpub, Hprev. repeat split; try tauto; try discriminate.
    intros Hd. exfalso. apply Hex. unfold exceeds. lra.
Qed.

End Gate.

(** C5: a call of [tryFuse] that has all three readings publishes the
    filtered pair exactly when the circular azimuth difference
    [min(|daz|, 360-|daz|)] or the altitude difference to the pair published
    last exceeds 0.3.  The first part states it with the comparisons of any
    arithmetic, the second in exact arithmetic, where differences of 0.2 in
    both channels do not publish and a difference of 0.4 in either does. *)
Theorem hysteresis_gate :
  (forall (num : Type) (N : Number num) (AHRS : Type)
          (update : AHRS -> num -> num -> num -> num -> num -> num -> num -> num -> num -> AHRS)
          (getEulerAngles : AHRS -> EulerAngles num)
          (declination : num) (r : Refs AHRS) (a g m : Vec3 num),
     accel (last r) = Some a -> gyro (last r) = Some g -> mag (last r) = Some m ->
     let e := getEulerAngles
                (update (madgwick r) (- z g)%js (x g) (- y g)%js
                        (- z a)%js (x a) (- y a)%js (- z m)%js (x m) (- y m)%js) in
     let h := sensorHistory r in
     let filteredAz :=
       snd (applyMovingAverage (azDeg (heading e) declination) (azimuth h) (windowSize h)) in
     let filteredAlt :=
       snd (applyMovingAverage (altDeg (pitch e)) (altitude h) (windowSize h)) in
     let azDiff := Math_abs (filteredAz - az (previousAzAlt r))%js in
     let altDiff := Math_abs (filteredAlt - alt (previousAzAlt r))%js in
     let exceeds :=
       ((Math_min azDiff (int 360 - azDiff) >? lit 3 10)%js || (altDiff >? lit 3 10)%js) in
     snd (tryFuse update getEulerAngles declination r)
     = (if exceeds then Some {| az := filteredAz; alt := filteredAlt |} else None)
     /\ previousAzAlt (fst (tryFuse update getEulerAngles declination r))
        = (if exceeds then {| az := filteredAz; alt := filteredAlt |} else previousAzAlt r))
  /\ (forall (AHRS : Type)
             (update : AHRS -> Q -> Q -> Q -> Q -> Q -> Q -> Q -> Q -> Q -> AHRS)
             (getEulerAngles : AHRS -> EulerAngles Q)
             (declination : Q) (r : Refs AHRS) (a g m : Vec3 Q),
     accel (last r) = Some a -> gyro (last r) = Some g -> mag (last r) = Some m ->
     let e := getEulerAngles
                (update (madgwick r) (- z g)%js (x g) (- y g)%js
                        (- z a)%js (x a) (- y a)%js (- z m)%js (x m) (- y m)%js) in
     let h := sensorHistory r in
     let filteredAz :=
       snd (applyMovingAverage (azDeg (heading e) declination) (azimuth h) (windowSize h)) in
     let filteredAlt :=
       snd (applyMovingAverage (altDeg (pitch e)) (altitude h) (windowSize h)) in
     let azDiff := Qabs (filteredAz - az (previousAzAlt r)) in
     let altDiff := Qabs (filteredAlt - alt (previousAzAlt r)) in
     let exceeds := ((3 # 10) < Qmin azDiff (360 - azDiff) \/ (3 # 10) < altDiff)%Q in
     let published := snd (tryFuse update getEulerAngles declination r) in
     let previous' := previousAzAlt (fst (tryFuse update getEulerAngles declination r)) in
     (published = Some {| az := filteredAz; alt := filteredAlt |} <-> exceeds)
     /\ (published = None <-> ~ exceeds)
     /\ (previous' = match published with Some p => p | None => previousAzAlt r end)
     /\ ((azDiff == 2 # 10)%Q -> (altDiff == 2 # 10)%Q -> published = None)
     /\ ((azDiff == 4 # 10)%Q \/ (altDiff == 4 # 10)%Q ->
         published = Some {| az := filteredAz; alt := filteredAlt |})).
Proof.
  split.
  - intros num N AHRS update getEulerAngles declination r a g m.
    apply tryFuse_published.
  - intros AHRS update getEulerAngles declination r a g m.
    apply tryFuse_gate_exact.
Qed.

Lemma hysteresis_gate_witness :
  accel (last mountedRefs) = Some reading
  /\ gyro (last mountedRefs) = Some reading
  /\ mag (last mountedRefs) = Some reading
  /\ snd (tryFuse keepAngles (fun f => f) 0%Q mountedRefs) <> None.
Proof.
  assert (Ha : accel (last mountedRefs) = Some reading) by reflexivity.
  assert (Hg : gyro (last mountedRefs) = Some reading) by reflexivity.
  assert (Hm : mag (last mountedRefs) = Some reading) by reflexivity.
  split; [exact Ha|]. split; [exact Hg|]. split; [exact Hm|].
  intros Hnone.
  apply (proj1 (proj1 (proj2
           (proj2 hysteresis_gate (EulerAngles Q) keepAngles (fun f => f) 0%Q mountedRefs
              reading reading reading Ha Hg Hm))) Hnone).
  left. vm_compute. reflexivity.
Defined.

(** *** The same runs in binary64 *)

Example gate_binary64 :
  let previous : AzAlt float := {| az := int 10; alt := int 20 |} in
  shouldUpdateOrientation previous (lit 102 10) (lit 202 10) = false
  /\ shouldUpdateOrientation previous (lit 104 10) (int 20) = true
  /\ shouldUpdateOrientation previous (int 10) (lit 204 10) = true
  /\ shouldUpdateOrientation {| az := lit 3599 10; alt := int 0 |} (lit 1 10 : float) (int 0) = false.
Proof. repeat split; vm_compute; reflexivity. Qed.

Example normalizedAzDiff_binary64 :
  normalizedAzDiff (int 350 : float) (int 10) = int 20
  /\ normalizedAzDiff (int 10 : float) (int 350) = int 20
  /\ normalizedAzDiff (int 0 : float) (int 180) = int 180.
Proof. repeat split; vm_compute; reflexivity. Qed.

Example raDiff_binary64 :
  calculateDirection_raDiff (int 0 : float) (int 12) = int (-180)
  /\ calculateDirection_raDiff (int 23 : float) (int 1) = int (-30)
  /\ calculateDirection_raDiff (int 1 : float) (int 23) = int 30.
Proof. repeat split; vm_compute; reflexivity. Qed.

(** In binary64 the products by 15 round, so the difference of a pointing
    12 h ahead of the target need not be -180, and -180 also occurs for a
    pointing that is not 12 h ahead. *)
Example raDiff_binary64_boundary :
  let t := 0x1.200000000000ap+3%float in
  PrimFloat.sub (PrimFloat.add t 12) t = 12%float
  /\ calculateDirection_raDiff t (PrimFloat.add t 12) = 0x1.67fffffffffffp+7%float
  /\ calculateDirection_raDiff 0x1p-60%float 12%float = (-180)%float.
Proof. repeat split; vm_compute; reflexivity. Qed.

(** *** Conversion to degrees, in exact arithmetic *)

Lemma azDeg_exact (heading declination : Q) :
  azDeg heading declination
  = Qrem (Qrem (heading * 180 / Math_PI) 360 + declination + 360) 360.
Proof. reflexivity. Qed.

Lemma azDeg_lt_360 (heading declination : Q) : (azDeg heading declination < 360)%Q.
Proof.
  rewrite azDeg_exact.
  set (s := (Qrem (heading * 180 / Math_PI) 360 + declination + 360)%Q).
  destruct (Qlt_le_dec s 0) as [L | L].
  - assert (R := @Qrem_nonpos s 360 ltac:(lra) ltac:(reflexivity)). lra.
  - assert (R := @Qrem_nonneg s 360 L ltac:(reflexivity)). lra.
Qed.

(** The azimuth is in [0,360) when the first remainder plus the declination
    is not below -360, and not above 0 otherwise. *)
Lemma azDeg_range (heading declination : Q) :
  let first := Qrem (heading * 180 / Math_PI) 360 in
  ((-360 <= first + declination)%Q -> (0 <= azDeg heading declination < 360)%Q)
  /\ ((first + declination < -360)%Q -> (azDeg heading declination <= 0)%Q).
Proof.
  intros first. rewrite azDeg_exact. fold first. split; intros L.
  - apply Qrem_nonneg; [lra | reflexivity].
  - apply Qrem_nonpos; [lra | reflexivity].
Qed.

Lemma Qrem_small_abs (x y : Q) : (- y < x < y)%Q -> (Qrem x y == x)%Q.
Proof.
  intros [L U]. destruct (Qlt_le_dec x 0) as [N | P].
  - assert (E := Qrem_opp (- x) y). rewrite Qopp_opp_eq in E.
    rewrite E, Qrem_small by lra. ring.
  - apply Qrem_small. lra.
Qed.

(** For a heading in [-pi, pi] and a declination in [-180, 180] the azimuth is
    in [0,360). *)
Lemma azDeg_range_typical (heading declination : Q) :
  (- Math_PI <= heading <= Math_PI)%Q -> (-180 <= declination <= 180)%Q ->
  (0 <= azDeg heading declination < 360)%Q.
Proof.
  intros Hh Hd.
  assert (Hpi : (0 < Math_PI)%Q) by reflexivity.
  assert (Hx : (-180 <= heading * 180 / Math_PI <= 180)%Q).
  { split; [apply Qle_shift_div_l | apply Qle_shift_div_r]; try exact Hpi; lra. }
  apply (proj1 (azDeg_range heading declination)).
  rewrite Qrem_small_abs by lra. lra.
Qed.

(** For a pitch in [-pi/2, pi/2] the altitude is in [-90, 90]. *)
Lemma altDeg_range (pitch : Q) :
  (- (Math_PI / 2) <= pitch <= Math_PI / 2)%Q -> (-90 <= altDeg pitch <= 90)%Q.
Proof.
  intros Hp.
  assert (Hpi : (0 < Math_PI)%Q) by reflexivity.
  change (altDeg pitch) with (pitch * 180 / Math_PI)%Q.
  change (Math_PI / 2)%Q with (Math_PI * (1 # 2))%Q in Hp.
  split; [apply Qle_shift_div_l | apply Qle_shift_div_r]; try exact Hpi; lra.
Qed.

(** Both variants of [tryFuse] publish these conversions of the angles the
    filter reports. *)
Lemma App_tryFuse_published {num} `{Number num} (AHRS : Type)
  (update : AHRS -> num -> num -> num -> num -> num -> num -> num -> num -> num -> AHRS)
  (getEulerAngles : AHRS -> EulerAngles num)
  (declination : num) (madgwick : AHRS) (last : Last num) (a g m : Vec3 num) :
  accel last = Some a -> gyro last = Some g -> mag last = Some m ->
  let e := getEulerAngles
             (update madgwick (- z g)%js (x g) (- y g)%js
                     (- z a)%js (x a) (- y a)%js (- z m)%js (x m) (- y m)%js) in
  snd (App.tryFuse update getEulerAngles declination madgwick last)
  = Some {| az := azDeg (heading e) declination; alt := altDeg (pitch e) |}.
Proof.
  intros Ha Hg Hm. unfold App.tryFuse. now rewrite Ha, Hg, Hm.
Qed.

(** C8 at a heading of -90 degrees with a declination measured as
    2 - 358 = -356: the azimuth is -86, in exact arithmetic and in binary64,
    and it is what [tryFuse] publishes in both variants of the application. *)
Theorem azDeg_negative :
  (azDeg (- (Math_PI / 2))%Q (2 - 358)%Q == -86)%Q
  /\ ~ (0 <= azDeg (- (Math_PI / 2))%Q (2 - 358)%Q)%Q
  /\ azDeg (- (Math_PI / 2))%float (2 - 358)%float = (-86)%float
  /\ match snd (App.tryFuse keepAngles (fun f => f) (2 - 358)%Q facingWest readings) with
     | Some p => (az p == -86)%Q
     | None => False
     end
  /\ match snd (tryFuse keepAngles (fun f => f) (2 - 358)%Q westRefs) with
     | Some p => (az p == -86)%Q
     | None => False
     end.
Proof.
  split; [vm_compute; reflexivity|].
  split; [intros L; apply L; vm_compute; reflexivity|].
  split; [vm_compute; reflexivity|].
  split; vm_compute; reflexivity.
Qed.

(** *** The circular difference and the RA difference in binary64 *)

Section Binary64Ranges.
Import Binary64 Binary64_properties.
Local Open Scope Z_scope.

Lemma fval_int (n : Z) (f : float) :
  (int n : float) = f -> fval f = Some (n * 2 ^ B) -> fval (int n : float) = Some (n * 2 ^ B).
Proof. now intros ->. Qed.

Lemma fval_360 : fval (int 360 : float) = Some (360 * 2 ^ B).
Proof. vm_compute. reflexivity. Qed.

Lemma fval_180 : fval (int 180 : float) = Some (180 * 2 ^ B).
Proof. vm_compute. reflexivity. Qed.

Lemma fval_minus_180 : fval (- int 180 : float)%js = Some (- 180 * 2 ^ B).
Proof. vm_compute. reflexivity. Qed.

Lemma fval_24 : fval (int 24 : float) = Some (24 * 2 ^ B).
Proof. vm_compute. reflexivity. Qed.

Lemma fval_15 : fval (int 15 : float) = Some (15 * 2 ^ B).
Proof. vm_compute. reflexivity. Qed.

Lemma is_nan_fval (a : float) (va : Z) : fval a = Some va -> is_nan a = false.
Proof.
  intros Ea. unfold is_nan. rewrite eqb_spec. unfold SFeqb.
  rewrite (@SFcompare_sval _ _ va va (Prim2SF_valid a) (Prim2SF_valid a) Ea Ea).
  now rewrite Z.compare_refl.
Qed.

Lemma float_min_cases (d y : float) (vd vy : Z) :
  fval d = Some vd -> fval y = Some vy ->
  exists r vr, float_min d y = r /\ fval r = Some vr /\ vr <= vd /\ vr <= vy
               /\ (vr = vd \/ vr = vy).
Proof.
  intros Ed Ey. unfold float_min.
  rewrite (is_nan_fval _ Ed), (is_nan_fval _ Ey). cbn [orb].
  rewrite (ltb_fval _ _ _ _ Ed Ey), (ltb_fval _ _ _ _ Ey Ed).
  destruct (Z.ltb_spec vd vy) as [L1|L1].
  - exists d, vd. repeat split; auto; lia.
  - destruct (Z.ltb_spec vy vd) as [L2|L2].
    + exists y, vy. repeat split; auto; lia.
    + assert (vd = vy) by lia. subst vy.
      destruct (classify d); eexists _, vd; (split; [reflexivity|]);
        (split; [eassumption|]); lia.
Qed.

(** In binary64 the circular difference is symmetric for all floats, and at
    most 180 on [0,360). *)
Lemma normalizedAzDiff_binary64_bounded (a b : float) :
  PrimFloat.leb (int 0) a = true -> PrimFloat.ltb a (int 360) = true ->
  PrimFloat.leb (int 0) b = true -> PrimFloat.ltb b (int 360) = true ->
  normalizedAzDiff a b = normalizedAzDiff b a
  /\ PrimFloat.leb (normalizedAzDiff a b) (int 180) = true.
Proof.
  intros H0a Ha H0b Hb.
  assert (Hsym : normalizedAzDiff a b = normalizedAzDiff b a).
  { unfold normalizedAzDiff. cbn [Math_abs Math_min sub binary64].
    now rewrite (float_abs_sub_sym a b). }
  split; [exact Hsym|].
  assert (PB : 0 < 2 ^ B) by (apply pow2_pos; unfold B; lia).
  assert (N360 : 0 < 360 < 2 ^ 53) by (split; reflexivity).
  assert (N180 : 0 < 180 < 2 ^ 53) by (split; reflexivity).
  change (int 0 : float) with 0%float in H0a, H0b.
  destruct (fval_between a (int 360) _ fval_360 H0a Ha) as (va & Ea & Hva).
  destruct (fval_between b (int 360) _ fval_360 H0b Hb) as (vb & Eb & Hvb).
  destruct (sub_fval a b va vb 360 Ea Eb N360 ltac:(lia)) as (vs & Es & Hs & _).
  assert (Ed := abs_fval _ _ Es).
  destruct (sub_fval (int 360) (abs (a - b)) _ _ 360 fval_360 Ed N360 ltac:(lia))
    as (vy & Ey & Hy & _).
  assert (Hy180 : 180 * 2 ^ B < Z.abs vs -> Z.abs vy <= 180 * 2 ^ B).
  { intros Hlt.
    destruct (sub_fval (int 360) (abs (a - b)) _ _ 180 fval_360 Ed N180 ltac:(lia))
      as (vy' & Ey' & Hy' & _).
    rewrite Ey in Ey'. injection Ey' as <-. exact Hy'. }
  destruct (float_min_cases _ _ Ed Ey) as (r & vr & Er & Evr & Hrd & Hry & Hcase).
  change (normalizedAzDiff a b)
    with (float_min (abs (a - b)) (PrimFloat.sub (int 360) (abs (a - b)))).
  rewrite Er, (leb_fval _ _ _ _ Evr fval_180).
  apply Z.leb_le. lia.
Qed.

(** In binary64 the RA difference of two right ascensions in [0,24) lies in
    [-180,180]. *)
Lemma calculateDirection_raDiff_binary64_range (t c : float) :
  PrimFloat.leb (int 0) t = true -> PrimFloat.ltb t (int 24) = true ->
  PrimFloat.leb (int 0) c = true -> PrimFloat.ltb c (int 24) = true ->
  PrimFloat.leb (- int 180)%js (calculateDirection_raDiff t c) = true
  /\ PrimFloat.leb (calculateDirection_raDiff t c) (int 180) = true.
Proof.
  intros H0t Ht H0c Hc.
  assert (PB : 0 < 2 ^ B) by (apply pow2_pos; unfold B; lia).
  assert (N360 : 0 < 360 < 2 ^ 53) by (split; reflexivity).
  assert (N180 : 0 < 180 < 2 ^ 53) by (split; reflexivity).
  change (int 0 : float) with 0%float in H0t, H0c.
  destruct (fval_between t (int 24) _ fval_24 H0t Ht) as (vt & Et & Hvt).
  destruct (fval_between c (int 24) _ fval_24 H0c Hc) as (vc & Ec & Hvc).
  destruct (mul_fval t (int 15) vt _ 360 Et fval_15 N360 ltac:(nia)) as (vT & ET & HT & HT0 & _).
  destruct (mul_fval c (int 15) vc _ 360 Ec fval_15 N360 ltac:(nia)) as (vC & EC & HC & HC0 & _).
  specialize (HT0 ltac:(nia)). specialize (HC0 ltac:(nia)).
  destruct (sub_fval _ _ vT vC 360 ET EC N360 ltac:(lia)) as (vr & Er & Hr & _).
  unfold calculateDirection_raDiff.
  cbn [mul sub add lt neg binary64].
  set (r := PrimFloat.sub (PrimFloat.mul t (int 15)) (PrimFloat.mul c (int 15))) in *.
  rewrite (ltb_fval _ _ _ _ fval_180 Er).
  destruct (Z.ltb_spec (180 * 2 ^ B) vr) as [L1|L1].
  - destruct (sub_fval r (int 360) vr _ 180 Er fval_360 N180 ltac:(lia))
      as (v1 & E1 & H1 & _ & H1neg).
    specialize (H1neg ltac:(lia)).
    rewrite (ltb_fval _ _ _ _ E1 fval_minus_180).
    destruct (Z.ltb_spec v1 (- 180 * 2 ^ B)) as [L2|L2]; [lia|].
    rewrite (leb_fval _ _ _ _ fval_minus_180 E1), (leb_fval _ _ _ _ E1 fval_180).
    split; apply Z.leb_le; lia.
  - rewrite (ltb_fval _ _ _ _ Er fval_minus_180).
    destruct (Z.ltb_spec vr (- 180 * 2 ^ B)) as [L2|L2].
    + destruct (add_fval r (int 360) vr _ 180 Er fval_360 N180 ltac:(lia))
        as (v2 & E2 & H2 & H2pos & _).
      specialize (H2pos ltac:(lia)).
      rewrite (leb_fval _ _ _ _ fval_minus_180 E2), (leb_fval _ _ _ _ E2 fval_180).
      split; apply Z.leb_le; lia.
    + rewrite (leb_fval _ _ _ _ fval_minus_180 Er), (leb_fval _ _ _ _ Er fval_180).
      split; apply Z.leb_le; lia.
Qed.

End Binary64Ranges.

(** C9: on azimuths in [0,360) the circular difference of the hysteresis
    gate, [min(|a-b|, 360-|a-b|)], is symmetric and at most 180, in exact
    arithmetic and in binary64. *)
Theorem normalizedAzDiff_symmetric_bounded :
  (forall a b : Q,
      (0 <= a < 360)%Q -> (0 <= b < 360)%Q ->
      normalizedAzDiff a b = Qmin (Qabs (a - b)) (360 - Qabs (a - b))
      /\ (normalizedAzDiff a b == normalizedAzDiff b a)%Q
      /\ (normalizedAzDiff a b <= 180)%Q)
  /\ (forall a b : float,
      PrimFloat.leb (int 0) a = true -> PrimFloat.ltb a (int 360) = true ->
      PrimFloat.leb (int 0) b = true -> PrimFloat.ltb b (int 360) = true ->
      normalizedAzDiff a b = normalizedAzDiff b a
      /\ PrimFloat.leb (normalizedAzDiff a b) (int 180) = true).
Proof.
  split.
  - exact normalizedAzDiff_exact_bounded.
  - exact normalizedAzDiff_binary64_bounded.
Qed.

Lemma normalizedAzDiff_symmetric_bounded_witness :
  ((0 <= 350 < 360)%Q /\ (0 <= 10 < 360)%Q
   /\ (normalizedAzDiff (350 : Q) 10 == normalizedAzDiff (10 : Q) 350)%Q
   /\ (normalizedAzDiff (350 : Q) 10 <= 180)%Q)
  /\ (PrimFloat.leb (int 0) (int 350) = true /\ PrimFloat.ltb (int 350) (int 360) = true
      /\ PrimFloat.leb (int 0) (int 10) = true /\ PrimFloat.ltb (int 10) (int 360) = true
      /\ PrimFloat.leb (normalizedAzDiff (int 350 : float) (int 10)) (int 180) = true).
Proof.
  assert (Ha : (0 <= 350 < 360)%Q) by (split; [discriminate | reflexivity]).
  assert (Hb : (0 <= 10 < 360)%Q) by (split; [discriminate | reflexivity]).
  assert (F1 : PrimFloat.leb (int 0) (int 350) = true) by (vm_compute; reflexivity).
  assert (F2 : PrimFloat.ltb (int 350) (int 360) = true) by (vm_compute; reflexivity).
  assert (F3 : PrimFloat.leb (int 0) (int 10) = true) by (vm_compute; reflexivity).
  assert (F4 : PrimFloat.ltb (int 10) (int 360) = true) by (vm_compute; reflexivity).
  split.
  - split; [exact Ha|]. split; [exact Hb|].
    exact (proj2 (proj1 normalizedAzDiff_symmetric_bounded 350%Q 10%Q Ha Hb)).
  - split; [exact F1|]. split; [exact F2|]. split; [exact F3|]. split; [exact F4|].
    exact (proj2 (proj2 normalizedAzDiff_symmetric_bounded (int 350) (int 10) F1 F2 F3 F4)).
Defined.

(** C7, as amended: for right ascensions in [0,24) hours the RA difference
    of the bearing calculator lies in the closed interval [-180,180], in exact
    arithmetic and in binary64, and the bound -180 is attained: with the
    target at 0 h and the pointing at 12 h. *)
Theorem calculateDirection_raDiff_range :
  (forall t c : Q,
      (0 <= t < 24)%Q -> (0 <= c < 24)%Q ->
      (-180 <= calculateDirection_raDiff t c <= 180)%Q)
  /\ (forall t c : float,
      PrimFloat.leb (int 0) t = true -> PrimFloat.ltb t (int 24) = true ->
      PrimFloat.leb (int 0) c = true -> PrimFloat.ltb c (int 24) = true ->
      PrimFloat.leb (- int 180)%js (calculateDirection_raDiff t c) = true
      /\ PrimFloat.leb (calculateDirection_raDiff t c) (int 180) = true)
  /\ (calculateDirection_raDiff (0 : Q) 12 == -180)%Q
  /\ calculateDirection_raDiff (int 0 : float) (int 12) = (- int 180)%js.
Proof.
  split; [|split; [|split]].
  - intros t c Ht Hc. exact (proj1 (calculateDirection_raDiff_exact_range Ht Hc)).
  - exact calculateDirection_raDiff_binary64_range.
  - reflexivity.
  - vm_compute. reflexivity.
Qed.

Lemma calculateDirection_raDiff_range_witness :
  ((0 <= 23 < 24)%Q /\ (0 <= 1 < 24)%Q
   /\ (-180 <= calculateDirection_raDiff (23 : Q) 1 <= 180)%Q)
  /\ (PrimFloat.leb (int 0) (int 23) = true /\ PrimFloat.ltb (int 23) (int 24) = true
      /\ PrimFloat.leb (int 0) (int 1) = true /\ PrimFloat.ltb (int 1) (int 24) = true
      /\ PrimFloat.leb (calculateDirection_raDiff (int 23 : float) (int 1)) (int 180) = true).
Proof.
  assert (Ht : (0 <= 23 < 24)%Q) by (split; [discriminate | reflexivity]).
  assert (Hc : (0 <= 1 < 24)%Q) by (split; [discriminate | reflexivity]).
  assert (F1 : PrimFloat.leb (int 0) (int 23) = true) by (vm_compute; reflexivity).
  assert (F2 : PrimFloat.ltb (int 23) (int 24) = true) by (vm_compute; reflexivity).
  assert (F3 : PrimFloat.leb (int 0) (int 1) = true) by (vm_compute; reflexivity).
  assert (F4 : PrimFloat.ltb (int 1) (int 24) = true) by (vm_compute; reflexivity).
  split.
  - split; [exact Ht|]. split; [exact Hc|].
    exact (proj1 calculateDirection_raDiff_range 23%Q 1%Q Ht Hc).
  - split; [exact F1|]. split; [exact F2|]. split; [exact F3|]. split; [exact F4|].
    exact (proj2 (proj1 (proj2 calculateDirection_raDiff_range) (int 23) (int 1) F1 F2 F3 F4)).
Defined.

End App_new_properties.

(** * Further properties of the code *)

(** ** Arrays and comparisons *)

Lemma Array_map_normal {A B} (f : A -> completion B) (g : A -> B) (l : list A) :
  (forall a, In a l -> f a = Normal (g a)) -> Array_map f l = Normal (map g l).
Proof.
  induction l as [|a l IH]; intros Hf; simpl; [reflexivity|].
  rewrite (Hf a (or_introl eq_refl)). simpl.
  rewrite IH by (intros b Ib; apply Hf; now right). reflexivity.
Qed.

Lemma Array_map_total {A B} (f : A -> completion B) (l : list A) :
  (forall a, In a l -> exists b, f a = Normal b) ->
  exists bs, Array_map f l = Normal bs /\ List.length bs = List.length l.
Proof.
  induction l as [|a l IH]; intros Hf; simpl.
  - exists []. auto.
  - destruct (Hf a (or_introl eq_refl)) as (b & ->).
    destruct IH as (bs & -> & L); [intros c Ic; apply Hf; now right|].
    exists (b :: bs). simpl. auto.
Qed.

Lemma length_dropNull {A} (l : list (option A)) : (List.length (dropNull l) <= List.length l)%nat.
Proof. induction l as [|[a|] l IH]; simpl; lia. Qed.

Lemma In_combine_map {A B} (f : A -> option B) (l : list A) (l' : list B) (a : A) (b : B) :
  map f l = map Some l' -> In (a, b) (combine l l') -> In a l /\ f a = Some b.
Proof.
  revert l'; induction l as [|x l IH]; intros [|y l'] E I; cbn in *; try tauto; try discriminate.
  injection E as Ex E. destruct I as [I|I].
  - injection I as -> ->. auto.
  - destruct (IH l' E I). auto.
Qed.

Lemma last_cons_default {A} (a : A) (l : list A) (d d' : A) :
  List.last (a :: l) d = List.last (a :: l) d'.
Proof.
  revert a; induction l as [|b l IH]; intros a; [reflexivity|].
  change (List.last (b :: l) d = List.last (b :: l) d'). apply IH.
Qed.

Lemma firstn_short {A} (n : nat) (l : list A) :
  (List.length (firstn n l) < n)%nat -> firstn n l = l.
Proof.
  intros L. rewrite length_firstn in L. apply firstn_all2. lia.
Qed.

Section ArrayPermutation.
Context {num : Type} `{Number num} {A : Type}.
Variable compareFn : A -> A -> num.

Lemma Array_insert_Permutation (x : A) (l : list A) :
  Permutation (Array_insert compareFn x l) (x :: l).
Proof.
  induction l as [|y l IH]; simpl; [reflexivity|].
  destruct (lt _ _); [|reflexivity].
  rewrite IH. apply perm_swap.
Qed.

Lemma Array_sort_Permutation (l : list A) :
  Permutation (Array_sort compareFn l) l.
Proof.
  induction l as [|x l IH]; simpl; [reflexivity|].
  rewrite Array_insert_Permutation. now constructor.
Qed.

End ArrayPermutation.

(** The sort keeps the order of the elements of equal key. *)
Section StableByKey.
Variable A : Type.
Variable key : A -> Q.
Variable k : Q.

Let compareFn (a b : A) : Q := (key a - key b)%Q.
Let sameKey (a : A) : bool := Qeq_bool (key a) k.

Lemma Array_insert_stable (x : A) (l : list A) :
  filter sameKey (Array_insert compareFn x l) = filter sameKey (x :: l).
Proof.
  induction l as [|y l IH]; [reflexivity|].
  cbn [Array_insert].
  match goal with |- context [if ?c then _ else _] => destruct c eqn:E end; [|reflexivity].
  apply Qltb_lt in E. unfold compareFn in E.
  cbn [filter] in *. rewrite IH.
  destruct (sameKey x) eqn:Ex; [|reflexivity].
  destruct (sameKey y) eqn:Ey; [|reflexivity].
  unfold sameKey in Ex, Ey. apply Qeq_bool_iff in Ex, Ey. exfalso.
  change (0 < key x - key y)%Q in E. lra.
Qed.

Lemma Array_sort_stable (l : list A) :
  filter sameKey (Array_sort compareFn l) = filter sameKey l.
Proof.
  induction l as [|x l IH]; [reflexivity|].
  cbn [Array_sort fold_right]. change (fold_right (Array_insert compareFn) [] l)
    with (Array_sort compareFn l).
  rewrite Array_insert_stable. cbn [filter]. now rewrite IH.
Qed.

End StableByKey.

(** ** StarData.js: the positions of all bodies, and what a search returns *)

Module StarData_search.
Import StarData StarData_vocabulary StarData_properties.

Section Search.
Context {num : Type} `{Number num}.
Variable toLowerCase : jsstring -> jsstring.
Variable Equator :
  Body -> Date -> Observer num -> bool -> bool -> completion (EquatorialCoordinates num).
Variable starData : list (Star num).
Variable now : Date.

Lemma bodyWithPosition_normal observer body :
  exists r, bodyWithPosition toLowerCase Equator now observer body = Normal r
            /\ match r with
               | None => True
               | Some r =>
                   isSolarSystemBody r = true
                   /\ id r = IdString (body_id body)
                   /\ proper r = Some (body_proper body)
                   /\ name r = Some (body_name body)
                   /\ mag r = Some (body_mag body)
               end.
Proof.
  unfold bodyWithPosition.
  destruct (calculateSolarSystemBodyPosition_normal toLowerCase Equator
              (Some (body_name body)) observer now) as ([p|] & Ep); rewrite Ep; simpl.
  - eexists. split; [reflexivity|]. simpl. auto.
  - exists None. auto.
Qed.

(** X1: [getAllSolarSystemBodiesPositions] never throws; without an observer
    it returns the empty array; with one it returns at most ten entries, each
    flagged as a solar-system body and carrying the id, the names and the
    magnitude of an entry of the table. *)
Theorem getAllSolarSystemBodiesPositions_entries (observer : option (Observer num)) :
  exists l,
    getAllSolarSystemBodiesPositions toLowerCase Equator now observer = Normal l
    /\ (observer = None -> l = [])
    /\ (List.length l <= 10)%nat
    /\ (forall r, In r l ->
          isSolarSystemBody r = true
          /\ exists body : SolarSystemBody num,
               In body solarSystemBodies
               /\ id r = IdString (body_id body)
               /\ proper r = Some (body_proper body)
               /\ name r = Some (body_name body)
               /\ mag r = Some (body_mag body)).
Proof.
  unfold getAllSolarSystemBodiesPositions.
  destruct observer as [obs|].
  2:{ exists []. split; [reflexivity|]. split; [reflexivity|]. split; [simpl; lia|]. intros r []. }
  destruct (@Array_map_total _ _ (bodyWithPosition toLowerCase Equator now (Some obs))
              solarSystemBodies) as (bs & E & L).
  { intros body _. destruct (bodyWithPosition_normal (Some obs) body) as (r & Er & _). eauto. }
  rewrite E. simpl. exists (dropNull bs). split; [reflexivity|].
  split; [discriminate|]. split.
  - assert (L' := length_dropNull bs). rewrite L in L'. exact L'.
  - intros r I. apply In_dropNull in I.
    eapply Array_map_In in I; [|exact E]. destruct I as (body & Ib & Eb).
    destruct (bodyWithPosition_normal (Some obs) body) as (r' & Er & Hr).
    rewrite Er in Eb. injection Eb as ->. destruct Hr as (F & Hr).
    split; [exact F|]. exists body. auto.
Qed.

Lemma bodyWithPosition_ephemeris (obs : Observer num) (body : SolarSystemBody num) :
  body_name body <> [] ->
  bodyWithPosition toLowerCase Equator now (Some obs) body
  = Normal match getBodyForName toLowerCase (body_name body) with
           | None => None
           | Some b =>
               match Equator b now obs true true with
               | Normal equ => Some (positioned body equ)
               | Throw _ => None
               end
           end.
Proof.
  intros Hn. unfold bodyWithPosition, calculateSolarSystemBodyPosition, positioned.
  destruct (body_name body) as [|c s] eqn:En; [congruence|].
  destruct (getBodyForName toLowerCase (c :: s)) as [b|]; [|reflexivity].
  destruct (Equator b now obs true true); reflexivity.
Qed.

Lemma table_names_nonempty (body : SolarSystemBody num) :
  In body solarSystemBodies -> body_name body <> [].
Proof.
  intros I. repeat (destruct I as [<- | I]; [discriminate|]). destruct I.
Qed.

Lemma getBodyForName_table :
  Forall (fun body : SolarSystemBody num => toLowerCase (body_name body) = body_id body)
         solarSystemBodies ->
  map (fun body : SolarSystemBody num => getBodyForName toLowerCase (body_name body))
      solarSystemBodies
  = map Some tableBodies.
Proof.
  intros HF. unfold solarSystemBodies in *.
  repeat match goal with
  | HF : Forall _ (_ :: _) |- _ =>
      let E := fresh "E" in
      apply Forall_cons_iff in HF; destruct HF as [E HF]; cbn [body_name body_id] in E
  end.
  unfold getBodyForName. cbn [map body_name].
  rewrite E, E0, E1, E2, E3, E4, E5, E6, E7, E8. reflexivity.
Qed.

(** X2: when lower-casing the name of a table entry gives its id,
    [getAllSolarSystemBodiesPositions] returns, in the order of the table, one
    entry for each body whose ephemeris call succeeds, at the coordinates the
    ephemeris returned for that very body, and skips the bodies whose call
    throws; when no call throws there are ten entries. *)
Theorem getAllSolarSystemBodiesPositions_ephemeris (obs : Observer num) :
  Forall (fun body : SolarSystemBody num => toLowerCase (body_name body) = body_id body)
         solarSystemBodies ->
  let entry (p : SolarSystemBody num * Body) :=
    match Equator (snd p) now obs true true with
    | Normal equ => Some (positioned (fst p) equ)
    | Throw _ => None
    end in
  getAllSolarSystemBodiesPositions toLowerCase Equator now (Some obs)
  = Normal (dropNull (map entry (combine solarSystemBodies tableBodies)))
  /\ ((forall b, exists equ, Equator b now obs true true = Normal equ) ->
      exists l, getAllSolarSystemBodiesPositions toLowerCase Equator now (Some obs) = Normal l
                /\ List.length l = 10%nat).
Proof.
  intros HF entry.
  assert (Hall : getAllSolarSystemBodiesPositions toLowerCase Equator now (Some obs)
                 = Normal (dropNull (map entry (combine solarSystemBodies tableBodies)))).
  { unfold getAllSolarSystemBodiesPositions.
    rewrite (@Array_map_normal _ _ (bodyWithPosition toLowerCase Equator now (Some obs))
               (fun body => match getBodyForName toLowerCase (body_name body) with
                            | None => None
                            | Some b => entry (body, b)
                            end)).
    2:{ intros body I. apply bodyWithPosition_ephemeris. now apply table_names_nonempty. }
    cbn [bind]. do 2 f_equal.
    assert (Hg := getBodyForName_table HF).
    revert Hg. generalize tableBodies. generalize (@solarSystemBodies num _).
    induction l as [|body l IH]; intros [|b bs] Hg; try discriminate; [reflexivity|].
    cbn [map combine] in *. injection Hg as Eb Hg. rewrite Eb. f_equal. now apply IH. }
  split; [exact Hall|].
  intros Hok. eexists. split; [exact Hall|].
  assert (Hlen : forall l : list (SolarSystemBody num * Body),
             List.length (dropNull (map entry l)) = List.length l).
  { induction l as [|p l IH]; [reflexivity|]. cbn [map]. unfold entry at 1.
    destruct (Hok (snd p)) as (equ & ->). simpl. now rewrite IH. }
  rewrite Hlen. reflexivity.
Qed.

Lemma solarSystemResults_inv lowerText observer r :
  In r (solarSystemResults toLowerCase Equator now lowerText observer) ->
  exists body b obs equ,
    In body solarSystemBodies
    /\ (includes (toLowerCase (body_proper body)) lowerText
        || includes (toLowerCase (body_name body)) lowerText) = true
    /\ observer = Some obs
    /\ getBodyForName toLowerCase (body_name body) = Some b
    /\ Equator b now obs true true = Normal equ
    /\ r = positioned body equ.
Proof.
  unfold solarSystemResults.
  destruct (Array_map _ _) as [l|] eqn:E; [|intros []].
  intros I. apply In_dropNull in I.
  eapply Array_map_In in I; [|exact E]. destruct I as (body & Ib & Eb).
  apply filter_In in Ib as [Ib Hm].
  unfold solarSystemResult, calculateSolarSystemBodyPosition in Eb.
  destruct observer as [obs|]; [|discriminate].
  destruct (body_name body) as [|c s] eqn:En; [discriminate|].
  destruct (getBodyForName toLowerCase (c :: s)) as [b|] eqn:Eg; [|discriminate].
  destruct (Equator b now obs true true) as [equ|] eqn:Ee; [|discriminate].
  simpl in Eb. injection Eb as <-.
  exists body, b, obs, equ. rewrite En. unfold positioned. rewrite En. auto 10.
Qed.

Lemma starResults_source lowerText r :
  In r (starResults toLowerCase starData lowerText) ->
  exists star, In star starData /\ starFilter toLowerCase lowerText star = true
               /\ r = starResult star.
Proof.
  unfold starResults. intros I. apply in_map_iff in I as (star & <- & I).
  apply In_firstn in I. apply filter_In in I as [I F].
  exists star. auto.
Qed.

Lemma searchCelestial_In query observer r :
  In r (searchCelestial toLowerCase Equator starData now query observer) ->
  (2 <= List.length query)%nat
  /\ (In r (solarSystemResults toLowerCase Equator now (toLowerCase query) observer)
      \/ In r (starResults toLowerCase starData (toLowerCase query))).
Proof.
  unfold searchCelestial. intros I.
  destruct (_ <? _)%nat eqn:E; [destruct I|]. apply Nat.ltb_ge in E.
  destruct observer as [obs|]; [|destruct I].
  split; [exact E|].
  apply In_firstn, In_Array_sort, in_app_or in I. exact I.
Qed.

(** X3: every entry [searchCelestial] returns matches the query: its
    lower-cased proper name or its lower-cased name contains the lower-cased
    query. *)
Theorem searchCelestial_matches_query query observer r :
  In r (searchCelestial toLowerCase Equator starData now query observer) ->
  (includes (lowerOrEmpty toLowerCase (proper r)) (toLowerCase query)
   || includes (lowerOrEmpty toLowerCase (name r)) (toLowerCase query)) = true.
Proof.
  intros I. apply searchCelestial_In in I as [_ [I|I]].
  - apply solarSystemResults_inv in I as (body & b & obs & equ & _ & Hm & _ & _ & _ & ->).
    exact Hm.
  - apply starResults_source in I as (star & _ & F & ->).
    unfold starFilter in F. destruct (isSolarSystemBodyItem toLowerCase star); [discriminate|].
    exact F.
Qed.

(** X4: an entry [searchCelestial] returns that is flagged as a solar-system
    body is an entry of the table at the coordinates the ephemeris returned
    for that body, for the observer and at the instant of the search; an entry
    that is not flagged copies a record of the catalogue that the star filter
    does not take for a solar-system body. *)
Theorem searchCelestial_provenance query observer r :
  In r (searchCelestial toLowerCase Equator starData now query observer) ->
  if isSolarSystemBody r then
    exists body b obs equ,
      In body solarSystemBodies
      /\ observer = Some obs
      /\ getBodyForName toLowerCase (body_name body) = Some b
      /\ Equator b now obs true true = Normal equ
      /\ r = positioned body equ
  else
    exists star,
      In star starData
      /\ isSolarSystemBodyItem toLowerCase star = false
      /\ r = starResult star.
Proof.
  intros I. apply searchCelestial_In in I as [_ [I|I]].
  - apply solarSystemResults_inv in I as (body & b & obs & equ & Ib & _ & Eo & Eg & Ee & ->).
    cbn [isSolarSystemBody positioned]. exists body, b, obs, equ. auto.
  - apply starResults_source in I as (star & Is & F & ->).
    cbn [isSolarSystemBody starResult]. exists star.
    unfold starFilter in F. destruct (isSolarSystemBodyItem toLowerCase star); [discriminate|].
    auto.
Qed.

(** X5: the sort loses nothing: the entries returned, together with the
    entries cut off behind the fifteenth, are a permutation of the results of
    the two passes; nothing is cut off when the passes give at most fifteen. *)
Theorem searchCelestial_keeps_results query (obs : Observer num) :
  (2 <= List.length query)%nat ->
  let all := solarSystemResults toLowerCase Equator now (toLowerCase query) (Some obs)
             ++ starResults toLowerCase starData (toLowerCase query) in
  exists dropped,
    Permutation (searchCelestial toLowerCase Equator starData now query (Some obs) ++ dropped) all
    /\ List.length dropped = (List.length all - 15)%nat.
Proof.
  intros Hlen all. unfold searchCelestial.
  destruct (_ <? _)%nat eqn:E; [apply Nat.ltb_lt in E; lia|].
  fold all. exists (skipn 15 (Array_sort compareMag all)). split.
  - rewrite firstn_skipn. apply Array_sort_Permutation.
  - rewrite length_skipn, length_Array_sort. reflexivity.
Qed.

Lemma solarSystemResult_ephemeris (obs : Observer num) (body : SolarSystemBody num) :
  body_name body <> [] ->
  solarSystemResult toLowerCase Equator now (Some obs) body
  = Normal match getBodyForName toLowerCase (body_name body) with
           | None => None
           | Some b =>
               match Equator b now obs true true with
               | Normal equ => Some (positioned body equ)
               | Throw _ => None
               end
           end.
Proof.
  intros Hn. unfold solarSystemResult, calculateSolarSystemBodyPosition, positioned.
  destruct (body_name body) as [|c s] eqn:En; [congruence|].
  destruct (getBodyForName toLowerCase (c :: s)) as [b|]; [|reflexivity].
  destruct (Equator b now obs true true); reflexivity.
Qed.

(** X8: when the two passes give at most fifteen results, the search is
    complete: it returns every body of the table a name of which contains the
    query and whose ephemeris call succeeds, and every record of the catalogue
    that passes the star filter. *)
Theorem searchCelestial_complete (query : jsstring) (obs : Observer num) :
  Forall (fun body : SolarSystemBody num => toLowerCase (body_name body) = body_id body)
         solarSystemBodies ->
  (2 <= List.length query)%nat ->
  (List.length (solarSystemResults toLowerCase Equator now (toLowerCase query) (Some obs)
                ++ starResults toLowerCase starData (toLowerCase query)) <= 15)%nat ->
  (forall body b equ,
      In (body, b) (combine solarSystemBodies tableBodies) ->
      (includes (toLowerCase (body_proper body)) (toLowerCase query)
       || includes (toLowerCase (body_name body)) (toLowerCase query)) = true ->
      Equator b now obs true true = Normal equ ->
      In (positioned body equ)
         (searchCelestial toLowerCase Equator starData now query (Some obs)))
  /\ (forall star,
        In star starData ->
        starFilter toLowerCase (toLowerCase query) star = true ->
        In (starResult star)
           (searchCelestial toLowerCase Equator starData now query (Some obs))).
Proof.
  intros HF Hlen Hcap.
  assert (Hall : forall r,
            In r (solarSystemResults toLowerCase Equator now (toLowerCase query) (Some obs)
                  ++ starResults toLowerCase starData (toLowerCase query)) ->
            In r (searchCelestial toLowerCase Equator starData now query (Some obs))).
  { intros r I. unfold searchCelestial.
    destruct (_ <? _)%nat eqn:E; [apply Nat.ltb_lt in E; lia|].
    rewrite firstn_all2 by (rewrite length_Array_sort; exact Hcap).
    now apply In_Array_sort. }
  assert (Hstars : (List.length (filter (starFilter toLowerCase (toLowerCase query)) starData)
                    <= 20)%nat).
  { rewrite length_app in Hcap. unfold starResults in Hcap.
    rewrite length_map, length_firstn in Hcap. lia. }
  split.
  - intros body b equ I Hm Ee. apply Hall, in_or_app. left.
    destruct (@In_combine_map _ _ _ _ _ body b (getBodyForName_table HF) I) as [Ib Eg]. cbv beta in Eg.
    unfold solarSystemResults.
    rewrite (@Array_map_normal _ _ (solarSystemResult toLowerCase Equator now (Some obs))
               (fun body => match getBodyForName toLowerCase (body_name body) with
                            | None => None
                            | Some b =>
                                match Equator b now obs true true with
                                | Normal equ => Some (positioned body equ)
                                | Throw _ => None
                                end
                            end)).
    2:{ intros body' I'. apply solarSystemResult_ephemeris.
        apply filter_In in I' as [I' _]. now apply table_names_nonempty. }
    apply In_dropNull, in_map_iff. exists body. rewrite Eg, Ee. split; [reflexivity|].
    apply filter_In. auto.
  - intros star I F. apply Hall, in_or_app. right.
    unfold starResults. rewrite firstn_all2 by exact Hstars.
    apply in_map_iff. exists star. split; [reflexivity|]. apply filter_In. auto.
Qed.

End Search.

(** X6: in exact arithmetic the final sort is stable: the entries of any one
    key [mag || 100] keep the order of the two passes, solar-system bodies
    before stars and stars in the order of the catalogue. *)
Theorem searchCelestial_stable toLowerCase Equator (starData : list (Star Q)) now
  (query : jsstring) (obs : Observer Q) (k : Q) :
  (2 <= List.length query)%nat ->
  let all := solarSystemResults toLowerCase Equator now (toLowerCase query) (Some obs)
             ++ starResults toLowerCase starData (toLowerCase query) in
  let sameKey (r : CelestialObject Q) := Qeq_bool (magOr100 r) k in
  searchCelestial toLowerCase Equator starData now query (Some obs)
  = firstn 15 (Array_sort compareMag all)
  /\ filter sameKey (Array_sort compareMag all) = filter sameKey all.
Proof.
  intros Hlen all sameKey. split.
  - unfold searchCelestial.
    destruct (_ <? _)%nat eqn:E; [apply Nat.ltb_lt in E; lia | reflexivity].
  - exact (Array_sort_stable (@magOr100 Q _) k all).
Qed.

Lemma getAllSolarSystemBodiesPositions_ephemeris_witness :
  Forall (fun body : SolarSystemBody Q => asciiLowerCase (body_name body) = body_id body)
         solarSystemBodies
  /\ getAllSolarSystemBodiesPositions asciiLowerCase sampleEquator None (Some (seoul : Observer Q))
     = Normal []
  /\ exists l, getAllSolarSystemBodiesPositions asciiLowerCase sampleEquator noon
                 (Some (seoul : Observer Q)) = Normal l
               /\ List.length l = 10%nat.
Proof.
  assert (HF : Forall (fun body : SolarSystemBody Q => asciiLowerCase (body_name body) = body_id body)
                      solarSystemBodies).
  { repeat constructor. }
  split; [exact HF|]. split.
  - destruct (@getAllSolarSystemBodiesPositions_ephemeris Q _ asciiLowerCase sampleEquator None seoul HF)
      as [E _].
    rewrite E. reflexivity.
  - destruct (@getAllSolarSystemBodiesPositions_ephemeris Q _ asciiLowerCase sampleEquator noon seoul HF)
      as [_ E].
    apply E. intros b. eexists. reflexivity.
Defined.

Lemma searchCelestial_matches_query_witness :
  let r := starResult (altair : Star Q) in
  In r (searchCelestial asciiLowerCase sampleEquator alpCatalogue noon (str "ALP") (Some seoul))
  /\ (includes (lowerOrEmpty asciiLowerCase (proper r)) (asciiLowerCase (str "ALP"))
      || includes (lowerOrEmpty asciiLowerCase (name r)) (asciiLowerCase (str "ALP"))) = true.
Proof.
  intros r.
  assert (I : In r (searchCelestial asciiLowerCase sampleEquator alpCatalogue noon (str "ALP")
                      (Some seoul))).
  { vm_compute. left. reflexivity. }
  split; [exact I|].
  exact (@searchCelestial_matches_query Q _ asciiLowerCase sampleEquator alpCatalogue noon
           (str "ALP") (Some seoul) r I).
Defined.

Lemma searchCelestial_provenance_witness :
  let r := starResult (altair : Star Q) in
  In r (searchCelestial asciiLowerCase sampleEquator alpCatalogue noon (str "ALP") (Some seoul))
  /\ exists star, In star alpCatalogue /\ r = starResult star.
Proof.
  intros r.
  assert (I : In r (searchCelestial asciiLowerCase sampleEquator alpCatalogue noon (str "ALP")
                      (Some seoul))).
  { vm_compute. left. reflexivity. }
  split; [exact I|].
  destruct (@searchCelestial_provenance Q _ asciiLowerCase sampleEquator alpCatalogue noon
              (str "ALP") (Some seoul) r I) as (star & Is & _ & Er).
  exists star. auto.
Defined.

Lemma searchCelestial_keeps_results_witness :
  (2 <= List.length (str "alp"))%nat
  /\ exists dropped,
       Permutation
         (searchCelestial asciiLowerCase sampleEquator alpCatalogue noon (str "alp")
            (Some seoul) ++ dropped)
         (solarSystemResults asciiLowerCase sampleEquator noon (asciiLowerCase (str "alp"))
            (Some (seoul : Observer Q))
          ++ starResults asciiLowerCase alpCatalogue (asciiLowerCase (str "alp")))
       /\ dropped = [].
Proof.
  assert (Hlen : (2 <= List.length (str "alp"))%nat) by (cbn; lia).
  split; [exact Hlen|].
  destruct (@searchCelestial_keeps_results Q _ asciiLowerCase sampleEquator alpCatalogue noon
              (str "alp") seoul Hlen) as (dropped & Hp & Hl).
  exists dropped. split; [exact Hp|].
  destruct dropped; [reflexivity | vm_compute in Hl; discriminate].
Defined.

Lemma searchCelestial_stable_witness :
  (2 <= List.length (str "alp"))%nat
  /\ filter (fun r : CelestialObject Q => Qeq_bool (magOr100 r) 100)
       (Array_sort compareMag
          (solarSystemResults asciiLowerCase sampleEquator noon (asciiLowerCase (str "alp"))
             (Some seoul)
           ++ starResults asciiLowerCase alpCatalogue (asciiLowerCase (str "alp"))))
     = [starResult vega0].
Proof.
  assert (Hlen : (2 <= List.length (str "alp"))%nat) by (cbn; lia).
  split; [exact Hlen|].
  rewrite (proj2 (@searchCelestial_stable asciiLowerCase sampleEquator alpCatalogue noon
                    (str "alp") seoul 100 Hlen)).
  reflexivity.
Defined.

Lemma searchCelestial_complete_witness :
  In (starResult (altair : Star Q))
     (searchCelestial asciiLowerCase sampleEquator alpCatalogue noon (str "alp") (Some seoul)).
Proof.
  assert (HF : Forall (fun body : SolarSystemBody Q => asciiLowerCase (body_name body) = body_id body)
                      solarSystemBodies).
  { repeat constructor. }
  assert (Hlen : (2 <= List.length (str "alp"))%nat) by (cbn; lia).
  assert (Hcap : (List.length
                    (solarSystemResults asciiLowerCase sampleEquator noon
                       (asciiLowerCase (str "alp")) (Some (seoul : Observer Q))
                     ++ starResults asciiLowerCase alpCatalogue (asciiLowerCase (str "alp")))
                  <= 15)%nat).
  { vm_compute. lia. }
  apply (proj2 (@searchCelestial_complete Q _ asciiLowerCase sampleEquator alpCatalogue noon
                  (str "alp") seoul HF Hlen Hcap)).
  - right. left. reflexivity.
  - reflexivity.
Defined.

End StarData_search.

(** ** App_new.js: the sensor pipeline *)

Module App_new_pipeline.
Import App_new App_new_vocabulary App_new_properties.

Section Window.
Context {num : Type} `{Number num}.
Local Open Scope js_scope.

Lemma applyMovingAverage_window (v : num) (history : list num) (w : nat) :
  (List.length history <= w)%nat ->
  fst (applyMovingAverage v history w)
  = skipn (List.length (history ++ [v]) - w) (history ++ [v]).
Proof.
  intros L. unfold applyMovingAverage. cbn [fst].
  destruct (w <? _)%nat eqn:E.
  - apply Nat.ltb_lt in E. rewrite length_app in *. cbn [List.length] in *.
    replace (List.length history + 1 - w)%nat with 1%nat by lia.
    now destruct (history ++ [v]).
  - apply Nat.ltb_ge in E. now replace (_ - w)%nat with 0%nat by lia.
Qed.

(** X11: fed one value after the other, a window that held at most
    [windowSize] values holds the last [windowSize] values of what it held
    followed by what it was fed (all of them while they are fewer), and every
    call returns one average. *)
Theorem movingAverages_window (inputs history : list num) (w : nat) :
  (List.length history <= w)%nat ->
  fst (movingAverages inputs history w)
  = skipn (List.length (history ++ inputs) - w) (history ++ inputs)
  /\ List.length (snd (movingAverages inputs history w)) = List.length inputs.
Proof.
  revert history; induction inputs as [|v inputs IH]; intros history L.
  - cbn [movingAverages fst snd]. rewrite app_nil_r.
    replace (_ - w)%nat with 0%nat by lia. auto.
  - cbn [movingAverages].
    assert (E1 := applyMovingAverage_window v history L).
    assert (L1 := applyMovingAverage_length v history L).
    destruct (applyMovingAverage v history w) as [h1 out]. cbn [fst] in E1, L1.
    destruct (IH h1 L1) as [Eh El].
    destruct (movingAverages inputs h1 w) as [h2 outs]. cbn [fst snd] in *.
    split; [|cbn [List.length]; now rewrite El].
    rewrite Eh, E1.
    set (k := (List.length (history ++ [v]) - w)%nat).
    assert (Hk : (k <= List.length (history ++ [v]))%nat) by (unfold k; lia).
    replace (history ++ v :: inputs) with ((history ++ [v]) ++ inputs)
      by (now rewrite <- app_assoc).
    replace (skipn k (history ++ [v]) ++ inputs) with (skipn k ((history ++ [v]) ++ inputs)).
    2:{ rewrite skipn_app. replace (k - _)%nat with 0%nat by lia. reflexivity. }
    rewrite skipn_skipn. f_equal.
    rewrite length_skipn, !length_app. unfold k. rewrite !length_app in *.
    cbn [List.length] in *. lia.
Qed.

End Window.

Lemma movingAverages_window_witness :
  fst (movingAverages [1; 2; 3; 4; 5; 6; 7]%Q [] 5) = [3; 4; 5; 6; 7]%Q.
Proof.
  assert (L : (List.length (@nil Q) <= 5)%nat) by (simpl; lia).
  rewrite (proj1 (@movingAverages_window Q _ [1; 2; 3; 4; 5; 6; 7]%Q [] 5%nat L)).
  reflexivity.
Defined.

(** *** The average lies within the window *)

Section Between.
Variables lo hi : Q.

Let size (l : list Q) : Q := inject_Z (Z.of_nat (List.length l)).

Lemma size_cons (x : Q) (l : list Q) : (size (x :: l) == size l + 1)%Q.
Proof.
  unfold size. cbn [List.length]. rewrite Nat2Z.inj_succ, <- Z.add_1_r, inject_Z_plus.
  reflexivity.
Qed.

Lemma sum_between (l : list Q) (acc : Q) :
  (forall x, In x l -> lo <= x <= hi)%Q ->
  (acc + lo * size l <= fold_left Qplus l acc <= acc + hi * size l)%Q.
Proof.
  revert acc; induction l as [|x l IH]; intros acc Hl.
  - unfold size. cbn [List.length fold_left]. change (inject_Z (Z.of_nat 0)) with 0%Q. lra.
  - cbn [fold_left].
    assert (Hx := Hl x (or_introl eq_refl)).
    assert (IH' := IH (acc + x)%Q (fun y Iy => Hl y (or_intror Iy))).
    rewrite size_cons.
    assert (E1 : (lo * (size l + 1) == lo * size l + lo)%Q) by ring.
    assert (E2 : (hi * (size l + 1) == hi * size l + hi)%Q) by ring.
    rewrite E1, E2. lra.
Qed.

Lemma sum_below (l : list Q) (acc : Q) :
  l <> [] -> (forall x, In x l -> x < hi)%Q ->
  (fold_left Qplus l acc < acc + hi * size l)%Q.
Proof.
  revert acc; induction l as [|x l IH]; intros acc Hne Hl; [congruence|].
  cbn [fold_left].
  assert (Hx := Hl x (or_introl eq_refl)).
  rewrite size_cons.
  assert (E2 : (hi * (size l + 1) == hi * size l + hi)%Q) by ring.
  rewrite E2.
  destruct l as [|y l].
  - unfold size. cbn [List.length fold_left]. change (inject_Z (Z.of_nat 0)) with 0%Q. lra.
  - assert (IH' := IH (acc + x)%Q ltac:(discriminate) (fun z Iz => Hl z (or_intror Iz))).
    lra.
Qed.

Lemma window_nonempty (v : Q) (history : list Q) (w : nat) :
  (1 <= w)%nat -> fst (applyMovingAverage v history w) <> [].
Proof.
  intros Hw. unfold applyMovingAverage. cbn [fst].
  destruct (w <? _)%nat eqn:E.
  - apply Nat.ltb_lt in E. rewrite length_app in E. cbn in E.
    destruct history as [|a [|b history]]; cbn in *; try lia; discriminate.
  - now destruct history.
Qed.

Lemma window_In (v : Q) (history : list Q) (w : nat) (x : Q) :
  In x (fst (applyMovingAverage v history w)) -> In x (v :: history).
Proof.
  unfold applyMovingAverage. cbn [fst]. intros I.
  assert (I' : In x (history ++ [v])).
  { destruct (w <? _)%nat; [|exact I].
    destruct (history ++ [v]); [destruct I | now right]. }
  apply in_app_or in I' as [I'|[<-|[]]]; [now right | now left].
Qed.

Lemma applyMovingAverage_value (v : Q) (history : list Q) (w : nat) :
  snd (applyMovingAverage v history w)
  = (fold_left Qplus (fst (applyMovingAverage v history w)) 0
     / size (fst (applyMovingAverage v history w)))%Q.
Proof. reflexivity. Qed.

Lemma size_pos (l : list Q) : l <> [] -> (0 < size l)%Q.
Proof.
  intros Hne. unfold size. destruct l; [congruence|].
  cbn [List.length]. rewrite Nat2Z.inj_succ.
  change 0%Q with (inject_Z 0). rewrite <- Zlt_Qlt. lia.
Qed.

Lemma applyMovingAverage_bounds (v : Q) (history : list Q) (w : nat) :
  (1 <= w)%nat ->
  ((forall x, In x (v :: history) -> lo <= x <= hi)%Q ->
   (lo <= snd (applyMovingAverage v history w) <= hi)%Q)
  /\ ((forall x, In x (v :: history) -> x < hi)%Q ->
      (snd (applyMovingAverage v history w) < hi)%Q).
Proof.
  intros Hw. rewrite applyMovingAverage_value.
  assert (Hne := window_nonempty v history Hw).
  assert (Hin := window_In v history w).
  set (l := fst (applyMovingAverage v history w)) in *.
  assert (Hs := size_pos Hne).
  split; intros Hx.
  - assert (Hb := sum_between l 0 (fun x I => Hx x (Hin x I))).
    split; [apply Qle_shift_div_l | apply Qle_shift_div_r]; try exact Hs; lra.
  - assert (Hb := sum_below 0 Hne (fun x I => Hx x (Hin x I))).
    apply Qlt_shift_div_r; [exact Hs | lra].
Qed.

End Between.

(** X12: in exact arithmetic, for a window size of at least 1, the value
    [applyMovingAverage] returns lies between any two bounds that enclose the
    new value and the values of the history. *)
Theorem applyMovingAverage_between (v : Q) (history : list Q) (w : nat) (lo hi : Q) :
  (1 <= w)%nat ->
  (forall x, In x (v :: history) -> lo <= x <= hi)%Q ->
  (lo <= snd (applyMovingAverage v history w) <= hi)%Q.
Proof.
  intros Hw Hx. now apply (proj1 (applyMovingAverage_bounds lo hi v history Hw)).
Qed.

Lemma applyMovingAverage_between_witness :
  (1 <= 5)%nat
  /\ (forall x, In x [3; 1; 2] -> 1 <= x <= 3)%Q
  /\ (1 <= snd (applyMovingAverage 3 [1; 2] 5) <= 3)%Q.
Proof.
  assert (Hw : (1 <= 5)%nat) by lia.
  assert (Hx : (forall x, In x [3; 1; 2] -> 1 <= x <= 3)%Q).
  { intros x [<-|[<-|[<-|[]]]]; split; discriminate. }
  split; [exact Hw|]. split; [exact Hx|].
  exact (@applyMovingAverage_between 3 [1; 2] 5 1 3 Hw Hx).
Defined.

(** *** Sequences of readings *)

Section Run.
Context {num : Type} `{Number num}.
Variable AHRS : Type.
Variable update : AHRS -> num -> num -> num -> num -> num -> num -> num -> num -> num -> AHRS.
Variable getEulerAngles : AHRS -> EulerAngles num.
Local Open Scope js_scope.

Lemma tryFuse_incomplete (declination : num) (r : Refs AHRS) :
  complete (last r) = false -> tryFuse update getEulerAngles declination r = (r, None).
Proof.
  unfold complete, App_new.tryFuse.
  destruct (accel (last r)), (gyro (last r)), (mag (last r)); try discriminate; reflexivity.
Qed.

Lemma listener_deliver (declination : num) (event : SensorEvent num) (r : Refs AHRS) :
  listener update getEulerAngles declination event r = tryFuse update getEulerAngles declination (setLast r (deliver event (last r))).
Proof. now destruct event. Qed.

Lemma complete_deliver (event : SensorEvent num) (l : Last num) :
  complete l = true -> complete (deliver event l) = true.
Proof.
  unfold complete. destruct event, l as [[a|] [g|] [m|]]; cbn; congruence.
Qed.

Lemma complete_delivered (events : list (SensorEvent num)) (l : Last num) :
  complete l = true -> complete (fold_left (fun l e => deliver e l) events l) = true.
Proof.
  revert l; induction events as [|e events IH]; intros l Hl; [exact Hl|].
  cbn [fold_left]. apply IH. now apply complete_deliver.
Qed.

(** X13: as long as one of the three sensors has not delivered a reading,
    the listeners only store the readings: nothing is published, the filter
    is not updated, and the windows and the pair published last are
    unchanged. *)
Theorem listeners_wait_for_all_sensors (declination : num)
  (events : list (SensorEvent num)) (r : Refs AHRS) :
  let delivered := fold_left (fun l e => deliver e l) events (last r) in
  complete delivered = false ->
  listeners update getEulerAngles declination events r = (setLast r delivered, []).
Proof.
  revert r; induction events as [|e events IH]; intros r delivered Hc.
  - cbn. now destruct r.
  - cbn [App_new_vocabulary.listeners]. rewrite listener_deliver.
    subst delivered. cbn [fold_left] in *.
    assert (Hc1 : complete (deliver e (last r)) = false).
    { destruct (complete (deliver e (last r))) eqn:E; [|reflexivity].
      now rewrite (complete_delivered events _ E) in Hc. }
    rewrite tryFuse_incomplete by exact Hc1.
    rewrite (IH (setLast r (deliver e (last r))) Hc). reflexivity.
Qed.

Lemma tryFuse_cases (declination : num) (r : Refs AHRS) :
  (snd (tryFuse update getEulerAngles declination r) = None
   /\ previousAzAlt (fst (tryFuse update getEulerAngles declination r)) = previousAzAlt r)
  \/ (exists p, snd (tryFuse update getEulerAngles declination r) = Some p
               /\ previousAzAlt (fst (tryFuse update getEulerAngles declination r)) = p
               /\ shouldUpdateOrientation (previousAzAlt r) (az p) (alt p) = true).
Proof.
  unfold App_new.tryFuse.
  destruct (accel (last r)), (gyro (last r)), (mag (last r)); auto.
  destruct (applyMovingAverage (azDeg _ declination) _ _) as [h1 fAz].
  destruct (applyMovingAverage (altDeg _) _ _) as [h2 fAlt].
  destruct (shouldUpdateOrientation (previousAzAlt r) fAz fAlt) eqn:E; cbn; auto.
  right. eexists. split; [reflexivity|]. cbn. auto.
Qed.

(** X14: in every arithmetic, each pair the listeners publish passes the
    hysteresis gate against the pair published before it (the first against
    the pair recorded at the start), and the pair recorded after the readings
    is the pair published last. *)
Theorem listeners_gate (declination : num)
  (events : list (SensorEvent num)) (r : Refs AHRS) :
  let published := snd (listeners update getEulerAngles declination events r) in
  gated (previousAzAlt r) published
  /\ previousAzAlt (fst (listeners update getEulerAngles declination events r))
     = List.last published (previousAzAlt r).
Proof.
  revert r; induction events as [|e events IH]; intros r; cbn zeta.
  - cbn. auto.
  - cbn [App_new_vocabulary.listeners]. rewrite listener_deliver.
    set (r0 := setLast r (deliver e (last r))).
    assert (E0 : previousAzAlt r0 = previousAzAlt r) by reflexivity.
    destruct (tryFuse_cases declination r0) as [[Hn Hp] | (p & Hs & Hp & Hg)];
      destruct (tryFuse update getEulerAngles declination r0) as [r1 o]; cbn [fst snd] in *; subst o;
      specialize (IH r1); cbn zeta in IH;
      destruct (listeners update getEulerAngles declination events r1) as [r2 rest]; cbn [fst snd] in *.
    + rewrite Hp, E0 in IH. exact IH.
    + rewrite Hp in IH. rewrite E0 in Hg. destruct IH as [IHg IHl].
      split; [cbn; auto|].
      rewrite IHl. destruct rest as [|a rest]; [reflexivity|].
      change (List.last (p :: a :: rest) (previousAzAlt r)) with (List.last (a :: rest) (previousAzAlt r)).
      apply last_cons_default.
Qed.

Lemma tryFuse_windows (declination : num) (r : Refs AHRS) :
  let h := sensorHistory r in
  let h' := sensorHistory (fst (tryFuse update getEulerAngles declination r)) in
  List.length (azimuth h) = List.length (altitude h) ->
  (List.length (azimuth h) <= windowSize h)%nat ->
  windowSize h' = windowSize h
  /\ List.length (azimuth h') = List.length (altitude h')
  /\ (List.length (azimuth h') <= windowSize h')%nat.
Proof.
  intros h h' Eq L. subst h h'. unfold App_new.tryFuse.
  destruct (accel (last r)), (gyro (last r)), (mag (last r)); auto.
  unfold applyMovingAverage. rewrite !length_app, <- Eq. cbn [List.length].
  destruct (_ <? _)%nat eqn:E;
    destruct (shouldUpdateOrientation _ _ _); cbn [fst sensorHistory azimuth altitude windowSize].
  all: try (apply Nat.ltb_lt in E); try (apply Nat.ltb_ge in E).
  all: repeat split; try lia.
  all: destruct (azimuth (sensorHistory r)) as [|a az], (altitude (sensorHistory r)) as [|b al];
    cbn [List.length tl app] in *; rewrite ?length_app in *; cbn [List.length] in *; try lia.
Qed.

Lemma listeners_windows (declination : num) (events : list (SensorEvent num)) (r : Refs AHRS) :
  let h := sensorHistory r in
  let h' := sensorHistory (fst (listeners update getEulerAngles declination events r)) in
  List.length (azimuth h) = List.length (altitude h) ->
  (List.length (azimuth h) <= windowSize h)%nat ->
  windowSize h' = windowSize h
  /\ List.length (azimuth h') = List.length (altitude h')
  /\ (List.length (azimuth h') <= windowSize h')%nat.
Proof.
  revert r; induction events as [|e events IH]; intros r; cbn zeta; intros Eq L.
  - cbn. auto.
  - cbn [App_new_vocabulary.listeners]. rewrite listener_deliver.
    set (r0 := setLast r (deliver e (last r))).
    destruct (tryFuse_windows declination r0 Eq L) as (Ew & Eq1 & L1).
    destruct (tryFuse update getEulerAngles declination r0) as [r1 o]. cbn [fst] in *.
    specialize (IH r1 Eq1 L1). cbn zeta in IH.
    destruct (listeners update getEulerAngles declination events r1) as [r2 rest]. cbn [fst] in *.
    change (sensorHistory r0) with (sensorHistory r) in Ew.
    destruct IH as (E2 & Eq2 & L2). split; [congruence|]. split; [exact Eq2 | exact L2].
Qed.

(** X15: from the mount on, after any readings, the window size is 5 and
    the two windows hold the same number of values, at most 5. *)
Theorem listeners_windows_mounted (declination : num) (events : list (SensorEvent num))
  (filter : AHRS) :
  let h := sensorHistory (fst (listeners update getEulerAngles declination events (initialRefs filter))) in
  windowSize h = 5%nat
  /\ List.length (azimuth h) = List.length (altitude h)
  /\ (List.length (azimuth h) <= 5)%nat.
Proof.
  cbn zeta.
  destruct (@listeners_windows declination events (initialRefs filter) eq_refl)
    as (Ew & Eq & L).
  - cbn. lia.
  - cbn [initialRefs sensorHistory windowSize] in Ew. rewrite Ew in L. auto.
Qed.

End Run.

Lemma listeners_wait_for_all_sensors_witness :
  complete (fold_left (fun l e => deliver e l)
              [AccelerometerReading reading; GyroscopeReading reading]
              (last (initialRefs facingEast))) = false
  /\ snd (listeners keepAngles (fun f => f) 0%Q
            [AccelerometerReading reading; GyroscopeReading reading] (initialRefs facingEast))
     = [].
Proof.
  assert (Hc : complete (fold_left (fun l e => deliver e l)
                           [AccelerometerReading reading; GyroscopeReading reading]
                           (last (initialRefs facingEast))) = false) by reflexivity.
  split; [exact Hc|].
  rewrite (@listeners_wait_for_all_sensors Q _ (EulerAngles Q) keepAngles (fun f => f) 0%Q
             [AccelerometerReading reading; GyroscopeReading reading]
             (initialRefs facingEast) Hc).
  reflexivity.
Defined.

(** *** The range of what is published, in exact arithmetic *)

Section Range.
Variable AHRS : Type.
Variable update : AHRS -> Q -> Q -> Q -> Q -> Q -> Q -> Q -> Q -> Q -> AHRS.
Variable getEulerAngles : AHRS -> EulerAngles Q.
Variable declination : Q.

Hypothesis heading_range : forall f, (- Math_PI <= heading (getEulerAngles f) <= Math_PI)%Q.
Hypothesis pitch_range :
  forall f, (- (Math_PI / 2) <= pitch (getEulerAngles f) <= Math_PI / 2)%Q.
Hypothesis declination_range : (-180 <= declination <= 180)%Q.

Let inRange (r : Refs AHRS) : Prop :=
  (1 <= windowSize (sensorHistory r))%nat
  /\ (forall x, In x (azimuth (sensorHistory r)) -> 0 <= x < 360)%Q
  /\ (forall x, In x (altitude (sensorHistory r)) -> -90 <= x <= 90)%Q.

Lemma tryFuse_range (r : Refs AHRS) :
  inRange r ->
  inRange (fst (tryFuse update getEulerAngles declination r))
  /\ forall p, snd (tryFuse update getEulerAngles declination r) = Some p ->
               (0 <= az p < 360 /\ -90 <= alt p <= 90)%Q.
Proof.
  intros (Hw & Haz & Halt). unfold App_new.tryFuse.
  destruct (accel (last r)) as [a|]; [|split; [now split | discriminate]].
  destruct (gyro (last r)) as [g|]; [|split; [now split | discriminate]].
  destruct (mag (last r)) as [m|]; [|split; [now split | discriminate]].
  match goal with |- context [azDeg ?h declination] =>
    assert (Ha := @azDeg_range_typical h declination (heading_range _) declination_range);
    set (az0 := azDeg h declination) in *
  end.
  match goal with |- context [altDeg ?p] =>
    assert (Hb := @altDeg_range p (pitch_range _));
    set (alt0 := altDeg p) in *
  end.
  set (h := sensorHistory r) in *.
  assert (Haz' : forall x, In x (az0 :: azimuth h) -> (0 <= x < 360)%Q).
  { intros x [<-|I]; [exact Ha | now apply Haz]. }
  assert (Halt' : forall x, In x (alt0 :: altitude h) -> (-90 <= x <= 90)%Q).
  { intros x [<-|I]; [exact Hb | now apply Halt]. }
  assert (B1 := applyMovingAverage_bounds 0 360 az0 (azimuth h) Hw).
  assert (B2 := applyMovingAverage_bounds (-90) 90 alt0 (altitude h) Hw).
  assert (I1 := window_In az0 (azimuth h) (windowSize h)).
  assert (I2 := window_In alt0 (altitude h) (windowSize h)).
  destruct (applyMovingAverage az0 (azimuth h) (windowSize h)) as [h1 fAz].
  destruct (applyMovingAverage alt0 (altitude h) (windowSize h)) as [h2 fAlt].
  cbn [fst snd] in *.
  assert (Rp : (0 <= fAz < 360 /\ -90 <= fAlt <= 90)%Q).
  { destruct B1 as [B1 B1']. destruct B2 as [B2 _].
    assert (X1 := B1 (fun x I => conj (proj1 (Haz' x I)) (Qlt_le_weak _ _ (proj2 (Haz' x I))))).
    assert (X2 := B1' (fun x I => proj2 (Haz' x I))).
    assert (X3 := B2 Halt'). lra. }
  assert (Inv' : forall prev ms,
             inRange {| sensorHistory := {| azimuth := h1; altitude := h2;
                                            windowSize := windowSize h |};
                        previousAzAlt := prev; madgwick := ms; last := last r |}).
  { intros prev ms. split; [exact Hw|]. split; cbn; intros x I; auto. }
  destruct (shouldUpdateOrientation (previousAzAlt r) fAz fAlt); cbn [fst snd].
  - split; [apply Inv'|]. intros p Ep. injection Ep as <-. exact Rp.
  - split; [apply Inv' | discriminate].
Qed.

Lemma listeners_range (events : list (SensorEvent Q)) (r : Refs AHRS) (p : AzAlt Q) :
  inRange r ->
  In p (snd (listeners update getEulerAngles declination events r)) ->
  (0 <= az p < 360 /\ -90 <= alt p <= 90)%Q.
Proof.
  revert r; induction events as [|e events IH]; intros r Hr I; [destruct I|].
  cbn [App_new_vocabulary.listeners] in I. rewrite listener_deliver in I.
  set (r0 := setLast r (deliver e (last r))) in *.
  assert (Hr0 : inRange r0) by exact Hr.
  destruct (tryFuse_range Hr0) as [Hr1 Hp].
  destruct (tryFuse update getEulerAngles declination r0) as [r1 o]. cbn [fst snd] in *.
  specialize (IH r1 Hr1).
  destruct (listeners update getEulerAngles declination events r1) as [r2 rest].
  cbn [fst snd] in *.
  destruct o as [q|]; [|now apply IH].
  destruct I as [<-|I]; [now apply Hp | now apply IH].
Qed.

(** X16: in exact arithmetic, when the filter reports headings in [-pi, pi]
    and pitches in [-pi/2, pi/2] and the declination is in [-180, 180], every
    pair published after the mount has its azimuth in [0,360) and its altitude
    in [-90, 90]. *)
Theorem published_orientation_range (events : list (SensorEvent Q)) (filter : AHRS)
  (p : AzAlt Q) :
  In p (snd (listeners update getEulerAngles declination events (initialRefs filter))) ->
  (0 <= az p < 360 /\ -90 <= alt p <= 90)%Q.
Proof.
  apply listeners_range. split; [cbn; lia|]. split; intros x [].
Qed.

End Range.

Lemma published_orientation_range_witness :
  (forall f : unit, - Math_PI <= heading facingEast <= Math_PI)%Q
  /\ (forall f : unit, - (Math_PI / 2) <= pitch facingEast <= Math_PI / 2)%Q
  /\ (-180 <= 7 <= 180)%Q
  /\ match snd (listeners (fun f _ _ _ _ _ _ _ _ _ => f) (fun _ : unit => facingEast) 7%Q
                  [AccelerometerReading reading; GyroscopeReading reading;
                   MagnetometerReading reading] (initialRefs tt)) with
     | p :: _ => (0 <= az p < 360 /\ -90 <= alt p <= 90)%Q
     | [] => False
     end.
Proof.
  assert (Hh : forall f : unit, (- Math_PI <= heading facingEast <= Math_PI)%Q).
  { intros _. split; vm_compute; discriminate. }
  assert (Hp : forall f : unit, (- (Math_PI / 2) <= pitch facingEast <= Math_PI / 2)%Q).
  { intros _. split; vm_compute; discriminate. }
  assert (Hd : (-180 <= 7 <= 180)%Q) by (split; vm_compute; discriminate).
  split; [exact Hh|]. split; [exact Hp|]. split; [exact Hd|].
  destruct (snd (listeners (fun f _ _ _ _ _ _ _ _ _ => f) (fun _ : unit => facingEast) 7%Q
                   [AccelerometerReading reading; GyroscopeReading reading;
                    MagnetometerReading reading] (initialRefs tt))) as [|p rest] eqn:E.
  - vm_compute in E. discriminate.
  - apply (@published_orientation_range unit (fun f _ _ _ _ _ _ _ _ _ => f)
             (fun _ : unit => facingEast) 7%Q Hh Hp Hd
             [AccelerometerReading reading; GyroscopeReading reading;
              MagnetometerReading reading] tt p).
    rewrite E. now left.
Defined.

(** *** Angles *)

(** X17: in exact arithmetic the azimuth [tryFuse] computes differs from the
    heading in degrees plus the declination by a whole number of turns, and
    lies strictly between -360 and 360, whatever the heading and the
    declination. *)
Theorem azDeg_modulo_360 (heading declination : Q) :
  (exists k : Z,
      azDeg heading declination == heading * 180 / Math_PI + declination + 360 * inject_Z k)%Q
  /\ (-360 < azDeg heading declination < 360)%Q.
Proof.
  rewrite azDeg_exact. split.
  - unfold Qrem at 1.
    set (x := (heading * 180 / Math_PI)%Q).
    set (k2 := Qtrunc ((Qrem x 360 + declination + 360) / 360)).
    unfold Qrem. set (k1 := Qtrunc (x / 360)).
    exists (1 + - k1 + - k2)%Z.
    rewrite !inject_Z_plus, !inject_Z_opp. change (inject_Z 1) with 1%Q. ring.
  - set (s := (Qrem (heading * 180 / Math_PI) 360 + declination + 360)%Q).
    destruct (Qlt_le_dec s 0) as [L | L].
    + assert (R := @Qrem_nonpos s 360 ltac:(lra) ltac:(reflexivity)). lra.
    + assert (R := @Qrem_nonneg s 360 L ltac:(reflexivity)). lra.
Qed.

(** X18: in exact arithmetic, when [Math.atan2] returns an angle in
    [-pi, pi], [calculateDirection] returns a direction whose [angleDeg] is in
    [0,360). *)
Theorem calculateDirection_angleDeg_range (Math_sqrt : Q -> Q) (Math_atan2 : Q -> Q -> Q)
  (selectedCelestial eq : Equatorial Q) :
  (forall y x, - Math_PI <= Math_atan2 y x <= Math_PI)%Q ->
  match calculateDirection Math_sqrt Math_atan2 (Some selectedCelestial) (Some eq) with
  | Some info => (0 <= angleDeg info < 360)%Q
  | None => False
  end.
Proof.
  intros Hatan. cbn [calculateDirection angleDeg].
  match goal with |- context [Math_atan2 ?y ?x] =>
    assert (Ha := Hatan y x); set (a := Math_atan2 y x) in *
  end.
  assert (Hpi : (0 < Math_PI)%Q) by reflexivity.
  assert (Hx : (-180 <= a * 180 / Math_PI <= 180)%Q).
  { split; [apply Qle_shift_div_l | apply Qle_shift_div_r]; try exact Hpi; lra. }
  change (0 <= Qrem (a * 180 / Math_PI + 360) 360 < 360)%Q.
  apply Qrem_nonneg; [lra | reflexivity].
Qed.

Lemma calculateDirection_angleDeg_range_witness :
  (forall y x : Q, - Math_PI <= 0 <= Math_PI)%Q
  /\ match calculateDirection (fun x : Q => x) (fun _ _ : Q => 0%Q)
             (Some {| ra := 6; dec := 10 |}) (Some {| ra := 5; dec := 20 |}) with
     | Some info => (0 <= angleDeg info < 360)%Q
     | None => False
     end.
Proof.
  assert (Hatan : forall y x : Q, (- Math_PI <= (fun _ _ : Q => 0%Q) y x <= Math_PI)%Q).
  { intros _ _. split; vm_compute; discriminate. }
  split; [exact Hatan|].
  exact (@calculateDirection_angleDeg_range (fun x : Q => x) (fun _ _ : Q => 0%Q)
           {| ra := 6; dec := 10 |} {| ra := 5; dec := 20 |} Hatan).
Defined.

(** X19: in exact arithmetic the RA difference of [calculateDirection] is
    antisymmetric in the two right ascensions, and differs from fifteen times
    their difference by one turn at most. *)
Theorem calculateDirection_raDiff_antisymmetric (t c : Q) :
  (calculateDirection_raDiff t c == - calculateDirection_raDiff c t)%Q
  /\ (calculateDirection_raDiff t c == t * 15 - c * 15
      \/ calculateDirection_raDiff t c == t * 15 - c * 15 - 360
      \/ calculateDirection_raDiff t c == t * 15 - c * 15 + 360)%Q.
Proof.
  unfold calculateDirection_raDiff. cbn [mul sub add neg lt exact int lit].
  change (180 # 1) with 180%Q. change (360 # 1) with 360%Q. change (15 # 1) with 15%Q.
  set (T := (t * 15)%Q). set (C := (c * 15)%Q).
  repeat match goal with
  | |- context [Qltb ?a ?b] =>
      let E := fresh "E" in
      destruct (Qltb a b) eqn:E; [apply Qltb_lt in E | apply Qltb_ge in E]
  end; split; try lra; auto; try (right; left; lra); try (right; right; lra); try (left; lra).
Qed.

End App_new_pipeline.

(** ** App_new.js: the view *)

Module App_new_view.
Import App_new App_new_vocabulary App_new_properties.

(** X20: in exact arithmetic the compass block is hidden without a selection
    and while the distance to the selection is at most 0.5; from there up to 3
    it shows the circle with the red border and neither arrow nor label;
    beyond 3 it shows the circle, the arrow and the label. *)
Theorem renderCompass_zones (Math_sqrt : Q -> Q) (Math_atan2 : Q -> Q -> Q)
  (selectedCelestial eq : Equatorial Q) :
  let hidden := {| compassCircle := false; redBorder := false;
                   directionArrow := false; celestialLabel := false |} in
  renderCompass Math_sqrt Math_atan2 None (Some eq) = hidden
  /\ match calculateDirection Math_sqrt Math_atan2 (Some selectedCelestial) (Some eq) with
     | Some info =>
         let compass := renderCompass Math_sqrt Math_atan2 (Some selectedCelestial) (Some eq) in
         ((distance info <= 1 # 2)%Q -> compass = hidden)
         /\ ((1 # 2 < distance info <= 3)%Q ->
             compass = {| compassCircle := true; redBorder := true;
                          directionArrow := false; celestialLabel := false |})
         /\ ((3 < distance info)%Q ->
             compass = {| compassCircle := true; redBorder := false;
                          directionArrow := true; celestialLabel := true |})
     | None => False
     end.
Proof.
  intros hidden. split; [reflexivity|].
  unfold renderCompass, directionInfo, showCompass, targetInCircle.
  cbn [calculateDirection distance].
  set (d := Math_sqrt _).
  change (lt (lit 5 10) d) with (Qltb (5 # 10) d).
  change (leq d (int 3)) with (Qle_bool d 3).
  destruct (Qltb (5 # 10) d) eqn:E1; [apply Qltb_lt in E1 | apply Qltb_ge in E1];
    (destruct (Qle_bool d 3) eqn:E2;
     [apply Qle_bool_iff in E2
     | assert (E2' : ~ (d <= 3)%Q) by (intros L; apply Qle_bool_iff in L; congruence)]).
  all: assert (E5 : (5 # 10 == 1 # 2)%Q) by reflexivity.
  all: repeat split; intros Hd; try reflexivity; exfalso; lra.
Qed.

Section Search.
Context {num : Type} `{Number num}.
Variable toLowerCase : jsstring -> jsstring.
Variable Equator :
  StarData.Body -> StarData.Date -> StarData.Observer num -> bool -> bool ->
  completion (StarData.EquatorialCoordinates num).
Variable starData : list (StarData.Star num).

(** X9: the guards of the search effect change nothing: what it passes to
    [setSearchResults] is what [searchCelestial] returns for the query and
    the observer, in every case. *)
Theorem searchEffect_searchCelestial (now : StarData.Date) (searchQuery : jsstring)
  (observer : option (StarData.Observer num)) :
  searchEffect toLowerCase Equator starData now searchQuery observer
  = StarData.searchCelestial toLowerCase Equator starData now searchQuery observer.
Proof.
  unfold searchEffect, StarData.searchCelestial.
  destruct searchQuery as [|c [|d q]]; try reflexivity.
  now destruct observer.
Qed.

Variable observer : option (StarData.Observer num).

Let invariant (s : SearchState num) : Prop :=
  (showSearch s = false -> searchQuery s = [] /\ searchResults s = [])
  /\ searchModalOpacity s = (if showSearch s then int 1 else int 0)
  /\ searchModalScale s = (if showSearch s then int 1 else lit 8 10)
  /\ exists now,
       searchResults s
       = StarData.searchCelestial toLowerCase Equator starData now (searchQuery s) observer.

Lemma handler_invariant (event : SearchEvent) (s : SearchState num) :
  invariant s ->
  let s' := handler event s in
  (showSearch s' = false -> searchQuery s' = [])
  /\ searchModalOpacity s' = (if showSearch s' then int 1 else int 0)
  /\ searchModalScale s' = (if showSearch s' then int 1 else lit 8 10)
  /\ (searchQuery s' = searchQuery s ->
      (showSearch s' = false -> searchResults s' = [])
      /\ exists now,
           searchResults s'
           = StarData.searchCelestial toLowerCase Equator starData now (searchQuery s') observer).
Proof.
  intros (Hc & Ho & Hs & now' & Hr).
  destruct s as [show q res sel op sc].
  cbn [showSearch searchQuery searchResults searchModalOpacity searchModalScale] in *.
  assert (Hclosing :
    forall selected,
      let s' := {| showSearch := false; searchQuery := []; searchResults := [];
                   selectedCelestial := selected;
                   searchModalOpacity := int 0; searchModalScale := lit 8 10 |} in
      (showSearch s' = false -> searchQuery s' = [])
      /\ searchModalOpacity s' = (if showSearch s' then int 1 else int 0)
      /\ searchModalScale s' = (if showSearch s' then int 1 else lit 8 10)
      /\ (searchQuery s' = q ->
          (showSearch s' = false -> searchResults s' = [])
          /\ exists now,
               searchResults s'
               = StarData.searchCelestial toLowerCase Equator starData now (searchQuery s')
                   observer)).
  { intros selected. cbn. split; [reflexivity|]. split; [reflexivity|]. split; [reflexivity|].
    intros _. split; [reflexivity|]. exists now'. reflexivity. }
  destruct event as [|text|index]; destruct show;
    cbn [handler toggleSearch selectCelestial negb
         showSearch searchQuery searchResults selectedCelestial
         searchModalOpacity searchModalScale].
  - exact (Hclosing sel).
  - split; [discriminate|]. split; [reflexivity|]. split; [reflexivity|].
    intros _. split; [discriminate|]. exists now'. exact Hr.
  - split; [discriminate|]. split; [exact Ho|]. split; [exact Hs|].
    intros ->. split; [discriminate|]. exists now'. exact Hr.
  - split; [intros F; now apply Hc|]. split; [exact Ho|]. split; [exact Hs|].
    intros _. split; [intros F; now apply Hc|]. exists now'. exact Hr.
  - destruct (nth_error res index) as [item|];
      cbn [handler toggleSearch selectCelestial negb
           showSearch searchQuery searchResults selectedCelestial
           searchModalOpacity searchModalScale].
    + exact (Hclosing (Some item)).
    + split; [discriminate|]. split; [exact Ho|]. split; [exact Hs|].
      intros _. split; [discriminate|]. exists now'. exact Hr.
  - split; [intros F; now apply Hc|]. split; [exact Ho|]. split; [exact Hs|].
    intros _. split; [intros F; now apply Hc|]. exists now'. exact Hr.
Qed.

Lemma handle_invariant (event : SearchEvent) (now : StarData.Date) (s : SearchState num) :
  invariant s -> invariant (handle toLowerCase Equator starData observer event now s).
Proof.
  intros Hi. unfold handle.
  destruct (handler_invariant event Hi) as (Hq & Ho & Hs & Hsame).
  destruct (jsstring_eqb (searchQuery (handler event s)) (searchQuery s)) eqn:Eq.
  - apply jsstring_eqb_eq in Eq. destruct (Hsame Eq) as (Hr0 & Hr).
    split; [auto|]. split; [exact Ho|]. split; [exact Hs|]. exact Hr.
  - cbn [showSearch searchQuery searchResults searchModalOpacity searchModalScale].
    split.
    + intros F. rewrite (Hq F). auto.
    + split; [exact Ho|]. split; [exact Hs|].
      exists now. apply searchEffect_searchCelestial.
Qed.

(** X10: whatever the user does with the search modal after the mount,
    while the modal is closed the query and the result list are empty; the
    animations run to opacity 1 and scale 1 while it is open and to 0 and 0.8
    while it is closed; and the result list is what [searchCelestial] returned
    for the present query at some instant. *)
Theorem search_modal_invariant (events : list (SearchEvent * StarData.Date)) :
  let s := handleAll toLowerCase Equator starData observer events initialSearchState in
  (showSearch s = false -> searchQuery s = [] /\ searchResults s = [])
  /\ searchModalOpacity s = (if showSearch s then int 1 else int 0)
  /\ searchModalScale s = (if showSearch s then int 1 else lit 8 10)
  /\ exists now,
       searchResults s
       = StarData.searchCelestial toLowerCase Equator starData now (searchQuery s) observer.
Proof.
  cbn zeta. change (invariant (handleAll toLowerCase Equator starData observer events
                                 initialSearchState)).
  assert (H0 : invariant initialSearchState).
  { split; [auto|]. split; [reflexivity|]. split; [reflexivity|].
    exists None. cbn. reflexivity. }
  revert H0. generalize (@initialSearchState num _).
  unfold handleAll. induction events as [|[e t] events IH]; intros s Hs; [exact Hs|].
  cbn [fold_left fst snd]. apply IH. now apply handle_invariant.
Qed.

End Search.

Section Location.
Context {num : Type} `{Number num}.
Variable Astro_Observer : num -> num -> num -> completion (StarData.Observer num).
Local Open Scope js_scope.

(** X21: [requestLocationPermission] rejects only when the permission request
    rejects, and then changes nothing; otherwise it records the status, and
    [locPerm] when the status is "granted"; it replaces the observer only by
    one built from a position fix under a granted permission, with the height
    [altitude || 0]; and it replaces the declination only by true heading
    minus magnetic heading, after the observer is set. *)
Theorem requestLocationPermission_outcome
  (permission : completion jsstring) (position : completion (Coords num))
  (heading : completion (option (HeadingData num))) (s : LocationState num) :
  let s' := fst (requestLocationPermission Astro_Observer permission position heading s) in
  let done := snd (requestLocationPermission Astro_Observer permission position heading s) in
  (forall e, permission = Throw e -> s' = s /\ done = Throw e)
  /\ (forall status, permission = Normal status ->
        done = Normal tt
        /\ locPermStatus s' = Some status
        /\ locPerm s' = (jsstring_eqb status (str "granted") || locPerm s)%bool)
  /\ (observer s' = observer s
      \/ exists coords o,
           permission = Normal (str "granted")
           /\ position = Normal coords
           /\ Astro_Observer (coords_latitude coords) (coords_longitude coords)
                (altitudeOr0 coords) = Normal o
           /\ observer s' = Some o)
  /\ (declination s' = declination s
      \/ exists t m,
           heading = Normal (Some {| trueHeading := Some t; magHeading := Some m |})
           /\ observer s' <> None
           /\ declination s' = t - m).
Proof.
  unfold requestLocationPermission, altitudeOr0.
  destruct permission as [status|e]; cbn zeta.
  2:{ cbn [fst snd locPermStatus locPerm observer declination]. split; [intros e' E; injection E as <-; auto|].
      split; [discriminate|]. auto. }
  destruct (jsstring_eqb status (str "granted")) eqn:Eg.
  2:{ cbn [fst snd locPermStatus locPerm observer declination]. split; [discriminate|]. split; [intros st E; injection E as <-|].
      - rewrite Eg. auto.
      - auto. }
  apply jsstring_eqb_eq in Eg. subst status.
  assert (Hst : forall st, Normal (str "granted") = Normal st ->
                           jsstring_eqb st (str "granted") = true).
  { intros st E. injection E as <-. reflexivity. }
  destruct position as [coords|e].
  2:{ cbn [fst snd locPermStatus locPerm observer declination]. split; [discriminate|]. split; [|auto].
      intros st E. rewrite (Hst st E). injection E as <-. auto. }
  destruct (Astro_Observer _ _ _) as [o|e] eqn:Eo.
  2:{ cbn [fst snd locPermStatus locPerm observer declination]. split; [discriminate|]. split; [|auto].
      intros st E. rewrite (Hst st E). injection E as <-. auto. }
  assert (Hobs : forall s1 : LocationState num, observer s1 = Some o ->
            observer s1 = observer s
            \/ exists coords0 o0,
                 Normal (str "granted") = Normal (str "granted")
                 /\ Normal coords = Normal coords0
                 /\ Astro_Observer (coords_latitude coords0) (coords_longitude coords0)
                      match coords_altitude coords0 with
                      | Some a => if truthy a then a else int 0
                      | None => int 0
                      end = Normal o0
                 /\ observer s1 = Some o0).
  { intros s1 E1. right. exists coords, o. auto. }
  destruct heading as [[[[t|] [m|]]|]|e]; cbn [fst snd locPermStatus locPerm observer declination].
  all: split; [discriminate|].
  all: split; [intros st E; rewrite (Hst st E); injection E as <-; auto|].
  all: split; [apply (Hobs {| locPermStatus := None; locPerm := true; observer := Some o;
                              declination := declination s |}); reflexivity|].
  all: try (left; reflexivity).
  right. exists t, m. split; [reflexivity|]. split; [discriminate | reflexivity].
Qed.

(** X22: after the first [requestLocationPermission] the main view is
    rendered exactly when the camera permission is granted, the location
    permission is "granted", the position fix succeeded and the observer could
    be built, whatever the heading request did; with the status "denied" the
    location permission view is rendered. *)
Theorem main_screen_after_request
  (camPerm : option bool) (permission : completion jsstring)
  (position : completion (Coords num)) (heading : completion (option (HeadingData num))) :
  let s' := fst (requestLocationPermission Astro_Observer permission position heading
                   initialLocationState) in
  (render camPerm s' = MainScreen <->
   camPerm = Some true
   /\ permission = Normal (str "granted")
   /\ exists coords o,
        position = Normal coords
        /\ Astro_Observer (coords_latitude coords) (coords_longitude coords)
             (altitudeOr0 coords) = Normal o)
  /\ (camPerm = Some true -> permission = Normal (str "denied") ->
      render camPerm s' = LocationPermissionScreen).
Proof.
  cbn zeta. split.
  2:{ intros -> ->. reflexivity. }
  unfold requestLocationPermission, altitudeOr0, render.
  destruct camPerm as [[|]|]; cbn [negb];
    try (split; [discriminate | intros (E & _); discriminate]).
  destruct permission as [status|e]; cbn zeta.
  2:{ cbn. split; [discriminate | intros (_ & E & _); discriminate]. }
  destruct (jsstring_eqb status (str "granted")) eqn:Eg.
  2:{ cbn [fst locPermStatus locPerm observer negb orb].
      destruct (jsstring_eqb status (str "denied")); (split; [discriminate|]).
      all: intros (_ & E & _); injection E as ->; discriminate. }
  apply jsstring_eqb_eq in Eg. subst status.
  destruct position as [coords|e].
  2:{ cbn. split; [discriminate | intros (_ & _ & c & o & E & _); discriminate]. }
  destruct (Astro_Observer _ _ _) as [o|e] eqn:Eo.
  2:{ cbn. split; [discriminate|]. intros (_ & _ & c & o & E & Eo').
      injection E as <-. congruence. }
  assert (Hyes : Some true = Some true
                 /\ Normal (str "granted") = Normal (str "granted")
                 /\ exists coords0 o0,
                      Normal coords = Normal coords0
                      /\ Astro_Observer (coords_latitude coords0) (coords_longitude coords0)
                           match coords_altitude coords0 with
                           | Some a => if truthy a then a else int 0
                           | None => int 0
                           end = Normal o0).
  { split; [reflexivity|]. split; [reflexivity|]. exists coords, o. auto. }
  destruct heading as [[[[t|] [m|]]|]|e]; cbn; (split; [intros _; exact Hyes | reflexivity]).
Qed.

End Location.

End App_new_view.

(** ** The variant with the catalogue search built in *)

Module App_part_001_properties.
Import App_part_001.

Section Search.
Context {num : Type} `{Number num}.
Variable toLowerCase : jsstring -> jsstring.
Variable starData : list (StarData.Star num).

Let matches (searchQuery : jsstring) (star : StarData.Star num) : bool :=
  nameIncludes toLowerCase (StarData.star_proper star) searchQuery
  || nameIncludes toLowerCase (StarData.star_name star) searchQuery.

(** X23: the search effect of this variant returns nothing for a query of
    fewer than two code units, and otherwise at most twenty records of the
    catalogue, each with a non-empty proper name or name that contains the
    query up to case; when it returns fewer than twenty, these are all such
    records, in the order of the catalogue. *)
Theorem searchEffect_results (searchQuery : jsstring) :
  let results := searchEffect toLowerCase starData searchQuery in
  ((List.length searchQuery < 2)%nat -> results = [])
  /\ (List.length results <= 20)%nat
  /\ (forall star, In star results ->
        In star starData /\ matches searchQuery star = true)
  /\ ((List.length results < 20)%nat -> (2 <= List.length searchQuery)%nat ->
      results = filter (matches searchQuery) starData).
Proof.
  cbn zeta. unfold searchEffect.
  change (fun star : StarData.Star num =>
            nameIncludes toLowerCase (StarData.star_proper star) searchQuery
            || nameIncludes toLowerCase (StarData.star_name star) searchQuery)
    with (matches searchQuery).
  destruct searchQuery as [|c [|d q]]; cbn [orb List.length Nat.ltb Nat.leb].
  - split; [reflexivity|]. split; [cbn; lia|]. split; [intros star []|]. cbn. lia.
  - split; [reflexivity|]. split; [cbn; lia|]. split; [intros star []|]. cbn. lia.
  - split; [cbn; lia|]. split; [rewrite length_firstn; lia|]. split.
    + intros star I. apply In_firstn in I.
      now apply filter_In in I.
    + intros L _. now apply firstn_short.
Qed.

Lemma includes_nil (t : jsstring) : t <> [] -> includes [] t = false.
Proof. destruct t; [congruence | reflexivity]. Qed.

Lemma nameIncludes_lowerOrEmpty (s : option jsstring) (searchQuery : jsstring) :
  toLowerCase [] = [] -> toLowerCase searchQuery <> [] ->
  includes (StarData.lowerOrEmpty toLowerCase s) (toLowerCase searchQuery)
  = nameIncludes toLowerCase s searchQuery.
Proof.
  intros E0 Eq. unfold StarData.lowerOrEmpty, nameIncludes.
  destruct s as [[|c s]|]; cbn [option_map]; try reflexivity.
  - rewrite E0. now apply includes_nil.
  - now apply includes_nil.
Qed.

(** X24: on a catalogue none of whose records the star filter takes for a
    solar-system body, the star pass of [searchCelestial] returns the entries
    of exactly the records the search of this variant returns, in the same
    order (for a query of at least two code units whose lower-case form is not
    empty, lower-casing the empty string being the empty string). *)
Theorem starResults_searchEffect (searchQuery : jsstring) :
  toLowerCase [] = [] -> toLowerCase searchQuery <> [] ->
  (2 <= List.length searchQuery)%nat ->
  (forall star, In star starData -> StarData.isSolarSystemBodyItem toLowerCase star = false) ->
  StarData.starResults toLowerCase starData (toLowerCase searchQuery)
  = map StarData_vocabulary.starResult (searchEffect toLowerCase starData searchQuery).
Proof.
  intros E0 Eq Hlen Hno. unfold StarData.starResults, searchEffect.
  destruct searchQuery as [|c [|d q]]; cbn [List.length] in Hlen; try lia.
  cbn [orb List.length Nat.ltb Nat.leb].
  change (map StarData_vocabulary.starResult ?l)
    with (map (fun star : StarData.Star num =>
                 {| StarData.id := StarData.starResultId star;
                    StarData.proper := StarData.star_proper star;
                    StarData.name := StarData.star_name star;
                    StarData.mag := StarData.star_mag star;
                    StarData.ra := StarData.star_ra star;
                    StarData.dec := StarData.star_dec star;
                    StarData.isSolarSystemBody := false |}) l).
  do 2 f_equal. apply filter_ext_in. intros star I.
  unfold StarData.starFilter. rewrite (Hno star I).
  now rewrite !nameIncludes_lowerOrEmpty.
Qed.

End Search.

Lemma starResults_searchEffect_witness :
  asciiLowerCase [] = [] /\ asciiLowerCase (str "ALP") <> []
  /\ (2 <= List.length (str "ALP"))%nat
  /\ (forall star, In star StarData_vocabulary.alpCatalogue ->
        StarData.isSolarSystemBodyItem asciiLowerCase star = false)
  /\ StarData.starResults asciiLowerCase StarData_vocabulary.alpCatalogue
       (asciiLowerCase (str "ALP"))
     = map StarData_vocabulary.starResult
         (searchEffect asciiLowerCase StarData_vocabulary.alpCatalogue (str "ALP")).
Proof.
  assert (E0 : asciiLowerCase [] = []) by reflexivity.
  assert (Eq : asciiLowerCase (str "ALP") <> []) by discriminate.
  assert (Hlen : (2 <= List.length (str "ALP"))%nat) by (cbn; lia).
  assert (Hno : forall star, In star StarData_vocabulary.alpCatalogue ->
                  StarData.isSolarSystemBodyItem asciiLowerCase star = false).
  { intros star [<-|[<-|[]]]; reflexivity. }
  split; [exact E0|]. split; [exact Eq|]. split; [exact Hlen|]. split; [exact Hno|].
  exact (@starResults_searchEffect Q _ asciiLowerCase StarData_vocabulary.alpCatalogue
           (str "ALP") E0 Eq Hlen Hno).
Defined.

(** X25: in exact arithmetic, for right ascensions in [0,24) hours, the
    horizontal arrow of this variant points right exactly when the selection
    is more than 1 and at most 180 degrees of right ascension ahead of the
    pointing, the short way round, and left exactly when it is more than 1 and
    at most 180 degrees behind; within 1 degree, and within 1 degree of a full
    turn, it is the bullet.  The vertical arrow points up or down exactly when
    the declinations differ by more than 1 degree. *)
Theorem direction_shorter_way (selectedCelestial eq : App_new.Equatorial Q) :
  (0 <= App_new.ra selectedCelestial < 24)%Q -> (0 <= App_new.ra eq < 24)%Q ->
  let D := (App_new.ra selectedCelestial * 15 - App_new.ra eq * 15)%Q in
  let decDiff := (App_new.dec selectedCelestial - App_new.dec eq)%Q in
  let d := calculateDirection_direction selectedCelestial eq in
  (horizontal d = rightwards_arrow <-> (1 < D <= 180 \/ -359 < D < -180)%Q)
  /\ (horizontal d = leftwards_arrow <-> (-180 <= D < -1 \/ 180 < D < 359)%Q)
  /\ (vertical d = upwards_arrow <-> (1 < decDiff)%Q)
  /\ (vertical d = downwards_arrow <-> (decDiff < -1)%Q).
Proof.
  intros Ht Hc D decDiff d. subst d.
  unfold calculateDirection_direction, direction, App_new.calculateDirection_raDiff.
  cbn [horizontal vertical mul sub add neg lt exact int lit].
  change (180 # 1) with 180%Q. change (360 # 1) with 360%Q. change (15 # 1) with 15%Q.
  change (1 # 1) with 1%Q.
  fold D. fold decDiff.
  assert (HD : (-360 < D < 360)%Q) by (unfold D; lra).
  clearbody D decDiff.
  repeat match goal with
  | |- context [Qltb ?a ?b] =>
      lazymatch a with context [Qltb] => fail | _ => idtac end;
      lazymatch b with context [Qltb] => fail | _ => idtac end;
      let E := fresh "E" in
      destruct (Qltb a b) eqn:E; [apply Qltb_lt in E | apply Qltb_ge in E]
  end.
  all: unfold rightwards_arrow, leftwards_arrow, upwards_arrow, downwards_arrow, bullet.
  all: repeat split; try discriminate; try reflexivity; try lra.
  all: try (intros [L|L]; exfalso; lra); try (intros L; exfalso; lra);
    try (intros _; lra); try (intros _; left; lra); try (intros _; right; lra).
Qed.

Lemma direction_shorter_way_witness :
  (0 <= 23 < 24)%Q /\ (0 <= 1 < 24)%Q
  /\ horizontal (calculateDirection_direction {| App_new.ra := 23; App_new.dec := 0 |}
                   {| App_new.ra := 1; App_new.dec := 0 |} : Direction)
     = leftwards_arrow.
Proof.
  assert (Ht : (0 <= 23 < 24)%Q) by (split; [discriminate | reflexivity]).
  assert (Hc : (0 <= 1 < 24)%Q) by (split; [discriminate | reflexivity]).
  split; [exact Ht|]. split; [exact Hc|].
  apply (proj1 (proj2 (@direction_shorter_way {| App_new.ra := 23; App_new.dec := 0 |}
                         {| App_new.ra := 1; App_new.dec := 0 |} Ht Hc))).
  right. split; reflexivity.
Defined.

End App_part_001_properties.

(** ** Convert.js *)

Module Convert_properties.
Import Convert Convert_vocabulary.

Section Rows.
Context {num : Type}.
Variable parseInt : option jsstring -> num.
Variable parseFloat : option jsstring -> num.




End Rows.

End Convert_properties.
